(** * parse-sizes: the <img sizes="..."> parser, embedded and verified

    The repository's [parse-sizes.js] is present in two revisions, both
    defining [parseSizes]:

    - the forward revision ([Module Fwd]) tokenizes the whole attribute with
      [parseComponentValues] and then runs the selection loop over the groups;
    - the backward revision ([Module Bwd]) splits on commas and scans each
      piece from its end with [getLastComponentValue].

    JavaScript strings are modelled as lists of code units ([list ascii]);
    the program only ever compares code units with ASCII characters.
    [undefined] is modelled by [VUndefined] (values) or [None] (array and
    string reads out of range). *)

From Stdlib Require Import ZArith Lia Ascii String.
From stdpp Require Import base list strings.

Local Open Scope Z_scope.
Local Open Scope char_scope.

(** ** JavaScript strings and values *)

Abbreviation str := (list ascii).

(** A string literal. *)
Definition lit (s : string) : str := list_ascii_of_string s.

Inductive value : Type :=
| VUndefined
| VString (s : str).

(** [o === c] for the result [o] of a string read [str[i]]. *)
Definition is_char (o : option ascii) (c : ascii) : bool :=
  match o with
  | Some x => (x =? c)%char
  | None => false
  end.

(** Truthiness of a string: non-empty. *)
Definition truthy (s : str) : bool :=
  match s with
  | [] => false
  | _ :: _ => true
  end.

(** [a.join(" ")]. *)
Fixpoint join_space (a : list str) : str :=
  match a with
  | [] => []
  | [x] => x
  | x :: rest => x ++ " " :: join_space rest
  end.

Definition str_eqb (a b : str) : bool := bool_decide (a = b).

(** ** Regular expressions

    [RegExp.prototype.test] on a pattern anchored with [^...$], without
    back-references or look-around, accepts exactly the words of the regular
    language of the pattern; it is modelled by Brzozowski derivatives. *)

Inductive regex : Type :=
| Void
| Eps
| Sym (p : ascii -> bool)
| Cat (r1 r2 : regex)
| Alt (r1 r2 : regex)
| Star (r : regex).

Definition Plus (r : regex) : regex := Cat r (Star r).
Definition Opt (r : regex) : regex := Alt r Eps.

Fixpoint nullable (r : regex) : bool :=
  match r with
  | Void => false
  | Eps => true
  | Sym _ => false
  | Cat r1 r2 => nullable r1 && nullable r2
  | Alt r1 r2 => nullable r1 || nullable r2
  | Star _ => true
  end.

Fixpoint deriv (c : ascii) (r : regex) : regex :=
  match r with
  | Void => Void
  | Eps => Void
  | Sym p => if p c then Eps else Void
  | Cat r1 r2 =>
      if nullable r1 then Alt (Cat (deriv c r1) r2) (deriv c r2)
      else Cat (deriv c r1) r2
  | Alt r1 r2 => Alt (deriv c r1) (deriv c r2)
  | Star r1 => Cat (deriv c r1) (Star r1)
  end.

Fixpoint regex_test (r : regex) (s : str) : bool :=
  match s with
  | [] => nullable r
  | c :: s' => regex_test (deriv c r) s'
  end.

(** The language of a pattern. *)
Inductive matches : regex -> str -> Prop :=
| MEps : matches Eps []
| MSym p c : p c = true -> matches (Sym p) [c]
| MCat r1 r2 s1 s2 : matches r1 s1 -> matches r2 s2 -> matches (Cat r1 r2) (s1 ++ s2)
| MAltL r1 r2 s : matches r1 s -> matches (Alt r1 r2) s
| MAltR r1 r2 s : matches r2 s -> matches (Alt r1 r2) s
| MStarNil r : matches (Star r) []
| MStarCons r s1 s2 : matches r s1 -> matches (Star r) s2 -> matches (Star r) (s1 ++ s2).

(** *** The [i] flag

    Without the [u] flag, case-insensitive matching compares
    [Canonicalize(ch)], the upper-case mapping, and a code unit outside
    ASCII never canonicalizes to an ASCII one. *)

Definition canonicalize (c : ascii) : ascii :=
  if ("a" <=? c) && (c <=? "z")
  then ascii_of_nat (nat_of_ascii c - 32)
  else c.

Inductive class_item : Type :=
| One (c : ascii)
| Range (lo hi : ascii).

Definition item_members (i : class_item) : list ascii :=
  match i with
  | One c => [c]
  | Range lo hi =>
      map ascii_of_nat (seq (nat_of_ascii lo) (S (nat_of_ascii hi) - nat_of_ascii lo))
  end.

(** [[...]] under [/i]: some member of the class has the canonical form of
    the input character. *)
Definition class_i (items : list class_item) (x : ascii) : bool :=
  existsb (fun a => (canonicalize a =? canonicalize x)%char)
          (concat (map item_members items)).

Definition chr_i (c : ascii) : regex := Sym (class_i [One c]).

(** A literal word under [/i]. *)
Fixpoint word_i (w : str) : regex :=
  match w with
  | [] => Eps
  | [c] => chr_i c
  | c :: w' => Cat (chr_i c) (word_i w')
  end.

Fixpoint alt_words (ws : list string) : regex :=
  match ws with
  | [] => Void
  | [w] => word_i (lit w)
  | w :: ws' => Alt (word_i (lit w)) (alt_words ws')
  end.

Definition re_digit : regex := Sym (class_i [Range "0" "9"]).
Definition re_sign : regex := Sym (class_i [One "+"; One "-"]).

Definition units : list string :=
  ["ch"; "cm"; "em"; "ex"; "in"; "mm"; "pc"; "pt"; "px"; "rem"; "vh"; "vmin";
   "vmax"; "vw"]%string.

(** [/^(?:[+-]?[0-9]+|[0-9]*\.[0-9]+)(?:[eE][+-]?[0-9]+)?(?:ch|cm|em|ex|in|mm|pc|pt|px|rem|vh|vmin|vmax|vw)$/i],
    the same in both revisions. *)
Definition regexCssLengthWithUnits : regex :=
  Cat (Alt (Cat (Opt re_sign) (Plus re_digit))
           (Cat (Star re_digit) (Cat (chr_i ".") (Plus re_digit))))
      (Cat (Opt (Cat (Sym (class_i [One "e"; One "E"]))
                     (Cat (Opt re_sign) (Plus re_digit))))
           (alt_words units)).

(** ** [parseFloat(s) >= 0]

    [parseFloat] skips leading white space, reads the longest prefix that is
    a StrDecimalLiteral and rounds its mathematical value to a Number; with
    no such prefix the result is NaN. The literal read is kept exactly, as
    sign, decimal mantissa and decimal exponent. *)

Inductive number : Type :=
| NaN
| Infinite (neg : bool)
| Finite (neg : bool) (mantissa exponent : Z).

Definition isDigit (c : ascii) : bool := ("0" <=? c) && (c <=? "9").

Fixpoint takeDigits (s : str) : str * str :=
  match s with
  | c :: s' =>
      if isDigit c then let '(ds, r) := takeDigits s' in (c :: ds, r)
      else ([], s)
  | [] => ([], [])
  end.

Definition digitsValue (ds : str) : Z :=
  fold_left (fun acc d => 10 * acc + (Z.of_nat (nat_of_ascii d) - 48)) ds 0.

(** White space and line terminators among the 8-bit code units. *)
Definition isStrWhiteSpace (c : ascii) : bool :=
  (c =? "009") || (c =? "010") || (c =? "011") || (c =? "012") ||
  (c =? "013") || (c =? " ") || (c =? "160").

Fixpoint trimStart (s : str) : str :=
  match s with
  | c :: s' => if isStrWhiteSpace c then trimStart s' else s
  | [] => []
  end.

Fixpoint startsWith (p s : str) : bool :=
  match p, s with
  | [], _ => true
  | a :: p', b :: s' => (a =? b) && startsWith p' s'
  | _ :: _, [] => false
  end.

(** ExponentPart: [e] or [E], an optional sign, at least one digit;
    otherwise no exponent is read. *)
Definition readExponent (s : str) : Z :=
  match s with
  | c :: s' =>
      if (c =? "e") || (c =? "E") then
        let '(neg, s'') :=
          match s' with
          | "+" :: t => (false, t)
          | "-" :: t => (true, t)
          | _ => (false, s')
          end in
        match fst (takeDigits s'') with
        | [] => 0
        | ds => if neg then - digitsValue ds else digitsValue ds
        end
      else 0
  | [] => 0
  end.

Definition readUnsigned (neg : bool) (s : str) : number :=
  if startsWith (lit "Infinity") s then Infinite neg
  else
    let '(ds1, r1) := takeDigits s in
    match r1 with
    | "." :: r2 =>
        let '(ds2, r3) := takeDigits r2 in
        match ds1, ds2 with
        | [], [] => NaN
        | _, _ =>
            Finite neg (digitsValue (ds1 ++ ds2))
                   (readExponent r3 - Z.of_nat (length ds2))
        end
    | _ =>
        match ds1 with
        | [] => NaN
        | _ => Finite neg (digitsValue ds1) (readExponent r1)
        end
    end.

Definition parseFloat (s : str) : number :=
  match trimStart s with
  | "+" :: t => readUnsigned false t
  | "-" :: t => readUnsigned true t
  | t => readUnsigned false t
  end.

(** [m * 10^e] rounds to zero in binary64 (round to nearest, ties to even)
    exactly when it is at most [2^-1075], half the least subnormal. *)
Definition roundsToZero (m e : Z) : bool :=
  ((m =? 0) || ((e <? 0) && (m * 2 ^ 1075 <=? 10 ^ (- e))))%Z.

(** [x >= 0] on Numbers: false for NaN, true for [-0]. *)
Definition ge0 (x : number) : bool :=
  match x with
  | NaN => false
  | Infinite neg => negb neg
  | Finite neg m e => negb neg || roundsToZero m e
  end.

(** ** The validator of the forward revision *)

Definition isSpace (c : ascii) : bool :=
  (c =? " ") || (c =? "009") || (c =? "010") || (c =? "012") || (c =? "013").

(** [c && isSpace(c)], and [isSpace(c)], for a string read [c]:
    [isSpace(undefined)] is false. *)
Definition spaceRead (o : option ascii) : bool :=
  match o with
  | Some c => isSpace c
  | None => false
  end.

Definition calc_class : list class_item :=
  [Range "0" "9"; Range "a" "z"; One " "; One "."; One "+"; One "-"; One "*";
   One "/"; One "("; One ")"].

(** [/^calc\((?:[0-9a-z \.\+\-\*\/\(\)]+)\)$/i] *)
Definition regexCssCalc : regex :=
  Cat (word_i (lit "calc("))
      (Cat (Plus (Sym (class_i calc_class))) (chr_i ")")).

Definition isValidNonNegativeSourceSizeValue (s : str) : bool :=
  if regex_test regexCssLengthWithUnits s && ge0 (parseFloat s) then true
  else if regex_test regexCssCalc s then true
  else if str_eqb s (lit "0") || str_eqb s (lit "-0") || str_eqb s (lit "+0") then true
  else false.

(** The host: [console] is the truth value of [window.console && console.log],
    [matchMedia s] the value of [window.matchMedia(s).matches]. *)
Record host : Type := mkHost {
  console : bool;
  matchMedia : str -> bool }.

(** What a call does: it returns a value, having written [log] to the
    console; or it throws a TypeError; [OutOfFuel] is the bounded scanning
    loop giving up, which [FwdFacts.parseComponentValues_total] excludes. *)
Inductive outcome : Type :=
| Returned (v : value) (log : list str)
| TypeError
| OutOfFuel.

Definition parseErrorMessage (s : str) : str := lit "Parse error: " ++ s.

(** ** The forward revision *)

Module Fwd.

(** The variables of [parseComponentValues]. *)
Record state : Type := mkState {
  component : str;
  componentArray : list str;
  listArray : list (list str);
  parenDepth : Z;
  pos : nat;
  inComment : bool }.

Definition init : state := mkState [] [] [] 0 0 false.

Definition pushComponent (st : state) : state :=
  if truthy (component st)
  then mkState [] (componentArray st ++ [component st]) (listArray st)
               (parenDepth st) (pos st) (inComment st)
  else st.

(** [componentArray[0]] is truthy when the array has a first element and
    that string is not empty. *)
Definition pushComponentArray (st : state) : state :=
  match componentArray st !! 0%nat with
  | Some c0 =>
      if truthy c0
      then mkState (component st) [] (listArray st ++ [componentArray st])
                   (parenDepth st) (pos st) (inComment st)
      else st
  | None => st
  end.

Definition advance (n : nat) (st : state) : state :=
  mkState (component st) (componentArray st) (listArray st) (parenDepth st)
          (pos st + n) (inComment st).

Definition setInComment (b : bool) (st : state) : state :=
  mkState (component st) (componentArray st) (listArray st) (parenDepth st)
          (pos st) b.

Definition addDepth (d : Z) (st : state) : state :=
  mkState (component st) (componentArray st) (listArray st) (parenDepth st + d)
          (pos st) (inComment st).

(** [component = component + chrctr]. *)
Definition append (c : ascii) (st : state) : state :=
  mkState (component st ++ [c]) (componentArray st) (listArray st)
          (parenDepth st) (pos st) (inComment st).

(** [str[pos - 1]]; [str[-1]] is undefined. *)
Definition charBefore (s : str) (p : nat) : option ascii :=
  match p with
  | O => None
  | S q => s !! q
  end.

(** One turn of the [while (true)] loop: the next state, or the returned
    [listArray]. *)
Definition step (s : str) (st : state) : state + list (list str) :=
  match s !! pos st with
  | None => inr (listArray (pushComponentArray (pushComponent st)))
  | Some chrctr =>
      if inComment st then
        if (chrctr =? "*") && is_char (s !! (pos st + 1)%nat) "/"
        then inl (pushComponent (advance 2 (setInComment false st)))
        else inl (advance 1 st)
      else if isSpace chrctr then
        if spaceRead (charBefore s (pos st)) || negb (truthy (component st))
        then inl (advance 1 st)
        else if (parenDepth st =? 0)%Z
        then inl (advance 1 (pushComponent st))
        else inl (advance 1 (append " " st))
      else if chrctr =? "(" then inl (advance 1 (append chrctr (addDepth 1 st)))
      else if chrctr =? ")" then inl (advance 1 (append chrctr (addDepth (-1) st)))
      else if chrctr =? "," then inl (advance 1 (pushComponentArray (pushComponent st)))
      else if (chrctr =? "/") && is_char (s !! (pos st + 1)%nat) "*"
      then inl (advance 2 (setInComment true st))
      else inl (advance 1 (append chrctr st))
  end.

Fixpoint loop (fuel : nat) (s : str) (st : state) : option (list (list str)) :=
  match fuel with
  | O => None
  | S fuel' =>
      match step s st with
      | inr result => Some result
      | inl st' => loop fuel' s st'
      end
  end.

(** The loop from a state, with one turn per remaining character and one
    for the end of the string. *)
Definition run (s : str) (st : state) : option (list (list str)) :=
  loop (S (length s - pos st)) s st.

Definition parseComponentValues (s : str) : option (list (list str)) :=
  run s init.

(** [isValidNonNegativeSourceSizeValue(unparsedSize[unparsedSize.length - 1])];
    on an empty array the read is undefined, which no test accepts. *)
Definition validLast (o : option str) : bool :=
  match o with
  | Some s => isValidNonNegativeSourceSizeValue s
  | None => false
  end.

Definition readValue (o : option str) : value :=
  match o with
  | Some s => VString s
  | None => VUndefined
  end.

(** The [for] loop over [unparsedSizesList], from the current group on;
    [size] and the console log are carried from one turn to the next, and
    [i !== unparsedSizesListLength - 1] holds when groups remain after the
    current one. *)
Fixpoint forEach (h : host) (strValue : str) (size : value) (log : list str)
    (unparsedSizesList : list (list str)) : value * list str :=
  match unparsedSizesList with
  | [] => (VString (lit "100vw"), log)
  | unparsedSize :: rest =>
      let lastComponentValue := last unparsedSize in
      let fromStep3 (size : value) (unparsedSize : list str) :=
        if (length unparsedSize =? 0)%nat then
          (size,
           if negb (length rest =? 0)%nat && console h
           then log ++ [parseErrorMessage strValue] else log)
        else if negb (matchMedia h (join_space unparsedSize))
        then forEach h strValue size log rest
        else (size, log) in
      if validLast lastComponentValue
      then fromStep3 (readValue lastComponentValue) (removelast unparsedSize)
      else if console h
      then forEach h strValue size (log ++ [parseErrorMessage strValue]) rest
      else fromStep3 size unparsedSize
  end.

(** [parseSizes(strValue)]: reading [str[pos]] of [undefined] throws. *)
Definition parseSizes (h : host) (strValue : value) : outcome :=
  match strValue with
  | VUndefined => TypeError
  | VString s =>
      match parseComponentValues s with
      | Some unparsedSizesList =>
          let '(v, log) := forEach h s VUndefined [] unparsedSizesList in
          Returned v log
      | None => OutOfFuel
      end
  end.

End Fwd.

(** ** The backward revision *)

Module Bwd.

(** [/^calc\((?:[0-9a-z \+\-\*\/\(\)]+)\)$/i]: this revision's class has
    no [.]. *)
Definition calc_class : list class_item :=
  [Range "0" "9"; Range "a" "z"; One " "; One "+"; One "-"; One "*";
   One "/"; One "("; One ")"].

Definition regexCssCalc : regex :=
  Cat (word_i (lit "calc("))
      (Cat (Plus (Sym (class_i calc_class))) (chr_i ")")).

Definition isValidNonNegativeSourceSizeValue (s : str) : bool :=
  if regex_test regexCssLengthWithUnits s && ge0 (parseFloat s) then true
  else if regex_test regexCssCalc s || str_eqb s (lit "0") ||
          str_eqb s (lit "-0") || str_eqb s (lit "+0") then true
  else false.

(** [strValue.split(",")]. *)
Fixpoint split (s : str) : list str :=
  match s with
  | [] => [[]]
  | c :: s' =>
      if c =? "," then [] :: split s'
      else
        match split s' with
        | piece :: pieces => (c :: piece) :: pieces
        | [] => [[c]]
        end
  end.

(** An array converted to a string: its elements joined with commas. *)
Fixpoint join_comma (a : list str) : str :=
  match a with
  | [] => []
  | [x] => x
  | x :: rest => x ++ "," :: join_comma rest
  end.

(** The [for] loop of [trimTrailingSpace], counting [n = j + 1] down; the
    result is the final [j + 1]. *)
Fixpoint trimTrailingEnd (s : str) (n : nat) : nat :=
  match n with
  | O => O
  | S j => if spaceRead (s !! j) then trimTrailingEnd s j else S j
  end.

Definition trimTrailingSpace (s : str) : str :=
  take (trimTrailingEnd s (length s)) s.

(** The [for] loop of [trimLeadingSpace] from index [i], with [k] turns
    left before [i] reaches [str.length]; the result is the final [i]. *)
Fixpoint trimLeadingStart (s : str) (k i : nat) : nat :=
  match k with
  | O => i
  | S k' => if spaceRead (s !! i) then trimLeadingStart s k' (S i) else i
  end.

Definition trimLeadingSpace (s : str) : str :=
  drop (trimLeadingStart s (length s) 0) s.

(** The [while (true)] loop of [getLastComponentValue], counting
    [n = pos + 1] down; at [n = 0] the read [str[-1]] is undefined. *)
Fixpoint scanBack (s : str) (n : nat) (component : str) (parenDepth : Z) : str :=
  match n with
  | O => component
  | S p =>
      match s !! p with
      | None => component
      | Some char =>
          if isSpace char then
            if spaceRead (s !! (p + 1)%nat) || (p =? length s - 1)%nat
            then scanBack s p component parenDepth
            else if (parenDepth =? 0)%Z && truthy component
            then component
            else scanBack s p (" " :: component) parenDepth
          else if char =? ")" then scanBack s p (char :: component) (parenDepth + 1)
          else if char =? "(" then scanBack s p (char :: component) (parenDepth - 1)
          else scanBack s p (char :: component) parenDepth
      end
  end.

Definition getLastComponentValue (s : str) : str :=
  scanBack s (length s) [] 0.

(** The [for] loop over the pieces, from the current one on; [all] is the
    whole array [unParsedSizes], which the log message prints. The flag
    [pError] is written and never read, and is left out. *)
Fixpoint forEach (h : host) (all : list str) (log : list str)
    (unParsedSizes : list str) : value * list str :=
  match unParsedSizes with
  | [] => (VString (lit "100vw"), log)
  | unParsedSize :: rest =>
      let unParsedSize := trimTrailingSpace unParsedSize in
      if negb (truthy unParsedSize) then forEach h all log rest
      else
        let lastComponentValue := getLastComponentValue unParsedSize in
        if isValidNonNegativeSourceSizeValue lastComponentValue then
          let size := lastComponentValue in
          let unParsedSize :=
            take (length unParsedSize - length size) unParsedSize in
          let unParsedSize := trimTrailingSpace unParsedSize in
          if negb (truthy unParsedSize) then
            (VString size,
             if negb (length rest =? 0)%nat && console h
             then log ++ [parseErrorMessage (join_comma all)] else log)
          else
            let unParsedSize := trimLeadingSpace (trimTrailingSpace unParsedSize) in
            if negb (matchMedia h unParsedSize)
            then forEach h all log rest
            else (VString size, log)
        else forEach h all log rest
  end.

(** [parseSizes(strValue)]: calling [split] on [undefined] throws. *)
Definition parseSizes (h : host) (strValue : value) : outcome :=
  match strValue with
  | VUndefined => TypeError
  | VString s =>
      let unParsedSizes := split s in
      let '(v, log) := forEach h unParsedSizes [] unParsedSizes in
      Returned v log
  end.

End Bwd.

(** * Notions used to state the properties *)

Definition all_ascii : list ascii := map ascii_of_nat (seq 0 256).

(** Lower-case form of an ASCII letter. *)
Definition toLower (c : ascii) : ascii :=
  if ("A" <=? c) && (c <=? "Z")
  then ascii_of_nat (nat_of_ascii c + 32)
  else c.

Definition isLetter (c : ascii) : bool :=
  (("a" <=? c) && (c <=? "z")) || (("A" <=? c) && (c <=? "Z")).

Definition isUpper (c : ascii) : bool := ("A" <=? c) && (c <=? "Z").

(** The characters the calc pattern of the forward revision allows between
    [calc(] and the closing parenthesis. *)
Definition isCalcChar (c : ascii) : bool :=
  isDigit c || isLetter c || (c =? " ") || (c =? ".") || (c =? "+") ||
  (c =? "-") || (c =? "*") || (c =? "/") || (c =? "(") || (c =? ")").

(** The shape the calc pattern describes, for a class [ok] of inner
    characters. *)
Definition calcShape (ok : ascii -> bool) (s : str) : Prop :=
  exists prefix body,
    s = prefix ++ body ++ [")"] /\ map toLower prefix = lit "calc(" /\
    body <> [] /\ Forall (fun c => ok c = true) body.

(** ** The shape of a length token *)

Definition isSignStr (s : str) : Prop := s = [] \/ s = ["+"] \/ s = ["-"].

Definition isDigits (s : str) : Prop := Forall (fun c => isDigit c = true) s.

(** An optionally signed integer, or an unsigned number with a dot and at
    least one digit after it. *)
Definition isMantissa (m : str) : Prop :=
  (exists sg ds, m = sg ++ ds /\ isSignStr sg /\ ds <> [] /\ isDigits ds) \/
  (exists ds1 ds2, m = ds1 ++ "." :: ds2 /\ isDigits ds1 /\ ds2 <> [] /\ isDigits ds2).

Definition isExponent (e : str) : Prop :=
  e = [] \/
  exists c sg ds,
    e = c :: sg ++ ds /\ (c = "e" \/ c = "E") /\ isSignStr sg /\
    ds <> [] /\ isDigits ds.

(** One of the 14 units, in any letter case. *)
Definition isUnit (u : str) : Prop := In (map toLower u) (map lit units).

Definition lengthShape (s : str) : Prop :=
  exists m e u, s = m ++ e ++ u /\ isMantissa m /\ isExponent e /\ isUnit u.

(** The length pattern as the specification words it: the sign may precede
    a number with a fractional part.
    [/^[+-]?[0-9]+(?:\.[0-9]+)?(?:[eE][+-]?[0-9]+)?(?:ch|...|vw)$/i] *)
Definition specLengthPattern : regex :=
  Cat (Cat (Opt re_sign) (Cat (Plus re_digit) (Opt (Cat (chr_i ".") (Plus re_digit)))))
      (Cat (Opt (Cat (Sym (class_i [One "e"; One "E"]))
                     (Cat (Opt re_sign) (Plus re_digit))))
           (alt_words units)).

(** ** The states and the output of the tokenizer *)

(** A white-space character is kept, if at all, as a plain space. *)
Definition normSpace (c : ascii) : ascii := if isSpace c then " " else c.

(** A token starts with a character that is not white space, and holds no
    comma. *)
Definition tokenOK (t : str) : Prop :=
  match t with
  | c :: _ => isSpace c = false
  | [] => False
  end /\ Forall (fun c => c <> ",") t.

Module FwdSpec.
Import Fwd.

(** The shape of the buffers in every state of the scan. *)
Record wf (st : state) : Prop := mkWf {
  wf_groups : Forall (fun g => g <> []) (listArray st);
  wf_listed : Forall (Forall tokenOK) (listArray st);
  wf_pending : Forall tokenOK (componentArray st);
  wf_component : component st = [] \/ tokenOK (component st) }.

(** All characters kept so far, in the order of the output. *)
Definition flat (st : state) : str :=
  concat (concat (listArray st)) ++ concat (componentArray st) ++ component st.

(** The kept characters are, in order, among the characters read. *)
Definition ordered (s : str) (st : state) : Prop :=
  flat st `sublist_of` map normSpace (take (pos st) s).

End FwdSpec.

(** The states the scan of [s] goes through. *)
Inductive reachable (s : str) : Fwd.state -> Prop :=
| reach_init : reachable s Fwd.init
| reach_step st st' :
    reachable s st -> Fwd.step s st = inl st' -> reachable s st'.

(** The group that is pending in a state: the tokens of [componentArray]
    and the current token, when there is one. *)
Definition pendingGroup (st : Fwd.state) : list str :=
  Fwd.componentArray st ++
  (if truthy (Fwd.component st) then [Fwd.component st] else []).

Definition groupIfAny (g : list str) : list (list str) :=
  match g with
  | [] => []
  | _ :: _ => [g]
  end.

(** [b] holds a [*] followed by a [/]: the test the scan makes inside a
    comment, at each character. *)
Fixpoint hasClose (b : str) : bool :=
  match b with
  | [] => false
  | c :: b' => ((c =? "*") && is_char (head b') "/") || hasClose b'
  end.

(** The state [st] moved to position [p], inside or outside a comment. *)
Definition atPos (p : nat) (b : bool) (st : Fwd.state) : Fwd.state :=
  Fwd.mkState (Fwd.component st) (Fwd.componentArray st) (Fwd.listArray st)
              (Fwd.parenDepth st) p b.

(** What the scan returns when the string ends in state [st]. *)
Definition finish (st : Fwd.state) : list (list str) :=
  Fwd.listArray (Fwd.pushComponentArray (Fwd.pushComponent st)).

(** ** Inputs on which the two revisions are compared *)

(** [s] holds a [/] followed by a [*], which opens a comment. *)
Fixpoint hasOpen (s : str) : bool :=
  match s with
  | [] => false
  | c :: s' => ((c =? "/") && is_char (head s') "*") || hasOpen s'
  end.

(** A single component value: no white space, no comma, no comment. *)
Definition singleToken (s : str) : Prop :=
  Forall (fun c => isSpace c = false /\ c <> ",") s /\ hasOpen s = false.

(** The value a call returns, if it returns. *)
Definition returnedValue (o : outcome) : option value :=
  match o with
  | Returned v _ => Some v
  | TypeError | OutOfFuel => None
  end.

(** A host without a console, on which the media queries [all] and
    [(min-width:0)] match. *)
Definition legacyHost : host :=
  mkHost false (fun s => str_eqb s (lit "all") || str_eqb s (lit "(min-width:0)")).

(** ** Notions used to state the further properties *)

(** No two plain spaces side by side. *)
Fixpoint noDoubleSpace (t : str) : bool :=
  match t with
  | [] => true
  | c :: t' => negb ((c =? " ") && is_char (head t') " ") && noDoubleSpace t'
  end.

(** White space in a token, as the tokenizer leaves it: plain spaces only,
    never two in a row. *)
Definition spacesNormalised (t : str) : Prop :=
  Forall (fun c => isSpace c = true -> c = " ") t /\ noDoubleSpace t = true.

Definition noParens (s : str) : Prop :=
  Forall (fun c => c <> "(" /\ c <> ")") s.

Module FwdBuf.
Import Fwd.

(** Every token in the buffers of a state, the current one included,
    has the property [P]. *)
Record bufInv (P : str -> Prop) (st : state) : Prop := mkBufInv {
  buf_listed : Forall (Forall P) (listArray st);
  buf_pending : Forall P (componentArray st);
  buf_current : P (component st) }.

(** The state [st] of a scan, seen from a string that has [k] more
    characters in front and after [groups] have been output. *)
Definition shift (k : nat) (groups : list (list str)) (st : state) : state :=
  mkState (component st) (componentArray st) (groups ++ listArray st)
          (parenDepth st) (k + pos st) (inComment st).

(** Outside a comment, a current token that ends in a plain space was
    extended at the character just before [pos]. *)
Definition spaceJustRead (s : str) (st : state) : Prop :=
  inComment st = false -> is_char (last (component st)) " " = true ->
  spaceRead (charBefore s (pos st)) = true.

End FwdBuf.

(** ** Component values that the tokenizer keeps as they are *)

(** The paren depth after the characters of [m], read from depth [d], when
    each of them is appended as it is to the current token: a white-space
    character must be a plain space, inside parentheses or after an
    unmatched closing one (depth not zero), and must not follow another
    white-space character or start the token ([afterSpace]); a comma is
    never kept. [None] when some character is not kept. *)
Fixpoint keptDepth (d : Z) (afterSpace : bool) (m : str) : option Z :=
  match m with
  | [] => Some d
  | c :: m' =>
      if isSpace c then
        if (c =? " ") && negb afterSpace && negb (d =? 0)%Z
        then keptDepth d true m'
        else None
      else if c =? "(" then keptDepth (d + 1) false m'
      else if c =? ")" then keptDepth (d + -1) false m'
      else if c =? "," then None
      else keptDepth d false m'
  end.

(** A component value written in normal form: not empty, kept character by
    character from depth zero, and without comment opener. *)
Definition wholeComponent (m : str) (depthAfter : Z) : Prop :=
  m <> [] /\ hasOpen m = false /\ keptDepth 0 true m = Some depthAfter.

(** ** Where the tokens come from in the input *)

(** For each character of [s], whether it belongs to a comment, the two
    delimiters included; [inC] tells whether [s] starts inside a comment. *)
Fixpoint commentMask (inC : bool) (s : str) : list bool :=
  match s with
  | [] => []
  | c :: r =>
      match r with
      | d :: r' =>
          if inC then
            if (c =? "*") && (d =? "/")
            then true :: true :: commentMask false r'
            else true :: commentMask true r
          else
            if (c =? "/") && (d =? "*")
            then true :: true :: commentMask true r'
            else false :: commentMask false r
      | [] => [inC]
      end
  end.

(** The character of [s] at index [k] is not part of a comment. *)
Definition outsideComment (s : str) (k : nat) : Prop :=
  commentMask false s !! k = Some false.

(** A comma of [s] that is not part of a comment. *)
Definition commaAt (s : str) (k : nat) : Prop :=
  s !! k = Some "," /\ outsideComment s k.

(** Each run of white space made one plain space. *)
Fixpoint collapse (afterSpace : bool) (t : str) : str :=
  match t with
  | [] => []
  | c :: t' =>
      if isSpace c
      then if afterSpace then collapse true t' else " " :: collapse true t'
      else c :: collapse false t'
  end.

(** The characters of [s] from index [p] up to index [q], not included. *)
Definition slice (p q : nat) (s : str) : str := take (q - p) (drop p s).

(** The token read from the characters of [s] in the interval [iv]. *)
Definition tokenOf (s : str) (iv : nat * nat) : str :=
  collapse false (slice (fst iv) (snd iv) s).

(** The intervals [ivs] are not empty, lie between [lo] and [hi], and each
    ends before the next one starts. *)
Fixpoint chain (lo : nat) (ivs : list (nat * nat)) (hi : nat) : Prop :=
  match ivs with
  | [] => (lo <= hi)%nat
  | iv :: rest => (lo <= fst iv)%nat /\ (fst iv < snd iv)%nat /\ chain (snd iv) rest hi
  end.

(** No comma outside a comment lies between the start of a token of the
    group and the end of a token of the group. *)
Definition sameGroup (s : str) (g : list (nat * nat)) : Prop :=
  forall a b k, In a g -> In b g -> (fst a <= k < snd b)%nat -> ~ commaAt s k.

(** A comma outside a comment lies after the tokens of [g] and before the
    tokens of [g']. *)
Definition commaBetween (s : str) (g g' : list (nat * nat)) : Prop :=
  exists k, commaAt s k /\
            (forall a, In a g -> (snd a <= k)%nat) /\
            (forall b, In b g' -> (k < fst b)%nat).

(** Each group is parted from the next by a comma. *)
Fixpoint separated (s : str) (ivs : list (list (nat * nat))) : Prop :=
  match ivs with
  | g :: rest =>
      match rest with
      | g' :: _ => commaBetween s g g' /\ separated s rest
      | [] => True
      end
  | [] => True
  end.

(** The start of a scan at paren depth [d], as after a comma. *)
Definition startAt (d : Z) : Fwd.state := Fwd.mkState [] [] [] d 0 false.

Module FwdPos.
Import Fwd.

(** The intervals of the input from which the buffers of a state were
    read: those of the groups already closed, those of the tokens of the
    group being read, and that of the token being read. *)
Record origin : Type := mkOrigin {
  closed : list (list (nat * nat));
  pending : list (nat * nat);
  current : option (nat * nat) }.

Definition opened (o : origin) : list (nat * nat) :=
  pending o ++ option_list (current o).

Definition intervals (o : origin) : list (nat * nat) :=
  concat (closed o) ++ opened o.

(** The token being read becomes a token of the group. *)
Definition pushed (o : origin) : origin := mkOrigin (closed o) (opened o) None.

(** The intervals of a group, as a list of groups: no group when there is
    no token. *)
Definition groupOf (g : list (nat * nat)) : list (list (nat * nat)) :=
  match g with
  | [] => []
  | _ :: _ => [g]
  end.

(** The group being read, if it has a token, becomes a closed group. *)
Definition flushed (o : origin) : origin :=
  mkOrigin (closed o ++ groupOf (opened o)) [] None.

(** The character at index [p] is added to the token being read. *)
Definition extended (p : nat) (o : origin) : origin :=
  mkOrigin (closed o) (pending o)
           (Some (match current o with Some iv => fst iv | None => p end, S p)).

(** The buffers of [st] hold the tokens read from the intervals of [o]. *)
Record rep (s : str) (o : origin) (st : state) : Prop := mkRep {
  rep_listArray : listArray st = map (map (tokenOf s)) (closed o);
  rep_componentArray : componentArray st = map (tokenOf s) (pending o);
  rep_component :
    component st = match current o with Some iv => tokenOf s iv | None => [] end }.

(** Where the intervals of [o] lie when the scan is at index [p]. *)
Record placed (s : str) (o : origin) (p : nat) : Prop := mkPlaced {
  pl_bound : (p <= length s)%nat;
  pl_chain : chain 0 (intervals o) p;
  pl_outside :
    Forall (fun iv => forall k, (fst iv <= k < snd iv)%nat -> outsideComment s k)
           (intervals o);
  pl_groups : Forall (fun g => g <> []) (closed o);
  pl_within : Forall (sameGroup s) (closed o);
  pl_opened :
    forall a k, In a (opened o) -> (fst a <= k < p)%nat -> ~ commaAt s k;
  pl_between : separated s (closed o);
  pl_last :
    forall g, last (closed o) = Some g ->
      exists k, commaAt s k /\ (k < p)%nat /\
                (forall a, In a g -> (snd a <= k)%nat) /\
                (forall b, In b (opened o) -> (k < fst b)%nat);
  pl_complete :
    forall k c, (k < p)%nat -> s !! k = Some c -> isSpace c = false ->
      c <> "," -> outsideComment s k ->
      exists iv, In iv (intervals o) /\ (fst iv <= k < snd iv)%nat }.

(** The state and the intervals agree on where the scan is. *)
Record sync (s : str) (o : origin) (st : state) : Prop := mkSync {
  sync_current :
    forall iv, current o = Some iv -> inComment st = false -> snd iv = pos st;
  sync_mask :
    drop (pos st) (commentMask false s) =
    commentMask (inComment st) (drop (pos st) s) }.

(** A state whose buffers are accounted for by intervals of the input. *)
Definition tracked (s : str) (st : state) : Prop :=
  exists o, rep s o st /\ placed s o (pos st) /\ sync s o st.

End FwdPos.

(** ** The test suite

    [runTest] calls [parseSizes] on [test.sizes] and checks the result
    against [test.expect] with [assert.equal]; the rows below are the
    [tests] table, group by group. *)

Record test : Type := mkTest {
  sizes : string;
  expect : string }.

(** [assert.equal(parseSizes(test.sizes), test.expect)], for a given
    [parseSizes]: an [undefined] result or a throw do not pass. *)
Definition runTest (parseSizes : value -> outcome) (t : test) : bool :=
  match parseSizes (VString (lit (sizes t))) with
  | Returned (VString parsed) _ => str_eqb parsed (lit (expect t))
  | Returned VUndefined _ | TypeError | OutOfFuel => false
  end.

(** The group "No media condition". *)
Definition testsNoMediaCondition : list test :=
  [mkTest EmptyString "100vw";
   mkTest "," "100vw";
   mkTest "-1px" "100vw";
   mkTest "1" "100vw";
   mkTest "100vw" "100vw";
   mkTest "50vh" "50vh";
   mkTest "050ch" "050ch";
   mkTest "1px" "1px";
   mkTest "0" "0";
   mkTest "-0" "-0";
   mkTest "+0" "+0";
   mkTest "+1px" "+1px";
   mkTest ".1px" ".1px";
   mkTest "0.1em" "0.1em";
   mkTest "0.1ex" "0.1ex";
   mkTest "0.1ch" "0.1ch";
   mkTest "0.1rem" "0.1rem";
   mkTest "0.1vw" "0.1vw";
   mkTest "0.1vh" "0.1vh";
   mkTest "0.1vmin" "0.1vmin";
   mkTest "0.1vmax" "0.1vmax";
   mkTest "0.1cm" "0.1cm";
   mkTest "1mm" "1mm";
   mkTest "1q" "100vw";
   mkTest "0.01in" "0.01in";
   mkTest "0.1pc" "0.1pc";
   mkTest "0.1pt" "0.1pt";
   mkTest "(),1px" "1px";
   mkTest "x(),1px" "1px";
   mkTest "{},1px" "1px";
   mkTest "[],1px" "1px";
   mkTest "1px,(" "1px";
   mkTest "1px,x(" "1px";
   mkTest "1px,{" "1px";
   mkTest "1px,[" "1px";
   mkTest "25vw, 1px" "25vw"]%string.

(** The group "calc() function". *)
Definition testsCalc : list test :=
  [mkTest "calc(1px)" "calc(1px)";
   mkTest " calc(5px + 5px)" "calc(5px + 5px)";
   mkTest "calc((5px + 5px)*2)" "calc((5px + 5px)*2)";
   mkTest "calc(200px * 1.4)" "calc(200px * 1.4)";
   mkTest "calc(20.2em + 10px)" "calc(20.2em + 10px)"]%string.

(** The group "Disallowed css-length units". *)
Definition testsDisallowedUnits : list test :=
  [mkTest "0.1%" "100vw";
   mkTest "0.1deg" "100vw";
   mkTest "0.1grad" "100vw";
   mkTest "0.1rad" "100vw";
   mkTest "0.1turn" "100vw";
   mkTest "0.1s" "100vw";
   mkTest "0.1ms" "100vw";
   mkTest "0.1Hz" "100vw";
   mkTest "0.1kHz" "100vw";
   mkTest "0.1dpi" "100vw";
   mkTest "0.1dpcm" "100vw";
   mkTest "0.1dppx" "100vw"]%string.

(** The group "CSS style comments". *)
Definition testsComments : list test :=
  [mkTest "/* */1px/* */" "1px";
   mkTest " /**/ /**/ 1px /**/ /**/ " "1px";
   mkTest "1/* */px" "100vw";
   mkTest "1p/* */x" "100vw";
   mkTest "5/* */67px" "100vw";
   mkTest "-/**/0" "100vw";
   mkTest "/* 50vw" "100vw"]%string.

(** * Properties *)

(** ** The derivative matcher decides the language of a pattern *)

Section RegexFacts.

Implicit Types (r : regex) (s : str) (c : ascii).

Lemma matches_cat_inv r1 r2 s :
  matches (Cat r1 r2) s ->
  exists s1 s2, s = s1 ++ s2 /\ matches r1 s1 /\ matches r2 s2.
Proof. inversion 1; subst; eauto. Qed.

Lemma matches_alt_inv r1 r2 s :
  matches (Alt r1 r2) s -> matches r1 s \/ matches r2 s.
Proof. inversion 1; subst; eauto. Qed.

Lemma matches_sym_inv p s :
  matches (Sym p) s -> exists c, s = [c] /\ p c = true.
Proof. inversion 1; subst; eauto. Qed.

Lemma matches_eps_inv s : matches Eps s -> s = [].
Proof. by inversion 1. Qed.

Lemma matches_void_inv s : ~ matches Void s.
Proof. by inversion 1. Qed.

Lemma nullable_spec r : nullable r = true <-> matches r [].
Proof.
  induction r as [| |p|r1 IH1 r2 IH2|r1 IH1 r2 IH2|r IH]; simpl.
  - split; [done | by intros ?%matches_void_inv].
  - split; [intros _; constructor | done].
  - split; [done | by intros (c & ? & _)%matches_sym_inv].
  - rewrite andb_true_iff, IH1, IH2. split.
    + intros [H1 H2]. by apply (MCat _ _ [] []).
    + intros (s1 & s2 & Heq & H1 & H2)%matches_cat_inv.
      symmetry in Heq. apply app_eq_nil in Heq as [-> ->]. done.
  - rewrite orb_true_iff, IH1, IH2. split.
    + intros [H|H]; [by apply MAltL | by apply MAltR].
    + apply matches_alt_inv.
  - split; [intros _; constructor | done].
Qed.

(** A non-empty word of [r*] starts with a non-empty word of [r]. *)
Lemma matches_star_cons_inv r c s :
  matches (Star r) (c :: s) ->
  exists s1 s2, s = s1 ++ s2 /\ matches r (c :: s1) /\ matches (Star r) s2.
Proof.
  intros H. remember (Star r) as r' eqn:Hr. remember (c :: s) as w eqn:Hw.
  revert s Hw.
  induction H as [| | | | | |r0 s1 s2 H1 _ H2 IH2]; intros t Hw; try discriminate.
  injection Hr as ->.
  destruct s1 as [|c1 s1]; simpl in Hw.
  - by apply IH2.
  - injection Hw as -> <-. eauto.
Qed.

Lemma deriv_spec c r s : matches (deriv c r) s <-> matches r (c :: s).
Proof.
  revert s.
  induction r as [| |p|r1 IH1 r2 IH2|r1 IH1 r2 IH2|r IH]; intros s; simpl.
  - split; inversion 1.
  - split; inversion 1.
  - destruct (p c) eqn:Hp; split; intros H.
    + apply matches_eps_inv in H as ->. by constructor.
    + apply matches_sym_inv in H as (c' & [= <- ->] & _). constructor.
    + by apply matches_void_inv in H.
    + apply matches_sym_inv in H as (c' & [= <- ->] & Hc). congruence.
  - assert (Hcat : matches (Cat (deriv c r1) r2) s ->
                   matches (Cat r1 r2) (c :: s)).
    { intros (s1 & s2 & -> & H1 & H2)%matches_cat_inv.
      apply IH1 in H1. by apply (MCat _ _ (c :: s1) s2). }
    assert (Hinv : matches (Cat r1 r2) (c :: s) ->
                   matches (Cat (deriv c r1) r2) s \/
                   (matches r1 [] /\ matches r2 (c :: s))).
    { intros (s1 & s2 & Heq & H1 & H2)%matches_cat_inv.
      destruct s1 as [|c1 s1]; simpl in Heq.
      - subst s2. by right.
      - injection Heq as <- ->. left. constructor; [by apply IH1 | done]. }
    destruct (nullable r1) eqn:Hn; split.
    + intros [H|H]%matches_alt_inv; [by apply Hcat |].
      apply (MCat _ _ [] (c :: s)); [by apply nullable_spec | by apply IH2].
    + intros [H|[_ H]]%Hinv; [by apply MAltL | apply MAltR; by apply IH2].
    + apply Hcat.
    + intros [H|[H _]]%Hinv; [done |].
      apply nullable_spec in H. congruence.
  - split.
    + intros [H|H]%matches_alt_inv;
        [apply MAltL; by apply IH1 | apply MAltR; by apply IH2].
    + intros [H|H]%matches_alt_inv;
        [apply MAltL; by apply IH1 | apply MAltR; by apply IH2].
  - split.
    + intros (s1 & s2 & -> & H1 & H2)%matches_cat_inv.
      apply IH in H1. by apply (MStarCons _ (c :: s1) s2).
    + intros (s1 & s2 & -> & H1 & H2)%matches_star_cons_inv.
      constructor; [by apply IH | done].
Qed.

Theorem regex_test_spec r s : regex_test r s = true <-> matches r s.
Proof.
  revert r. induction s as [|c s IH]; intros r; simpl.
  - apply nullable_spec.
  - rewrite IH. apply deriv_spec.
Qed.

(** Words of [p+] and [p*] for a one-character class [p]. *)
Lemma matches_star_sym p s : matches (Star (Sym p)) s <-> Forall (fun c => p c = true) s.
Proof.
  split.
  - revert p. induction s as [|c s IH]; intros p H; [constructor |].
    apply matches_star_cons_inv in H as (s1 & s2 & -> & H1 & H2).
    apply matches_sym_inv in H1 as (c' & [= <- ->] & Hc).
    constructor; [done | by apply IH].
  - induction 1 as [|c s Hc _ IH]; [constructor |].
    apply (MStarCons _ [c] s); [by constructor | done].
Qed.

Lemma matches_plus_sym p s :
  matches (Plus (Sym p)) s <-> s <> [] /\ Forall (fun c => p c = true) s.
Proof.
  unfold Plus. split.
  - intros (s1 & s2 & -> & H1 & H2)%matches_cat_inv.
    apply matches_sym_inv in H1 as (c & -> & Hc).
    split; [done |]. constructor; [done | by apply matches_star_sym].
  - intros [Hne H]. destruct s as [|c s]; [done |].
    inversion H; subst.
    apply (MCat _ _ [c] s); [by constructor | by apply matches_star_sym].
Qed.

Lemma matches_opt r s : matches (Opt r) s <-> matches r s \/ s = [].
Proof.
  unfold Opt. split.
  - intros [H|H]%matches_alt_inv; [by left | right; by apply matches_eps_inv].
  - intros [H| ->]; [by apply MAltL | apply MAltR; constructor].
Qed.

End RegexFacts.

(** ** Character classes, by enumeration of the 256 code units *)

Lemma all_ascii_complete (x : ascii) : In x all_ascii.
Proof.
  unfold all_ascii. apply in_map_iff. exists (nat_of_ascii x). split.
  - apply ascii_nat_embedding.
  - apply in_seq. pose proof (nat_ascii_bounded x). lia.
Qed.

Lemma ascii_forall (P : ascii -> bool) :
  forallb P all_ascii = true -> forall x, P x = true.
Proof.
  intros H x. rewrite forallb_forall in H. apply H, all_ascii_complete.
Qed.

Lemma ascii_forall2 (P : ascii -> ascii -> bool) :
  forallb (fun a => forallb (P a) all_ascii) all_ascii = true ->
  forall a x, P a x = true.
Proof.
  intros H a x. apply (ascii_forall (P a)).
  revert a. apply (ascii_forall (fun a => forallb (P a) all_ascii)), H.
Qed.

(** An equation between two boolean tests of a character, checked on the
    256 characters. *)
Ltac by_ascii_cases x :=
  apply Bool.eqb_prop; revert x;
  apply (ascii_forall (fun x => Bool.eqb _ _));
  vm_compute; reflexivity.

Lemma class_one_spec (a x : ascii) :
  isUpper a = false -> class_i [One a] x = (toLower x =? a).
Proof.
  intros Ha.
  pose proof (ascii_forall2
    (fun a x => isUpper a || Bool.eqb (class_i [One a] x) (toLower x =? a))) as H.
  specialize (H ltac:(vm_compute; reflexivity) a x).
  cbv beta in H. rewrite Ha in H. by apply Bool.eqb_prop in H.
Qed.

Lemma class_digit_spec (x : ascii) : class_i [Range "0" "9"] x = isDigit x.
Proof.
  by_ascii_cases x.
Qed.

Lemma class_sign_spec (x : ascii) :
  class_i [One "+"; One "-"] x = (x =? "+") || (x =? "-").
Proof.
  by_ascii_cases x.
Qed.

Lemma class_e_spec (x : ascii) :
  class_i [One "e"; One "E"] x = (x =? "e") || (x =? "E").
Proof.
  by_ascii_cases x.
Qed.

Lemma class_calc_spec (x : ascii) : class_i calc_class x = isCalcChar x.
Proof.
  by_ascii_cases x.
Qed.

(** In the backward revision the class is the same without the dot. *)
Lemma class_calc_bwd_spec (x : ascii) :
  class_i Bwd.calc_class x = isCalcChar x && negb (x =? ".").
Proof.
  by_ascii_cases x.
Qed.

(** A literal word under [/i] matches the words that are equal to it up to
    the case of ASCII letters. *)
Lemma matches_word_i (w s : str) :
  w <> [] -> Forall (fun a => isUpper a = false) w ->
  matches (word_i w) s <-> map toLower s = w.
Proof.
  intros Hne Hw. revert s.
  induction Hw as [|a w Ha Hw IH]; intros s; [done |].
  destruct w as [|b w].
  - simpl. unfold chr_i. split.
    + intros (c & -> & Hc)%matches_sym_inv. rewrite class_one_spec in Hc by done.
      simpl. apply Ascii.eqb_eq in Hc. by rewrite Hc.
    + destruct s as [|c [|??]]; intros [= Hc]. constructor.
      rewrite class_one_spec by done. by apply Ascii.eqb_eq.
  - change (word_i (a :: b :: w)) with (Cat (chr_i a) (word_i (b :: w))).
    split.
    + intros (s1 & s2 & -> & H1 & H2)%matches_cat_inv.
      apply matches_sym_inv in H1 as (c & -> & Hc).
      rewrite class_one_spec in Hc by done. apply Ascii.eqb_eq in Hc.
      apply IH in H2; [|done]. simpl. by rewrite Hc, H2.
    + destruct s as [|c s]; intros [= Hc Hs].
      apply (MCat _ _ [c] s).
      * constructor. rewrite class_one_spec by done. by apply Ascii.eqb_eq.
      * by apply IH.
Qed.

Lemma toLower_close_paren (x : ascii) : (toLower x =? ")") = (x =? ")").
Proof.
  by_ascii_cases x.
Qed.

Lemma matches_close_paren (s : str) : matches (chr_i ")") s <-> s = [")"].
Proof.
  unfold chr_i. split.
  - intros (c & -> & Hc)%matches_sym_inv.
    rewrite class_one_spec, toLower_close_paren in Hc by done.
    apply Ascii.eqb_eq in Hc. by subst.
  - intros ->. constructor. reflexivity.
Qed.

Lemma matches_calc (cls : list class_item) (s : str) :
  matches (Cat (word_i (lit "calc(")) (Cat (Plus (Sym (class_i cls))) (chr_i ")"))) s
  <-> calcShape (class_i cls) s.
Proof.
  unfold calcShape. split.
  - intros (prefix & s1 & -> & Hp & H1)%matches_cat_inv.
    apply matches_cat_inv in H1 as (body & s2 & -> & Hb & Hc).
    apply matches_close_paren in Hc as ->.
    apply matches_word_i in Hp; [| done | by repeat constructor].
    apply matches_plus_sym in Hb as [Hne Hb].
    by exists prefix, body.
  - intros (prefix & body & -> & Hp & Hne & Hb).
    constructor.
    + apply matches_word_i; [done | by repeat constructor | done].
    + constructor; [by apply matches_plus_sym | by apply matches_close_paren].
Qed.

(** X28: a token passes [regexCssCalc] exactly when it is [calc(] in any
    letter case, then a non-empty run of digits, ASCII letters, spaces and
    [. + - * / ( )], then a closing parenthesis, over the whole token; such
    a token is a valid source size value; ["calc(1px"] is rejected,
    ["calc((5px + 5px)*2)"] and ["calc(200px * 1.4)"] are accepted. *)
Theorem calc_form_accepted_iff :
  (forall s : str,
     regex_test regexCssCalc s = true <-> calcShape isCalcChar s) /\
  (forall s : str,
     regex_test regexCssCalc s = true ->
     isValidNonNegativeSourceSizeValue s = true) /\
  regex_test regexCssCalc (lit "calc(1px") = false /\
  regex_test regexCssCalc (lit "calc((5px + 5px)*2)") = true /\
  regex_test regexCssCalc (lit "calc(200px * 1.4)") = true.
Proof.
  split; [|split; [|by vm_compute]].
  - intros s. rewrite regex_test_spec. unfold regexCssCalc.
    rewrite matches_calc. unfold calcShape.
    split; intros (prefix & body & ? & ? & ? & Hb); exists prefix, body;
      repeat split; try done;
      eapply Forall_impl; try exact Hb; intros c Hc; simpl in *;
      by rewrite ?class_calc_spec in *.
  - intros s Hs. unfold isValidNonNegativeSourceSizeValue. rewrite Hs.
    by destruct (_ && _).
Qed.

Lemma calc_form_accepted_iff_witness :
  isValidNonNegativeSourceSizeValue (lit "calc((5px + 5px)*2)") = true.
Proof.
  apply (proj1 (proj2 calc_form_accepted_iff)). by vm_compute.
Defined.

(** The backward revision's calc pattern accepts the same shape without
    dots, so it rejects ["calc(200px * 1.4)"]. *)
Lemma calc_form_bwd :
  (forall s : str,
     regex_test Bwd.regexCssCalc s = true <->
     calcShape (fun c => isCalcChar c && negb (c =? ".")) s) /\
  regex_test Bwd.regexCssCalc (lit "calc(200px * 1.4)") = false.
Proof.
  split; [|by vm_compute].
  intros s. rewrite regex_test_spec. unfold Bwd.regexCssCalc.
  rewrite matches_calc. unfold calcShape.
  split; intros (prefix & body & ? & ? & ? & Hb); exists prefix, body;
    repeat split; try done;
    eapply Forall_impl; try exact Hb; intros c Hc; simpl in *;
    by rewrite ?class_calc_bwd_spec in *.
Qed.

(** ** The length pattern *)

Lemma matches_sign (s : str) : matches (Opt re_sign) s <-> isSignStr s.
Proof.
  rewrite matches_opt. unfold re_sign, isSignStr. split.
  - intros [(c & -> & Hc)%matches_sym_inv | ->]; [|by left]. right.
    rewrite class_sign_spec in Hc.
    apply orb_true_iff in Hc as [Hc|Hc]; apply Ascii.eqb_eq in Hc; subst; auto.
  - intros [-> | [-> | ->]]; [by right | left | left]; by constructor.
Qed.

Lemma matches_digits_plus (s : str) :
  matches (Plus re_digit) s <-> s <> [] /\ isDigits s.
Proof.
  unfold re_digit, isDigits. rewrite matches_plus_sym.
  split; intros [? H]; (split; [done |]);
    eapply Forall_impl; try exact H; intros c Hc; simpl in *;
    by rewrite ?class_digit_spec in *.
Qed.

Lemma matches_digits_star (s : str) : matches (Star re_digit) s <-> isDigits s.
Proof.
  unfold re_digit, isDigits. rewrite matches_star_sym.
  split; intros H; eapply Forall_impl; try exact H; intros c Hc; simpl in *;
    by rewrite ?class_digit_spec in *.
Qed.

Lemma matches_dot (s : str) : matches (chr_i ".") s <-> s = ["."].
Proof.
  unfold chr_i. split.
  - intros (c & -> & Hc)%matches_sym_inv.
    assert (Hdot : forall x, (class_i [One "."] x) = (x =? ".")).
    { intros x. by_ascii_cases x. }
    rewrite Hdot in Hc. apply Ascii.eqb_eq in Hc. by subst.
  - intros ->. constructor. reflexivity.
Qed.

Lemma matches_mantissa (s : str) :
  matches (Alt (Cat (Opt re_sign) (Plus re_digit))
               (Cat (Star re_digit) (Cat (chr_i ".") (Plus re_digit)))) s
  <-> isMantissa s.
Proof.
  unfold isMantissa. split.
  - intros [H|H]%matches_alt_inv.
    + apply matches_cat_inv in H as (sg & ds & -> & Hs & Hd).
      apply matches_sign in Hs. apply matches_digits_plus in Hd as [? ?].
      left. by exists sg, ds.
    + apply matches_cat_inv in H as (ds1 & t & -> & H1 & H).
      apply matches_cat_inv in H as (d & ds2 & -> & Hd & H2).
      apply matches_dot in Hd as ->. apply matches_digits_star in H1.
      apply matches_digits_plus in H2 as [? ?].
      right. by exists ds1, ds2.
  - intros [(sg & ds & -> & Hs & Hne & Hd) | (ds1 & ds2 & -> & H1 & Hne & H2)].
    + apply MAltL. constructor; [by apply matches_sign | by apply matches_digits_plus].
    + apply MAltR. constructor; [by apply matches_digits_star |].
      apply (MCat _ _ ["."] ds2); [by apply matches_dot | by apply matches_digits_plus].
Qed.

Lemma matches_exponent (s : str) :
  matches (Opt (Cat (Sym (class_i [One "e"; One "E"]))
                    (Cat (Opt re_sign) (Plus re_digit)))) s
  <-> isExponent s.
Proof.
  rewrite matches_opt. unfold isExponent. split.
  - intros [H | ->]; [|by left]. right.
    apply matches_cat_inv in H as (e & t & -> & He & H).
    apply matches_cat_inv in H as (sg & ds & -> & Hs & Hd).
    apply matches_sym_inv in He as (c & -> & Hc).
    rewrite class_e_spec in Hc. apply matches_sign in Hs.
    apply matches_digits_plus in Hd as [? ?].
    exists c, sg, ds. repeat split; try done.
    apply orb_true_iff in Hc as [Hc|Hc]; apply Ascii.eqb_eq in Hc; auto.
  - intros [-> | (c & sg & ds & -> & Hc & Hs & Hne & Hd)]; [by right | left].
    apply (MCat _ _ [c] (sg ++ ds)).
    + constructor. rewrite class_e_spec. by destruct Hc as [-> | ->].
    + constructor; [by apply matches_sign | by apply matches_digits_plus].
Qed.

Lemma matches_alt_words (ws : list string) (u : str) :
  Forall (fun w => lit w <> [] /\ Forall (fun a => isUpper a = false) (lit w)) ws ->
  matches (alt_words ws) u <-> In (map toLower u) (map lit ws).
Proof.
  induction 1 as [|w ws [Hne Hw] Hws IH]; simpl.
  - split; [by intros ?%matches_void_inv | done].
  - destruct ws as [|w' ws].
    + rewrite matches_word_i by done. simpl. split; [auto | by intros [|[]]].
    + split.
      * intros [H|H]%matches_alt_inv.
        -- left. symmetry. by apply matches_word_i in H.
        -- right. by apply IH.
      * intros [H|H].
        -- apply MAltL. by apply matches_word_i.
        -- apply MAltR. by apply IH.
Qed.

Lemma matches_units (u : str) : matches (alt_words units) u <-> isUnit u.
Proof.
  apply matches_alt_words. unfold units.
  repeat (constructor; [split; [done | by repeat constructor] |]).
  constructor.
Qed.

(** The length pattern accepts exactly the tokens of [lengthShape]. *)
Lemma length_pattern_spec (s : str) :
  regex_test regexCssLengthWithUnits s = true <-> lengthShape s.
Proof.
  rewrite regex_test_spec. unfold regexCssLengthWithUnits, lengthShape. split.
  - intros (m & t & -> & Hm & H)%matches_cat_inv.
    apply matches_cat_inv in H as (e & u & -> & He & Hu).
    apply matches_mantissa in Hm. apply matches_exponent in He.
    apply matches_units in Hu. by exists m, e, u.
  - intros (m & e & u & -> & Hm & He & Hu).
    constructor; [by apply matches_mantissa |].
    constructor; [by apply matches_exponent | by apply matches_units].
Qed.

(** ** The sign of the parsed value *)

Module ParseFloatFacts.

Lemma takeDigits_app (ds r : str) :
  isDigits ds ->
  takeDigits (ds ++ r) = (ds ++ fst (takeDigits r), snd (takeDigits r)).
Proof.
  induction 1 as [|d ds Hd _ IH]; simpl; [by destruct (takeDigits r) |].
  by rewrite Hd, IH.
Qed.

Lemma startsWith_digit (d : ascii) (t : str) :
  isDigit d = true -> startsWith (lit "Infinity") (d :: t) = false.
Proof.
  intros Hd.
  destruct d as [[] [] [] [] [] [] [] []]; try discriminate Hd; reflexivity.
Qed.

Lemma readUnsigned_digits (neg : bool) (ds r : str) :
  isDigits ds -> ds <> [] -> exists m e, readUnsigned neg (ds ++ r) = Finite neg m e.
Proof.
  intros Hds Hne. unfold readUnsigned.
  destruct ds as [|d ds]; [done |].
  assert (Hinf : startsWith (lit "Infinity") ((d :: ds) ++ r) = false).
  { inversion Hds as [|?? Hd _]; subst. by apply startsWith_digit. }
  rewrite Hinf, takeDigits_app by done.
  destruct (snd (takeDigits r)) as [|c r1]; simpl; [eauto |].
  destruct (c =? ".") eqn:Hc.
  - apply Ascii.eqb_eq in Hc as ->.
    destruct (takeDigits r1) as [ds2 r3]. simpl. eauto.
  - assert (exists m e,
      match c with
      | "." =>
          let '(ds2, r3) := takeDigits r1 in
          match d :: ds ++ fst (takeDigits r), ds2 with
          | [], [] => NaN
          | _, _ =>
              Finite neg (digitsValue ((d :: ds ++ fst (takeDigits r)) ++ ds2))
                (readExponent r3 - Z.of_nat (length ds2))
          end
      | _ => Finite neg (digitsValue (d :: ds ++ fst (takeDigits r)))
               (readExponent (c :: r1))
      end = Finite neg m e) as H; [|exact H].
    destruct c as [[] [] [] [] [] [] [] []]; try discriminate Hc; eauto.
Qed.

Lemma readUnsigned_fraction (neg : bool) (ds1 ds2 r : str) :
  isDigits ds1 -> isDigits ds2 -> ds2 <> [] ->
  exists m e, readUnsigned neg (ds1 ++ "." :: ds2 ++ r) = Finite neg m e.
Proof.
  intros H1 H2 Hne. unfold readUnsigned.
  assert (Hinf : startsWith (lit "Infinity") (ds1 ++ "." :: ds2 ++ r) = false).
  { destruct ds1 as [|d ds1]; [done |]. inversion H1 as [|?? Hd _]; subst.
    by apply startsWith_digit. }
  rewrite Hinf, takeDigits_app by done. simpl. rewrite app_nil_r.
  rewrite takeDigits_app by done. simpl.
  destruct ds2 as [|d2 ds2]; [done |]. simpl.
  destruct ds1; eauto.
Qed.

(** A length token that does not start with a minus sign has a parsed value
    that is not negative. *)
Lemma ge0_without_minus (s : str) :
  lengthShape s -> head s <> Some "-" -> ge0 (parseFloat s) = true.
Proof.
  intros (m & e & u & -> & Hm & _ & _) Hhead.
  assert (Hfin : forall t : str,
    (exists ds r, t = ds ++ r /\ isDigits ds /\ ds <> []) \/
    (exists ds1 ds2 r, t = ds1 ++ "." :: ds2 ++ r /\ isDigits ds1 /\
                       isDigits ds2 /\ ds2 <> []) ->
    exists m e, readUnsigned false t = Finite false m e).
  { intros t [(ds & r & -> & ? & ?) | (ds1 & ds2 & r & -> & ? & ? & ?)];
      [by apply readUnsigned_digits | by apply readUnsigned_fraction]. }
  assert (Hstart : forall (t : str) d,
    head t = Some d -> isDigit d = true \/ d = "." ->
    parseFloat t = readUnsigned false t).
  { intros [|d' t] d [= ->] Hd. unfold parseFloat. simpl.
    destruct Hd as [Hd| ->]; [|done].
    destruct d as [[] [] [] [] [] [] [] []]; try discriminate Hd; done. }
  destruct Hm as [(sg & ds & -> & Hsg & Hne & Hds) |
                  (ds1 & ds2 & -> & H1 & Hne & H2)].
  - destruct Hsg as [-> | [-> | ->]]; [| |done].
    + simpl in *. destruct ds as [|d ds]; [done |].
      inversion Hds as [|?? Hd _]; subst.
      rewrite (Hstart _ d) by auto.
      destruct (Hfin ((d :: ds) ++ e ++ u)) as (m' & e' & ->); [|done].
      left. by exists (d :: ds), (e ++ u).
    + simpl. unfold parseFloat. simpl.
      destruct (Hfin (ds ++ e ++ u)) as (m' & e' & ->); [|done].
      left. by exists ds, (e ++ u).
  - rewrite <- !app_assoc. simpl.
    destruct (Hfin (ds1 ++ "." :: ds2 ++ e ++ u)) as (m' & e' & Hr).
    { right. by exists ds1, ds2, (e ++ u). }
    assert (parseFloat (ds1 ++ "." :: ds2 ++ e ++ u) =
            readUnsigned false (ds1 ++ "." :: ds2 ++ e ++ u)) as ->.
    { destruct ds1 as [|d ds1].
      - apply (Hstart _ "."); [done | by right].
      - inversion H1 as [|?? Hd _]; subst. apply (Hstart _ d); auto. }
    by rewrite Hr.
Qed.

(** So a length token that does not start with a minus sign is always
    accepted. *)
Lemma length_token_without_minus_accepted (s : str) :
  lengthShape s -> head s <> Some "-" ->
  isValidNonNegativeSourceSizeValue s = true.
Proof.
  intros Hs Hh. unfold isValidNonNegativeSourceSizeValue.
  rewrite (ge0_without_minus s Hs Hh). apply length_pattern_spec in Hs.
  by rewrite Hs.
Qed.

End ParseFloatFacts.

(** ** The scanning loop of the forward revision *)

Module FwdFacts.
Import Fwd.

Lemma step_advances (s : str) (st st' : state) :
  step s st = inl st' -> (pos st < length s /\ pos st < pos st')%nat.
Proof.
  unfold step. destruct (s !! pos st) as [c|] eqn:Hc; [|done].
  apply lookup_lt_Some in Hc. intros H. split; [done |].
  repeat match type of H with
         | context [if ?b then _ else _] => destruct b
         end;
    injection H as <-; unfold pushComponent, pushComponentArray;
    repeat match goal with
           | |- context [match ?x with _ => _ end] => destruct x
           end; simpl; lia.
Qed.

Lemma step_returns (s : str) (st : state) (r : list (list str)) :
  step s st = inr r ->
  s !! pos st = None /\ r = listArray (pushComponentArray (pushComponent st)).
Proof.
  unfold step. destruct (s !! pos st) as [c|]; [|by intros [= <-]].
  intros H.
  repeat match type of H with
         | context [if ?b then _ else _] => destruct b
         end; discriminate.
Qed.

(** An invariant of the loop holds of what it returns, and the loop does
    return: every turn moves [pos] forward. *)
Lemma loop_invariant (s : str) (P : state -> Prop) (Q : list (list str) -> Prop) :
  (forall st st', P st -> step s st = inl st' -> P st') ->
  (forall st r, P st -> step s st = inr r -> Q r) ->
  forall fuel st,
    P st -> (length s - pos st < fuel)%nat ->
    exists r, loop fuel s st = Some r /\ Q r.
Proof.
  intros Hstep Hret. induction fuel as [|fuel IH]; intros st HP Hfuel; [lia |].
  simpl. destruct (step s st) as [st'|r] eqn:Hs.
    + apply IH; [by eapply Hstep |]. apply step_advances in Hs. lia.
    + exists r. split; [done | by eapply Hret].
Qed.

Lemma run_invariant (s : str) (P : state -> Prop) (Q : list (list str) -> Prop) :
  (forall st st', P st -> step s st = inl st' -> P st') ->
  (forall st r, P st -> step s st = inr r -> Q r) ->
  forall st, P st -> exists r, run s st = Some r /\ Q r.
Proof.
  intros Hstep Hret st HP. unfold run.
  apply (loop_invariant s P Q); [done | done | done | lia].
Qed.

Lemma run_total (s : str) (st : state) : exists r, run s st = Some r.
Proof.
  destruct (run_invariant s (fun _ => True) (fun _ => True)) with (st := st)
    as (r & Hr & _); eauto.
Qed.

Lemma loop_more_fuel (s : str) (fuel fuel' : nat) (st : state) (r : list (list str)) :
  loop fuel s st = Some r -> (fuel <= fuel')%nat -> loop fuel' s st = Some r.
Proof.
  revert fuel' st. induction fuel as [|fuel IH]; intros fuel' st H Hle; [done |].
  destruct fuel' as [|fuel']; [lia |]. simpl in *.
  destruct (step s st); [|done]. apply IH; [done | lia].
Qed.

(** The loop from a state is the loop from its successor. *)
Lemma run_step (s : str) (st st' : state) :
  step s st = inl st' -> run s st = run s st'.
Proof.
  intros Hs. destruct (run_total s st') as [r Hr]. rewrite Hr.
  unfold run in *. simpl. rewrite Hs.
  apply step_advances in Hs.
  eapply loop_more_fuel; [exact Hr | lia].
Qed.

Lemma run_return (s : str) (st : state) :
  s !! pos st = None ->
  run s st = Some (listArray (pushComponentArray (pushComponent st))).
Proof. intros H. unfold run. simpl. unfold step. by rewrite H. Qed.

(** The tokenizer returns for every string. *)
Lemma parseComponentValues_total (s : str) :
  exists groups, parseComponentValues s = Some groups.
Proof. apply run_total. Qed.

End FwdFacts.

(** ** What the tokenizer puts in its output *)

Module FwdInv.
Import Fwd FwdFacts FwdSpec.

Lemma wf_init : wf init.
Proof. split; simpl; auto. Qed.

Lemma wf_pushComponent st : wf st -> wf (pushComponent st).
Proof.
  intros [H1 H2 H3 H4]. unfold pushComponent.
  destruct (component st) as [|c t] eqn:Hc; simpl; [by split; try rewrite Hc|].
  destruct H4 as [|H4]; [done |].
  split; simpl; auto. apply Forall_app. split; [done | by constructor].
Qed.

Lemma wf_pushComponentArray st : wf st -> wf (pushComponentArray st).
Proof.
  intros [H1 H2 H3 H4]. unfold pushComponentArray.
  destruct (componentArray st) as [|c0 ca] eqn:Hca; simpl; [by split; try rewrite Hca|].
  destruct (truthy c0); [|by split; try rewrite Hca].
  split; simpl; auto.
  - apply Forall_app. split; [done | by constructor].
  - apply Forall_app. split; [done | by constructor].
Qed.

Lemma wf_same st st' :
  component st' = component st -> componentArray st' = componentArray st ->
  listArray st' = listArray st -> wf st -> wf st'.
Proof. intros E1 E2 E3 [H1 H2 H3 H4]. split; by rewrite ?E1, ?E2, ?E3. Qed.

Lemma wf_append c st :
  c <> "," -> (component st = [] -> isSpace c = false) ->
  wf st -> wf (append c st).
Proof.
  intros Hc Hsp [H1 H2 H3 H4]. split; simpl; auto. right.
  destruct (component st) as [|c0 t] eqn:Hcomp; simpl.
  - split; [by apply Hsp | by constructor].
  - destruct H4 as [|[H4 H5]]; [done |]. split; [done |].
    apply (Forall_app _ (c0 :: t) [c]). split; [done | by constructor].
Qed.

Lemma truthy_false (t : str) : truthy t = false -> t = [].
Proof. by destruct t. Qed.

Lemma wf_step s st st' : wf st -> step s st = inl st' -> wf st'.
Proof.
  intros Hwf. unfold step.
  destruct (s !! pos st) as [c|]; [|done].
  destruct (inComment st).
  { destruct (_ && _); intros [= <-].
    - apply wf_pushComponent. by apply (wf_same st).
    - by apply (wf_same st). }
  destruct (isSpace c) eqn:Hsp.
  { destruct (_ || _) eqn:Hor; [intros [= <-]; by apply (wf_same st) |].
    apply orb_false_iff in Hor as [_ Ht]. apply negb_false_iff in Ht.
    destruct (_ =? _)%Z; intros [= <-].
    - eapply wf_same; [..| by apply wf_pushComponent]; done.
    - eapply wf_same; [..| apply (wf_append " "); [done | | done]]; try done.
      intros Hc. by rewrite Hc in Ht. }
  destruct (c =? "(") eqn:H1.
  { intros [= <-]. apply Ascii.eqb_eq in H1 as ->.
    eapply wf_same; [..| apply (wf_append "("); [done | done |]]; try done.
    by apply (wf_same st). }
  destruct (c =? ")") eqn:H2.
  { intros [= <-]. apply Ascii.eqb_eq in H2 as ->.
    eapply wf_same; [..| apply (wf_append ")"); [done | done |]]; try done.
    by apply (wf_same st). }
  destruct (c =? ",") eqn:H3.
  { intros [= <-].
    eapply wf_same; [..| by apply wf_pushComponentArray, wf_pushComponent]; done. }
  apply Ascii.eqb_neq in H3.
  destruct (_ && _); intros [= <-].
  - by apply (wf_same st).
  - eapply wf_same; [..| by apply (wf_append c)]; done.
Qed.

Lemma flat_pushComponent st : flat (pushComponent st) = flat st.
Proof.
  unfold pushComponent, flat. destruct (truthy (component st)); [|done]. simpl.
  rewrite concat_app. simpl. by rewrite !app_nil_r.
Qed.

Lemma flat_pushComponentArray st : flat (pushComponentArray st) = flat st.
Proof.
  unfold pushComponentArray, flat.
  destruct (componentArray st !! 0%nat); [|done]. destruct (truthy _); [|done].
  simpl. rewrite !concat_app. simpl. by rewrite app_nil_r, <- app_assoc.
Qed.

Lemma pos_pushComponent st : pos (pushComponent st) = pos st.
Proof. unfold pushComponent. by destruct (truthy _). Qed.

Lemma pos_pushComponentArray st : pos (pushComponentArray st) = pos st.
Proof.
  unfold pushComponentArray. destruct (_ !! _); [|done]. by destruct (truthy _).
Qed.

Lemma sublist_map {A B} (f : A -> B) (l1 l2 : list A) :
  l1 `sublist_of` l2 -> map f l1 `sublist_of` map f l2.
Proof. induction 1; simpl; by constructor. Qed.

Lemma take_sublist_mono (s : str) (n m : nat) :
  (n <= m)%nat -> map normSpace (take n s) `sublist_of` map normSpace (take m s).
Proof.
  intros Hle. replace m with (n + (m - n))%nat by lia.
  rewrite <- take_take_drop, map_app. by apply sublist_inserts_r.
Qed.

(** Keeping the character just read, and moving past it. *)
Lemma ordered_keep s st st' c0 :
  s !! pos st = Some c0 ->
  flat st' = flat st ++ [normSpace c0] -> pos st' = S (pos st) ->
  ordered s st -> ordered s st'.
Proof.
  unfold ordered. intros Hc Hf Hp H. rewrite Hf, Hp.
  rewrite (take_S_r _ _ _ Hc), map_app. simpl.
  apply sublist_app; [done | by apply sublist_skip].
Qed.

(** Moving on without keeping anything. *)
Lemma ordered_skip s st st' :
  flat st' = flat st -> (pos st <= pos st')%nat -> ordered s st -> ordered s st'.
Proof.
  unfold ordered. intros Hf Hp H. rewrite Hf.
  etrans; [exact H | by apply take_sublist_mono].
Qed.

Lemma flat_append c st : flat (append c st) = flat st ++ [c].
Proof. unfold flat. simpl. by rewrite !app_assoc. Qed.

Lemma ordered_step s st st' : ordered s st -> step s st = inl st' -> ordered s st'.
Proof.
  intros Hord. unfold step.
  destruct (s !! pos st) as [c|] eqn:Hc; [|done].
  destruct (inComment st).
  { destruct (_ && _); intros [= <-].
    - apply (ordered_skip s st); [by rewrite flat_pushComponent | | done].
      rewrite pos_pushComponent. simpl. lia.
    - apply (ordered_skip s st); [done | simpl; lia | done]. }
  destruct (isSpace c) eqn:Hsp.
  { destruct (_ || _); [intros [= <-]; apply (ordered_skip s st); [done | simpl; lia | done] |].
    destruct (_ =? _)%Z; intros [= <-].
    - apply (ordered_skip s st); [| | done].
      + unfold flat. simpl. apply flat_pushComponent.
      + simpl. rewrite pos_pushComponent. lia.
    - apply (ordered_keep s st _ c); [done | | simpl; lia | done].
      unfold normSpace. rewrite Hsp. unfold flat. simpl. by rewrite !app_assoc. }
  assert (Hn : normSpace c = c) by (unfold normSpace; by rewrite Hsp).
  destruct (c =? "(").
  { intros [= <-]. apply (ordered_keep s st _ c); [done | | simpl; lia | done].
    rewrite Hn. unfold flat. simpl. by rewrite !app_assoc. }
  destruct (c =? ")").
  { intros [= <-]. apply (ordered_keep s st _ c); [done | | simpl; lia | done].
    rewrite Hn. unfold flat. simpl. by rewrite !app_assoc. }
  destruct (c =? ",").
  { intros [= <-]. apply (ordered_skip s st); [| | done].
    - unfold flat. simpl.
      change (flat (pushComponentArray (pushComponent st)) = flat st).
      by rewrite flat_pushComponentArray, flat_pushComponent.
    - simpl. rewrite pos_pushComponentArray, pos_pushComponent. lia. }
  destruct (_ && _); intros [= <-].
  - apply (ordered_skip s st); [done | simpl; lia | done].
  - apply (ordered_keep s st _ c); [done | | simpl; lia | done].
    rewrite Hn. unfold flat. simpl. by rewrite !app_assoc.
Qed.

Lemma ordered_init s : ordered s init.
Proof. unfold ordered. simpl. apply sublist_nil_l. Qed.

End FwdInv.

Module FwdTokens.
Import Fwd FwdFacts FwdSpec FwdInv.

Lemma reachable_wf s st : reachable s st -> wf st.
Proof. induction 1; [apply wf_init | by eapply wf_step]. Qed.

Lemma tokenOK_not_blank t :
  tokenOK t -> t <> [] /\ forallb isSpace t = false /\ ~ In "," t.
Proof.
  intros [Hh Hc]. destruct t as [|c t]; [done |].
  repeat split; [done | simpl; by rewrite Hh |].
  intros Hin. rewrite Forall_forall in Hc. apply list_elem_of_In in Hin.
  by apply (Hc ",").
Qed.

(** What flushing the token and the group does to a well-shaped state. *)
Lemma flush_spec st :
  wf st ->
  let st' := pushComponentArray (pushComponent st) in
  component st' = [] /\ componentArray st' = [] /\
  listArray st' = listArray st ++ groupIfAny (pendingGroup st) /\
  parenDepth st' = parenDepth st /\ pos st' = pos st /\
  inComment st' = inComment st.
Proof.
  intros [_ _ H3 H4]. unfold pendingGroup, pushComponentArray, pushComponent.
  destruct (component st) as [|c t] eqn:Hc; simpl.
  - rewrite app_nil_r. destruct (componentArray st) as [|c0 ca] eqn:Hca; simpl.
    + rewrite app_nil_r. by rewrite Hc, Hca.
    + inversion H3 as [|?? [Hh _] _]; subst.
      destruct c0; [done |]. simpl. by rewrite Hc.
  - destruct (componentArray st) as [|c0 ca] eqn:Hca; simpl; [done |].
    inversion H3 as [|?? [Hh _] _]; subst. by destruct c0.
Qed.

(** For every input the tokenizer returns groups none of which is empty,
    whose tokens are neither empty nor made of white space only and hold no
    comma, and whose characters are, in order, characters of the input
    (white space read as a plain space). *)
Lemma output_invariants (s : str) :
  exists groups,
    parseComponentValues s = Some groups /\
    Forall (fun g => g <> []) groups /\
    Forall (Forall (fun t => t <> [] /\ forallb isSpace t = false /\ ~ In "," t))
           groups /\
    concat (concat groups) `sublist_of` map normSpace s.
Proof.
  destruct (run_invariant s
    (fun st => wf st /\ ordered s st)
    (fun r => Forall (fun g => g <> []) r /\ Forall (Forall tokenOK) r /\
              concat (concat r) `sublist_of` map normSpace s))
    with (st := init) as (groups & Hrun & H1 & H2 & H3).
  - intros st st' [Hwf Hord] Hstep.
    split; [by eapply wf_step | by eapply ordered_step].
  - intros st r [Hwf Hord] Hret.
    apply step_returns in Hret as [_ ->].
    pose proof (wf_pushComponentArray _ (wf_pushComponent _ Hwf))
      as [H1 H2 _ _].
    split; [done |]. split; [done |].
    unfold ordered in Hord.
    rewrite <- (flat_pushComponent st),
      <- (flat_pushComponentArray (pushComponent st)) in Hord.
    etrans; [|etrans; [exact Hord |]].
    + unfold flat. by apply sublist_inserts_r.
    + apply sublist_map, sublist_take.
  - split; [apply wf_init | apply ordered_init].
  - exists groups. repeat split; try done.
    eapply Forall_impl; [exact H2 |]. intros g Hg.
    eapply Forall_impl; [exact Hg |]. intros t Ht.
    by apply tokenOK_not_blank.
Qed.

End FwdTokens.

(** ** Comments *)

Module FwdComments.
Import Fwd FwdFacts.

Lemma lookup_first (pre : str) x rest :
  (pre ++ x :: rest) !! length pre = Some x.
Proof. by apply list_lookup_middle. Qed.

Lemma lookup_second (pre : str) x rest :
  (pre ++ x :: rest) !! (length pre + 1)%nat = head rest.
Proof.
  rewrite lookup_app_r by lia.
  replace (length pre + 1 - length pre)%nat with 1%nat by lia.
  by destruct rest.
Qed.

Lemma head_app_cons (b : str) x t : head (b ++ x :: t) = head (b ++ [x]).
Proof. by destruct b. Qed.

Lemma finish_atPos p b st : finish (atPos p b st) = finish st.
Proof.
  unfold finish, atPos, pushComponentArray, pushComponent. simpl.
  destruct (truthy (component st)); simpl.
  - destruct (_ !! _); [|done]. by destruct (truthy _).
  - destruct (_ !! _); [|done]. by destruct (truthy _).
Qed.

Lemma advance_atPos n st : advance n st = atPos (pos st + n) (inComment st) st.
Proof. done. Qed.

(** Inside a comment, up to and including the first [*/]. *)
Lemma skip_comment body : forall pre post st,
  inComment st = true -> pos st = length pre ->
  hasClose (body ++ ["*"]) = false ->
  run (pre ++ body ++ "*" :: "/" :: post) st =
  run (pre ++ body ++ "*" :: "/" :: post)
      (pushComponent (atPos (length pre + length body + 2) false st)).
Proof.
  induction body as [|c b IH]; intros pre post st Hin Hpos Hclose.
  - simpl. apply run_step. unfold step.
    rewrite Hpos, lookup_first, lookup_second, Hin. simpl.
    do 2 f_equal. unfold atPos, advance, setInComment. simpl. f_equal. lia.
  - simpl in Hclose. apply orb_false_iff in Hclose as [Hc Hclose].
    etrans; [apply (run_step _ _ (advance 1 st))|].
    + unfold step. simpl. rewrite Hpos, lookup_first, lookup_second, Hin.
      by rewrite head_app_cons, Hc.
    + replace (pre ++ (c :: b) ++ "*" :: "/" :: post)
        with ((pre ++ [c]) ++ b ++ "*" :: "/" :: post)
        by (by rewrite <- app_assoc).
      rewrite (IH (pre ++ [c]) post (advance 1 st)); [| done | | done].
      * do 2 f_equal. unfold atPos, advance. simpl. f_equal.
        rewrite length_app. simpl. lia.
      * simpl. rewrite length_app. simpl. lia.
Qed.

(** Inside a comment that is never closed, up to the end of the string. *)
Lemma skip_open_comment body : forall pre st,
  inComment st = true -> pos st = length pre ->
  hasClose body = false ->
  run (pre ++ body) st = Some (finish st).
Proof.
  induction body as [|c b IH]; intros pre st Hin Hpos Hclose.
  - apply run_return. rewrite app_nil_r, Hpos. by apply lookup_ge_None.
  - simpl in Hclose. apply orb_false_iff in Hclose as [Hc Hclose].
    etrans; [apply (run_step _ _ (advance 1 st))|].
    + unfold step. rewrite Hpos, lookup_first, lookup_second, Hin.
      by rewrite Hc.
    + replace (pre ++ c :: b) with ((pre ++ [c]) ++ b)
        by (by rewrite <- app_assoc).
      rewrite (IH (pre ++ [c]) (advance 1 st)); [| done | | done].
      * by rewrite advance_atPos, finish_atPos.
      * simpl. rewrite length_app. simpl. lia.
Qed.

(** Outside a comment, [/*] opens one. *)
Lemma open_comment pre rest st :
  inComment st = false -> pos st = length pre ->
  step (pre ++ "/" :: "*" :: rest) st =
  inl (atPos (length pre + 2) true st).
Proof.
  intros Hin Hpos. unfold step.
  rewrite Hpos, lookup_first, lookup_second, Hin. simpl.
  f_equal. unfold atPos, advance, setInComment. simpl. by rewrite Hpos.
Qed.

End FwdComments.

(** X27: a comment is dropped whole and ends the current token: from any
    state outside a comment, scanning [/*], a body with no earlier [*/],
    and [*/] leaves the buffers as they were, with the current token
    flushed, at the character after the comment; a comment that is never
    closed takes the rest of the input; so ["1/* */px"] gives the two tokens
    ["1"] and ["px"], and [parseSizes("/* */1px/* */")] returns ["1px"]. *)
Theorem comments_discarded :
  (forall (pre body post : str) (st : Fwd.state),
     Fwd.inComment st = false -> Fwd.pos st = length pre ->
     hasClose (body ++ ["*"]) = false ->
     let s := pre ++ lit "/*" ++ body ++ lit "*/" ++ post in
     let st' := Fwd.pushComponent
                  (atPos (length pre + 2 + length body + 2) false st) in
     Fwd.run s st = Fwd.run s st' /\
     Fwd.component st' = [] /\ Fwd.componentArray st' = pendingGroup st /\
     Fwd.listArray st' = Fwd.listArray st) /\
  (forall (pre body : str) (st : Fwd.state),
     Fwd.inComment st = false -> Fwd.pos st = length pre ->
     hasClose body = false ->
     Fwd.run (pre ++ lit "/*" ++ body) st = Some (finish st)) /\
  Fwd.parseComponentValues (lit "1/* */px") = Some [[lit "1"; lit "px"]] /\
  (forall h : host,
     Fwd.parseSizes h (VString (lit "/* */1px/* */")) =
     Returned (VString (lit "1px")) []).
Proof.
  split; [|split; [|split; [by vm_compute | by intros h; vm_compute]]].
  - intros pre body post st Hin Hpos Hclose s st'. split.
    + unfold s, st'. simpl.
      etrans; [apply FwdFacts.run_step, FwdComments.open_comment; done |].
      pose proof (FwdComments.skip_comment body (pre ++ ["/"; "*"]) post
                    (atPos (length pre + 2) true st)) as H.
      rewrite <- !app_assoc in H. simpl in H.
      rewrite H; [| done | by rewrite length_app | done].
      rewrite length_app. reflexivity.
    + unfold st', pendingGroup, Fwd.pushComponent, atPos. simpl.
      destruct (truthy (Fwd.component st)) eqn:Ht; simpl; [done |].
      rewrite app_nil_r. by apply FwdInv.truthy_false in Ht.
  - intros pre body st Hin Hpos Hclose. simpl.
    etrans; [apply FwdFacts.run_step, FwdComments.open_comment; done |].
    pose proof (FwdComments.skip_open_comment body (pre ++ ["/"; "*"])
                  (atPos (length pre + 2) true st)) as H.
    rewrite <- !app_assoc in H. simpl in H.
    rewrite H; [| done | by rewrite length_app | done].
    by rewrite FwdComments.finish_atPos.
Qed.

Lemma comments_discarded_witness :
  Fwd.run (lit "1/* */px") (Fwd.mkState (lit "1") [] [] 0 1 false) =
  Fwd.run (lit "1/* */px") (Fwd.mkState [] [lit "1"] [] 0 6 false) /\
  Fwd.run (lit "1px/* 50vw") (Fwd.mkState (lit "1px") [] [] 0 3 false) =
  Some [[lit "1px"]].
Proof.
  split.
  - apply (proj1 (proj1 comments_discarded (lit "1") (lit " ") (lit "px")
                    (Fwd.mkState (lit "1") [] [] 0 1 false)
                    eq_refl eq_refl eq_refl)).
  - apply (proj1 (proj2 comments_discarded) (lit "1px") (lit " 50vw")
             (Fwd.mkState (lit "1px") [] [] 0 3 false)
             eq_refl eq_refl eq_refl).
Defined.

(** ** The selection loop of the forward revision *)

Module FwdSelect.
Import Fwd.

(** With a console, a group whose last token is not a valid size is
    logged and skipped. *)
Lemma forEach_skips_invalid (h : host) (strValue : str) (size : value)
    (log : list str) (g : list str) (rest : list (list str)) :
  console h = true -> validLast (last g) = false ->
  forEach h strValue size log (g :: rest) =
  forEach h strValue size (log ++ [parseErrorMessage strValue]) rest.
Proof. intros Hc Hv. simpl. by rewrite Hv, Hc. Qed.

(** With a console, the value returned is the default or the valid last
    token of a group. *)
Lemma forEach_result (h : host) (strValue : str) (groups : list (list str)) :
  console h = true ->
  forall (size : value) (log : list str),
    let v := fst (forEach h strValue size log groups) in
    v = VString (lit "100vw") \/
    exists g tok,
      In g groups /\ last g = Some tok /\
      isValidNonNegativeSourceSizeValue tok = true /\ v = VString tok.
Proof.
  intros Hc. induction groups as [|g rest IH]; intros size log; [by left |].
  assert (Hrest : forall size log,
    let v := fst (forEach h strValue size log rest) in
    v = VString (lit "100vw") \/
    exists g' tok,
      In g' (g :: rest) /\ last g' = Some tok /\
      isValidNonNegativeSourceSizeValue tok = true /\ v = VString tok).
  { intros size' log'. destruct (IH size' log') as [H|(g' & tok & Hin & H)];
      [by left | right]. exists g', tok. split; [by right | done]. }
  simpl. destruct (validLast (last g)) eqn:Hv.
  - destruct (last g) as [tok|] eqn:Hl; [|done]. simpl in Hv.
    assert (Hhere : exists g' tok',
      In g' (g :: rest) /\ last g' = Some tok' /\
      isValidNonNegativeSourceSizeValue tok' = true /\ VString tok = VString tok').
    { exists g, tok. split; [by left | done]. }
    destruct (length (removelast g) =? 0)%nat; [by right |].
    destruct (matchMedia h _); simpl; [by right | apply Hrest].
  - rewrite Hc. apply Hrest.
Qed.

(** With a console, when no group ends in a valid size the default is
    returned. *)
Lemma forEach_default (h : host) (strValue : str) (groups : list (list str)) :
  console h = true ->
  Forall (fun g => validLast (last g) = false) groups ->
  forall (size : value) (log : list str),
    fst (forEach h strValue size log groups) = VString (lit "100vw").
Proof.
  intros Hc. induction 1 as [|g rest Hg _ IH]; intros size log; [done |].
  rewrite forEach_skips_invalid by done. apply IH.
Qed.

(** The groups before the first unconditional size decide whether the loop
    gets to it; the groups after it are never looked at. *)
Lemma forEach_stops (h : host) (strValue : str) (tok : str)
    (before rest : list (list str)) :
  isValidNonNegativeSourceSizeValue tok = true ->
  forall (size : value) (log : list str),
    fst (forEach h strValue size log (before ++ [tok] :: rest)) =
    fst (forEach h strValue size log (before ++ [[tok]])).
Proof.
  intros Hv. induction before as [|g before IH]; intros size log.
  - simpl. by rewrite Hv.
  - simpl. destruct (validLast (last g)).
    + destruct (length (removelast g) =? 0)%nat; [done |].
      destruct (matchMedia h _); simpl; [done | apply IH].
    + destruct (console h); [apply IH |].
      destruct (length g =? 0)%nat; [done |].
      destruct (matchMedia h _); simpl; [done | apply IH].
Qed.

End FwdSelect.

(** X29: when the loop comes to a group that is a single valid size, at
    whatever index and with whatever [size] and log it has by then, it
    returns that size at once; when groups remain after it and the host has
    a console, one parse error is logged; the groups after it have no part
    in the value returned. *)
Theorem unconditional_size_returned (h : host) (strValue tok : str)
    (size : value) (log : list str) (before rest : list (list str)) :
  isValidNonNegativeSourceSizeValue tok = true ->
  Fwd.forEach h strValue size log ([tok] :: rest) =
    (VString tok,
     if negb (length rest =? 0)%nat && console h
     then log ++ [parseErrorMessage strValue] else log) /\
  fst (Fwd.forEach h strValue size log (before ++ [tok] :: rest)) =
  fst (Fwd.forEach h strValue size log (before ++ [[tok]])).
Proof.
  intros Hv. split; [|by apply FwdSelect.forEach_stops].
  simpl. by rewrite Hv.
Qed.

Lemma unconditional_size_returned_witness :
  isValidNonNegativeSourceSizeValue (lit "25vw") = true /\
  Fwd.forEach (mkHost true (fun _ => false)) (lit "25vw, 1px") VUndefined []
              [[lit "25vw"]; [lit "1px"]] =
  (VString (lit "25vw"), [lit "Parse error: 25vw, 1px"]).
Proof.
  split; [by vm_compute |].
  apply (proj1 (unconditional_size_returned (mkHost true (fun _ => false))
                  (lit "25vw, 1px") (lit "25vw") VUndefined [] []
                  [[lit "1px"]] ltac:(by vm_compute))).
Defined.

(** ** Whole calls of the forward revision *)

Module FwdCalls.
Import Fwd.

(** With a console, [parseSizes] returns the default or the valid last
    token of one of the groups of its input. *)
Lemma parseSizes_result_with_console (h : host) (s : str) :
  console h = true ->
  exists groups v log,
    parseComponentValues s = Some groups /\
    parseSizes h (VString s) = Returned v log /\
    (v = VString (lit "100vw") \/
     exists g tok,
       In g groups /\ last g = Some tok /\
       isValidNonNegativeSourceSizeValue tok = true /\ v = VString tok).
Proof.
  intros Hc. destruct (FwdFacts.parseComponentValues_total s) as [groups Hg].
  pose proof (FwdSelect.forEach_result h s groups Hc VUndefined []) as H.
  unfold parseSizes. rewrite Hg.
  destruct (forEach h s VUndefined [] groups) as [v log]. simpl in H.
  by exists groups, v, log.
Qed.

(** With a console, an input none of whose groups ends in a valid size
    gives the default. *)
Lemma parseSizes_default_with_console (h : host) (s : str) :
  console h = true ->
  exists groups log,
    parseComponentValues s = Some groups /\
    (Forall (fun g => validLast (last g) = false) groups ->
     parseSizes h (VString s) = Returned (VString (lit "100vw")) log).
Proof.
  intros Hc. destruct (FwdFacts.parseComponentValues_total s) as [groups Hg].
  exists groups, (snd (forEach h s VUndefined [] groups)).
  split; [done |]. intros Hall.
  pose proof (FwdSelect.forEach_default h s groups Hc Hall VUndefined []) as H.
  unfold parseSizes. rewrite Hg.
  destruct (forEach h s VUndefined [] groups) as [v log]. simpl in *. by subst.
Qed.

(** A string input never throws and never exhausts the loop. *)
Lemma parseSizes_returns (h : host) (s : str) :
  exists v log, parseSizes h (VString s) = Returned v log.
Proof.
  destruct (FwdFacts.parseComponentValues_total s) as [groups Hg].
  unfold parseSizes. rewrite Hg.
  destruct (forEach h s VUndefined [] groups) as [v log]. by exists v, log.
Qed.

End FwdCalls.

Module BwdCalls.
Import Bwd.

(** The backward revision returns the default or a token its validator
    accepts, with or without a console. *)
Lemma bwd_forEach_result (h : host) (all : list str) (pieces : list str) :
  forall log : list str,
    let v := fst (forEach h all log pieces) in
    v = VString (lit "100vw") \/
    exists tok, isValidNonNegativeSourceSizeValue tok = true /\ v = VString tok.
Proof.
  induction pieces as [|p rest IH]; intros log; [by left |].
  simpl. destruct (truthy (trimTrailingSpace p)); simpl; [|apply IH].
  destruct (isValidNonNegativeSourceSizeValue _) eqn:Hv; [|apply IH].
  destruct (truthy (trimTrailingSpace _)); simpl; [|right; eauto].
  destruct (matchMedia h _); simpl; [right; eauto | apply IH].
Qed.

Lemma bwd_parseSizes_returns (h : host) (s : str) :
  exists v log, parseSizes h (VString s) = Returned v log.
Proof.
  unfold parseSizes.
  destruct (forEach h (split s) [] (split s)) as [v log]. by exists v, log.
Qed.

End BwdCalls.

(** ** Where the two revisions agree *)

Module Agreement.

Lemma hasOpen_lookup (s : str) : forall p : nat,
  hasOpen s = false -> s !! p = Some "/" ->
  is_char (s !! (p + 1)%nat) "*" = false.
Proof.
  induction s as [|c s IH]; intros p Ho Hp; [done |].
  simpl in Ho. apply orb_false_iff in Ho as [Hc Ho].
  destruct p as [|p]; simpl in *.
  - injection Hp as ->. simpl in Hc. by destruct s.
  - by apply IH.
Qed.

(** The forward tokenizer keeps a single component value whole. *)
Lemma fwd_single_token (s : str) :
  singleToken s -> s <> [] -> Fwd.parseComponentValues s = Some [[s]].
Proof.
  intros [Hall Ho] Hne.
  destruct (FwdFacts.run_invariant s
    (fun st => Fwd.component st = take (Fwd.pos st) s /\
               Fwd.componentArray st = [] /\ Fwd.listArray st = [] /\
               Fwd.inComment st = false)
    (fun r => r = [[s]])) with (st := Fwd.init) as (r & Hr & ->); [| | done | done].
  - intros st st' (Hc & Hca & Hla & Hin). unfold Fwd.step.
    destruct (s !! Fwd.pos st) as [c|] eqn:Hl; [|done].
    rewrite Hin.
    rewrite Forall_lookup in Hall. destruct (Hall _ _ Hl) as [Hsp Hcomma].
    rewrite Hsp. apply Ascii.eqb_neq in Hcomma. rewrite Hcomma.
    assert (Hkeep : forall d,
      let st' := Fwd.advance 1 (Fwd.append c (Fwd.addDepth d st)) in
      Fwd.component st' = take (Fwd.pos st') s /\
      Fwd.componentArray st' = [] /\ Fwd.listArray st' = [] /\
      Fwd.inComment st' = false).
    { intros d. simpl. repeat split; try done.
      rewrite Hc. replace (Fwd.pos st + 1)%nat with (S (Fwd.pos st)) by lia.
      by rewrite (take_S_r _ _ _ Hl). }
    destruct (c =? "("); [intros [= <-]; apply Hkeep |].
    destruct (c =? ")"); [intros [= <-]; apply Hkeep |].
    destruct (c =? "/") eqn:Hsl; simpl.
    + apply Ascii.eqb_eq in Hsl as ->.
      rewrite (hasOpen_lookup s _ Ho Hl). intros [= <-].
      apply (Hkeep 0%Z).
    + intros [= <-]. apply (Hkeep 0%Z).
  - intros st r (Hc & Hca & Hla & Hin) Hret.
    apply FwdFacts.step_returns in Hret as [Hend ->].
    apply lookup_ge_None in Hend. rewrite take_ge in Hc by done.
    unfold Fwd.pushComponentArray, Fwd.pushComponent. rewrite Hc.
    destruct s as [|c s]; [done |]. simpl. rewrite Hca. simpl. by rewrite Hla.
Qed.

Lemma split_no_comma (s : str) :
  Forall (fun c => isSpace c = false /\ c <> ",") s -> Bwd.split s = [s].
Proof.
  induction 1 as [|c s [_ Hc] _ IH]; [done |].
  simpl. apply Ascii.eqb_neq in Hc. by rewrite Hc, IH.
Qed.

Lemma trimTrailing_no_space (s : str) :
  Forall (fun c => isSpace c = false /\ c <> ",") s ->
  Bwd.trimTrailingSpace s = s.
Proof.
  intros Hall. unfold Bwd.trimTrailingSpace.
  assert (Bwd.trimTrailingEnd s (length s) = length s) as ->; [|apply firstn_all].
  destruct (length s) as [|j] eqn:Hlen; [done |]. simpl.
  destruct (s !! j) as [c|] eqn:Hl.
  - rewrite Forall_lookup in Hall. destruct (Hall _ _ Hl) as [Hsp _].
    simpl. by rewrite Hsp.
  - apply lookup_ge_None in Hl. lia.
Qed.

(** The backward scan of a string without white space takes all of it. *)
Lemma scanBack_no_space (s : str) :
  Forall (fun c => isSpace c = false /\ c <> ",") s ->
  forall (n : nat) (component : str) (parenDepth : Z),
    (n <= length s)%nat ->
    Bwd.scanBack s n component parenDepth = take n s ++ component.
Proof.
  intros Hall. induction n as [|p IH]; intros component d Hn; [done |].
  simpl. destruct (s !! p) as [c|] eqn:Hl.
  - rewrite Forall_lookup in Hall. destruct (Hall _ _ Hl) as [Hsp _].
    rewrite Hsp, (take_S_r _ _ _ Hl), <- app_assoc. simpl.
    destruct (c =? ")"); [apply IH; lia |].
    destruct (c =? "("); apply IH; lia.
  - apply lookup_ge_None in Hl. lia.
Qed.

Lemma bwd_single_token (s : str) :
  singleToken s -> Bwd.getLastComponentValue s = s.
Proof.
  intros [Hall _]. unfold Bwd.getLastComponentValue.
  rewrite scanBack_no_space by done. by rewrite firstn_all, app_nil_r.
Qed.

(** The two calc patterns agree on tokens without a dot, and so do the two
    validators. *)
Lemma validators_agree_without_dot (s : str) :
  ~ In "." s ->
  isValidNonNegativeSourceSizeValue s = Bwd.isValidNonNegativeSourceSizeValue s.
Proof.
  intros Hdot.
  assert (Hcalc : regex_test regexCssCalc s = regex_test Bwd.regexCssCalc s).
  { apply eq_true_iff_eq.
    rewrite !regex_test_spec. unfold regexCssCalc, Bwd.regexCssCalc.
    rewrite !matches_calc. unfold calcShape.
    split; intros (prefix & body & -> & ? & ? & Hb); exists prefix, body;
      repeat split; try done;
      apply Forall_forall; intros c Hc; rewrite Forall_forall in Hb;
      specialize (Hb c Hc); simpl in *;
      rewrite class_calc_spec, class_calc_bwd_spec in *.
    - rewrite Hb. simpl. apply negb_true_iff, Ascii.eqb_neq. intros ->.
      apply Hdot. apply list_elem_of_In in Hc.
      apply in_or_app. right. apply in_or_app. by left.
    - by apply andb_true_iff in Hb as [Hb _]. }
  unfold isValidNonNegativeSourceSizeValue, Bwd.isValidNonNegativeSourceSizeValue.
  rewrite Hcalc. destruct (_ && _); [done |].
  destruct (regex_test Bwd.regexCssCalc s); [done |]. simpl.
  by destruct (_ || _).
Qed.

(** On a single component value that the two validators treat alike, the
    two revisions return the same value, provided the forward revision has
    a console or the token is valid. *)
Lemma revisions_agree_on_single_token (h : host) (s : str) :
  singleToken s ->
  isValidNonNegativeSourceSizeValue s = Bwd.isValidNonNegativeSourceSizeValue s ->
  console h = true \/ isValidNonNegativeSourceSizeValue s = true ->
  returnedValue (Fwd.parseSizes h (VString s)) =
  returnedValue (Bwd.parseSizes h (VString s)).
Proof.
  intros Hs Hv Hc. destruct s as [|c0 s0]; [done |].
  set (s := c0 :: s0) in *.
  unfold Fwd.parseSizes, Bwd.parseSizes.
  rewrite (fwd_single_token s Hs) by done.
  rewrite (split_no_comma s) by apply Hs.
  cbn [Fwd.forEach Bwd.forEach last Fwd.validLast Fwd.readValue].
  rewrite (trimTrailing_no_space s) by apply Hs.
  rewrite (bwd_single_token s Hs), <- Hv.
  change (truthy s) with true. cbn [negb].
  destruct (isValidNonNegativeSourceSizeValue s) eqn:Hvalid.
  - rewrite Nat.sub_diag. by cbn.
  - destruct Hc as [Hc|Hc]; [|done]. by rewrite Hc.
Qed.

(** The backward revision returns the size of a piece when nothing is left
    of the piece once as many characters as the size has are cut off its
    end. *)
Lemma bwd_size_when_remainder_empty (h : host) (all : list str)
    (log : list str) (piece : str) (rest : list str) :
  let u := Bwd.trimTrailingSpace piece in
  let size := Bwd.getLastComponentValue u in
  truthy u = true ->
  Bwd.isValidNonNegativeSourceSizeValue size = true ->
  truthy (Bwd.trimTrailingSpace (take (length u - length size) u)) = false ->
  Bwd.forEach h all log (piece :: rest) =
  (VString size,
   if negb (length rest =? 0)%nat && console h
   then log ++ [parseErrorMessage (Bwd.join_comma all)] else log).
Proof.
  intros u size Hu Hv Hempty. simpl. fold u. rewrite Hu. simpl.
  fold size. rewrite Hv. by rewrite Hempty.
Qed.

End Agreement.

(** C1 (defect of the forward revision): the value returned should be a
    valid token of the input or ["100vw"]; without a console the [continue]
    for an invalid last token is not taken, and on ["all"], which is then
    evaluated as a media query and matches, the call returns [undefined]. *)
Theorem result_undefined_without_console :
  isValidNonNegativeSourceSizeValue (lit "all") = false /\
  Fwd.parseSizes legacyHost (VString (lit "all")) = Returned VUndefined [].
Proof. by vm_compute. Qed.

(** C3 (defect of the forward revision): a group whose last token is not a
    valid size should be skipped; without a console it is not: after
    ["(max-width:0) 1px"], whose condition is false, the group ["all"] is
    evaluated as a media query and makes the call return the stale size
    ["1px"], where the input without that group gives ["100vw"]. *)
Theorem invalid_group_not_skipped_without_console :
  Fwd.parseComponentValues (lit "(max-width:0) 1px, all") =
    Some [[lit "(max-width:0)"; lit "1px"]; [lit "all"]] /\
  isValidNonNegativeSourceSizeValue (lit "all") = false /\
  Fwd.parseSizes legacyHost (VString (lit "(max-width:0) 1px, all")) =
    Returned (VString (lit "1px")) [] /\
  Fwd.parseSizes legacyHost (VString (lit "(max-width:0) 1px")) =
    Returned (VString (lit "100vw")) [].
Proof. by vm_compute. Qed.

(** C10 (defect of the forward revision): an input with no valid trailing
    length in any group should give ["100vw"]; without a console, on
    ["(min-width:0)"], which is then evaluated as a media query and
    matches, the call returns [undefined]; the empty string and [","] do
    give ["100vw"]. *)
Theorem no_valid_size_without_console :
  Fwd.parseComponentValues (lit "(min-width:0)") = Some [[lit "(min-width:0)"]] /\
  isValidNonNegativeSourceSizeValue (lit "(min-width:0)") = false /\
  Fwd.parseSizes legacyHost (VString (lit "(min-width:0)")) = Returned VUndefined [] /\
  Fwd.parseSizes legacyHost (VString []) = Returned (VString (lit "100vw")) [] /\
  Fwd.parseSizes legacyHost (VString (lit ",")) = Returned (VString (lit "100vw")) [].
Proof. by vm_compute. Qed.

(** C2 (defect of both revisions): an absent attribute should be read as
    the empty string, as the comment above the first statement of each
    revision says; neither revision does so: on an undefined argument both
    throw, on every host, where the empty string gives ["100vw"]. *)
Theorem undefined_input_throws (h : host) :
  Fwd.parseSizes h VUndefined = TypeError /\
  Bwd.parseSizes h VUndefined = TypeError /\
  Fwd.parseSizes h (VString []) = Returned (VString (lit "100vw")) [] /\
  Bwd.parseSizes h (VString []) = Returned (VString (lit "100vw")) [].
Proof. by vm_compute. Qed.

(** On a string neither revision throws, and neither exhausts its loop. *)
Lemma string_input_never_throws (h : host) (s : str) :
  (exists v log, Fwd.parseSizes h (VString s) = Returned v log) /\
  (exists v log, Bwd.parseSizes h (VString s) = Returned v log).
Proof.
  split; [apply FwdCalls.parseSizes_returns | apply BwdCalls.bwd_parseSizes_returns].
Qed.

(** C4 (counterexample): ["+0.5px"] and ["+0.11e+01px"] have the shape the
    claim describes and a parsed value that is not negative, and are
    rejected. *)
Lemma signed_fraction_rejected :
  regex_test specLengthPattern (lit "+0.5px") = true /\
  ge0 (parseFloat (lit "+0.5px")) = true /\
  isValidNonNegativeSourceSizeValue (lit "+0.5px") = false /\
  regex_test specLengthPattern (lit "+0.11e+01px") = true /\
  ge0 (parseFloat (lit "+0.11e+01px")) = true /\
  isValidNonNegativeSourceSizeValue (lit "+0.11e+01px") = false.
Proof. by vm_compute. Qed.

(** C4 (amended): a token made of either an optionally signed run of
    digits, or an unsigned run of digits (possibly none), a dot and at
    least one digit, then an optional exponent ([e] or [E], an optional
    sign, digits), then one of the 14 units in any letter case, and whose
    parsed value is not negative, is a valid source size value. *)
Theorem length_token_accepted (s : str) :
  lengthShape s -> ge0 (parseFloat s) = true ->
  isValidNonNegativeSourceSizeValue s = true.
Proof.
  intros Hs Hge. apply length_pattern_spec in Hs.
  unfold isValidNonNegativeSourceSizeValue. by rewrite Hs, Hge.
Qed.

Lemma length_token_accepted_witness :
  isValidNonNegativeSourceSizeValue (lit "-0e-0PX") = true.
Proof.
  apply length_token_accepted.
  - exists (lit "-0"), (lit "e-0"), (lit "PX"). split; [reflexivity |].
    split; [|split].
    + left. exists (lit "-"), (lit "0").
      split; [reflexivity |]. split; [by right; right |].
      split; [done | by repeat constructor].
    + right. exists "e", (lit "-"), (lit "0").
      split; [reflexivity |]. split; [by left |]. split; [by right; right |].
      split; [done | by repeat constructor].
    + unfold isUnit. vm_compute. tauto.
  - by vm_compute.
Defined.

(** C6 (defect of the backward revision): the two revisions should return
    the same value; on ["/* */1px/* */"] the forward revision returns
    ["1px"], as the test suite expects, and the backward revision, which
    has no comment handling, returns ["100vw"]; on ["calc(200px * 1.4)"]
    likewise, the backward pattern having no dot. *)
Theorem revisions_differ (h : host) :
  Fwd.parseSizes h (VString (lit "/* */1px/* */")) = Returned (VString (lit "1px")) [] /\
  Bwd.parseSizes h (VString (lit "/* */1px/* */")) = Returned (VString (lit "100vw")) [] /\
  Fwd.parseSizes h (VString (lit "calc(200px * 1.4)")) =
    Returned (VString (lit "calc(200px * 1.4)")) [] /\
  Bwd.parseSizes h (VString (lit "calc(200px * 1.4)")) =
    Returned (VString (lit "100vw")) [].
Proof. by vm_compute. Qed.

(** C5 (defect of the backward revision): comments should be discarded;
    the backward revision has no comment handling: on ["/* */1px/* */"] its
    last component value is ["*/"], which is not a valid size, and the call
    returns ["100vw"] where the forward revision and the test suite give
    ["1px"]; and a comment that is never closed does not take the rest of
    the input: on ["1px/* 50vw"] the forward revision returns ["1px"], the
    backward one never does. *)
Theorem bwd_comments_not_discarded (h : host) :
  Bwd.getLastComponentValue (lit "/* */1px/* */") = lit "*/" /\
  Bwd.isValidNonNegativeSourceSizeValue (lit "*/") = false /\
  Bwd.parseSizes h (VString (lit "/* */1px/* */")) =
    Returned (VString (lit "100vw")) [] /\
  Fwd.parseSizes h (VString (lit "/* */1px/* */")) =
    Returned (VString (lit "1px")) [] /\
  Fwd.parseSizes h (VString (lit "1px/* 50vw")) =
    Returned (VString (lit "1px")) [] /\
  Bwd.parseSizes h (VString (lit "1px/* 50vw")) =
    Returned (VString (if matchMedia h (lit "1px/*")
                       then lit "50vw" else lit "100vw")) [].
Proof.
  destruct h as [c m]. repeat split; try by vm_compute.
  vm_compute. by destruct (m _).
Qed.

(** C7 (defect of the backward revision): the calc pattern should allow a
    dot; the class of the backward revision's pattern has none, so that it
    accepts the calc shape over the same characters without the dot, and
    rejects ["calc(200px * 1.4)"], which the forward pattern accepts and the
    test suite expects back: the call returns ["100vw"]. *)
Theorem bwd_calc_rejects_dot (h : host) :
  (forall s : str,
     regex_test Bwd.regexCssCalc s = true <->
     calcShape (fun c => isCalcChar c && negb (c =? ".")) s) /\
  regex_test regexCssCalc (lit "calc(200px * 1.4)") = true /\
  regex_test Bwd.regexCssCalc (lit "calc(200px * 1.4)") = false /\
  Bwd.isValidNonNegativeSourceSizeValue (lit "calc(200px * 1.4)") = false /\
  Bwd.parseSizes h (VString (lit "calc(200px * 1.4)")) =
    Returned (VString (lit "100vw")) [].
Proof.
  split; [apply calc_form_bwd | by vm_compute].
Qed.

(** C8 (defect of the backward revision): a candidate that is a valid size
    with nothing before it should be returned at once. The backward
    revision cuts the size off the candidate by the length of the value
    [getLastComponentValue] returned, in which runs of white space inside
    parentheses are collapsed: on ["calc(1px  +  2px), 3px"] the size of the
    first candidate is ["calc(1px + 2px)"], two characters shorter than the
    candidate, the two characters ["ca"] that are left are taken for a
    media condition, and unless the host matches it the call goes on and
    returns ["3px"]. The forward revision returns the first size. *)
Theorem bwd_unconditional_size_passed_over (h : host) :
  Bwd.getLastComponentValue (lit "calc(1px  +  2px)") = lit "calc(1px + 2px)" /\
  Bwd.isValidNonNegativeSourceSizeValue (lit "calc(1px + 2px)") = true /\
  Bwd.parseSizes h (VString (lit "calc(1px  +  2px), 3px")) =
    Returned (VString (if matchMedia h (lit "ca")
                       then lit "calc(1px + 2px)" else lit "3px")) [] /\
  Fwd.parseSizes h (VString (lit "calc(1px  +  2px), 3px")) =
    Returned (VString (lit "calc(1px + 2px)"))
             (if console h
              then [parseErrorMessage (lit "calc(1px  +  2px), 3px")] else []).
Proof.
  destruct h as [c m]. repeat split; try by vm_compute.
  vm_compute. by destruct (m _).
Qed.

(** * Further properties of the validators *)

Module ValidatorFacts.

Lemma calc_pattern_spec (s : str) :
  regex_test regexCssCalc s = true <-> calcShape isCalcChar s.
Proof.
  rewrite regex_test_spec. unfold regexCssCalc. rewrite matches_calc.
  unfold calcShape.
  split; intros (prefix & body & ? & ? & ? & Hb); exists prefix, body;
    repeat split; try done;
    eapply Forall_impl; try exact Hb; intros c Hc; simpl in *;
    by rewrite ?class_calc_spec in *.
Qed.

Lemma bwd_calc_pattern_spec (s : str) :
  regex_test Bwd.regexCssCalc s = true <->
  calcShape (fun c => isCalcChar c && negb (c =? ".")) s.
Proof.
  rewrite regex_test_spec. unfold Bwd.regexCssCalc. rewrite matches_calc.
  unfold calcShape.
  split; intros (prefix & body & ? & ? & ? & Hb); exists prefix, body;
    repeat split; try done;
    eapply Forall_impl; try exact Hb; intros c Hc; simpl in *;
    by rewrite ?class_calc_bwd_spec in *.
Qed.

Lemma str_eqb_spec (a b : str) : str_eqb a b = true <-> a = b.
Proof. unfold str_eqb. apply bool_decide_eq_true. Qed.

Lemma isLetter_toLower (c : ascii) : isLetter (toLower c) = isLetter c.
Proof. by_ascii_cases c. Qed.

Lemma isCalcChar_toLower (c : ascii) : isCalcChar (toLower c) = isCalcChar c.
Proof. by_ascii_cases c. Qed.

Lemma isCalcChar_digit (c : ascii) : isDigit c = true -> isCalcChar c = true.
Proof. intros H. unfold isCalcChar. by rewrite H. Qed.

Lemma isCalcChar_letter (c : ascii) : isLetter c = true -> isCalcChar c = true.
Proof. intros H. unfold isCalcChar. rewrite H. by rewrite orb_true_r. Qed.

Lemma isDigit_not_letter (c : ascii) :
  isLetter c = true -> isDigit c = false /\ c <> "." /\ c <> "+" /\ c <> "-".
Proof.
  intros H.
  destruct c as [[] [] [] [] [] [] [] []]; try discriminate H; by repeat split.
Qed.

(** A word that is equal to a lower-case literal up to case is made of
    letters where the literal is. *)
Lemma Forall_toLower (P : ascii -> bool) (u : str) :
  (forall c, P (toLower c) = P c) ->
  Forall (fun c => P c = true) (map toLower u) -> Forall (fun c => P c = true) u.
Proof.
  intros HP. induction u as [|c u IH]; simpl; intros H; [constructor |].
  inversion H; subst. constructor; [by rewrite <- HP | by apply IH].
Qed.

(** A unit is made of at least two letters. *)
Lemma unit_letters (u : str) :
  isUnit u -> Forall (fun c => isLetter c = true) u /\ (2 <= length u)%nat.
Proof.
  unfold isUnit. intros H.
  assert (Hall : Forall (fun w : str =>
            Forall (fun c => isLetter c = true) w /\ (2 <= length w)%nat)
            (map lit units)).
  { unfold units. simpl.
    repeat (constructor; [split; [by repeat constructor | simpl; lia] |]).
    constructor. }
  rewrite Forall_forall in Hall. apply list_elem_of_In in H.
  destruct (Hall _ H) as [Hl Hlen]. split.
  - by apply (Forall_toLower isLetter _ isLetter_toLower).
  - by rewrite length_map in Hlen.
Qed.

Lemma sign_chars (sg : str) :
  isSignStr sg -> Forall (fun c => isCalcChar c = true) sg.
Proof. by intros [-> | [-> | ->]]; repeat constructor. Qed.

Lemma digits_chars (ds : str) :
  isDigits ds -> Forall (fun c => isCalcChar c = true) ds.
Proof.
  intros H. eapply Forall_impl; [exact H |]. intros c. apply isCalcChar_digit.
Qed.

Lemma lengthShape_chars (s : str) :
  lengthShape s -> s <> [] /\ Forall (fun c => isCalcChar c = true) s.
Proof.
  intros (m & e & u & -> & Hm & He & Hu).
  apply unit_letters in Hu as [Hu Hlen]. split.
  - intros Heq. apply (f_equal length) in Heq.
    rewrite !length_app in Heq. simpl in Heq. lia.
  - apply Forall_app. split; [|apply Forall_app; split].
    + destruct Hm as [(sg & ds & -> & Hs & _ & Hd) | (ds1 & ds2 & -> & H1 & _ & H2)].
      * apply Forall_app. split; [by apply sign_chars | by apply digits_chars].
      * apply Forall_app. split; [by apply digits_chars |].
        constructor; [done | by apply digits_chars].
    + destruct He as [-> | (c & sg & ds & -> & Hc & Hs & _ & Hd)]; [constructor |].
      constructor; [by destruct Hc as [-> | ->] |].
      apply Forall_app. split; [by apply sign_chars | by apply digits_chars].
    + eapply Forall_impl; [exact Hu |]. intros c. apply isCalcChar_letter.
Qed.

Lemma calcShape_chars (ok : ascii -> bool) (s : str) :
  (forall c, ok c = true -> isCalcChar c = true) ->
  calcShape ok s -> s <> [] /\ Forall (fun c => isCalcChar c = true) s.
Proof.
  intros Hok (prefix & body & -> & Hp & _ & Hb). split.
  - intros Heq. apply (f_equal length) in Heq.
    rewrite !length_app in Heq. simpl in Heq. lia.
  - apply Forall_app. split; [|apply Forall_app; split].
    + apply (Forall_toLower isCalcChar _ isCalcChar_toLower).
      rewrite Hp. by repeat constructor.
    + eapply Forall_impl; [exact Hb |]. intros c. apply Hok.
    + by repeat constructor.
Qed.

(** A calc token starts with [c] or [C]. *)
Lemma calcShape_head (ok : ascii -> bool) (s : str) :
  calcShape ok s -> exists c t, s = c :: t /\ toLower c = "c".
Proof.
  intros (prefix & body & -> & Hp & _ & _).
  destruct prefix as [|c prefix]; [done |]. injection Hp as Hc _.
  by exists c, (prefix ++ body ++ [")"]).
Qed.

Lemma valid_iff (s : str) :
  isValidNonNegativeSourceSizeValue s = true <->
  (lengthShape s /\ ge0 (parseFloat s) = true) \/
  calcShape isCalcChar s \/
  s = lit "0" \/ s = lit "-0" \/ s = lit "+0".
Proof.
  unfold isValidNonNegativeSourceSizeValue.
  rewrite <- length_pattern_spec, <- calc_pattern_spec.
  rewrite <- !str_eqb_spec.
  destruct (regex_test regexCssLengthWithUnits s);
    destruct (ge0 (parseFloat s));
    destruct (regex_test regexCssCalc s);
    destruct (str_eqb s (lit "0"));
    destruct (str_eqb s (lit "-0"));
    destruct (str_eqb s (lit "+0")); simpl; split; intros H;
    try done; try tauto;
    repeat (destruct H as [H|H]); try done; by destruct H.
Qed.

End ValidatorFacts.

(** X1: the forward validator accepts exactly three kinds of token: a
    length token of [lengthShape] whose parsed value is not negative, a
    token of the loose calc shape, and the unitless zeros ["0"], ["-0"],
    ["+0"]. *)
Theorem validator_characterisation (s : str) :
  isValidNonNegativeSourceSizeValue s = true <->
  (lengthShape s /\ ge0 (parseFloat s) = true) \/
  calcShape isCalcChar s \/
  s = lit "0" \/ s = lit "-0" \/ s = lit "+0".
Proof. apply ValidatorFacts.valid_iff. Qed.

(** X2: a length token that does not start with a minus sign is accepted,
    whatever its digits and exponent. *)
Theorem length_token_without_minus_is_valid (s : str) :
  lengthShape s -> head s <> Some "-" ->
  isValidNonNegativeSourceSizeValue s = true.
Proof. apply ParseFloatFacts.length_token_without_minus_accepted. Qed.

Lemma length_token_without_minus_is_valid_witness :
  isValidNonNegativeSourceSizeValue (lit ".4E1px") = true.
Proof.
  apply length_token_without_minus_is_valid; [|done].
  exists (lit ".4"), (lit "E1"), (lit "px"). split; [reflexivity |].
  split; [|split].
  - right. exists [], (lit "4").
    split; [reflexivity |]. split; [constructor |].
    split; [done | by repeat constructor].
  - right. exists "E", [], (lit "1").
    split; [reflexivity |]. split; [by right |]. split; [by left |].
    split; [done | by repeat constructor].
  - unfold isUnit. vm_compute. tauto.
Defined.

(** X4: a token the forward validator accepts is not empty and holds only
    digits, ASCII letters, spaces and the characters [. + - * / ( )]; so a
    token with a percent sign, a comma or any other character is
    rejected. *)
Theorem valid_token_alphabet (s : str) :
  isValidNonNegativeSourceSizeValue s = true ->
  s <> [] /\ Forall (fun c => isCalcChar c = true) s.
Proof.
  intros [[H _] | [H | [-> | [-> | ->]]]]%ValidatorFacts.valid_iff.
  - by apply ValidatorFacts.lengthShape_chars.
  - by apply (ValidatorFacts.calcShape_chars isCalcChar).
  - split; [done | by repeat constructor].
  - split; [done | by repeat constructor].
  - split; [done | by repeat constructor].
Qed.

Lemma valid_token_alphabet_witness :
  lit "calc(1px + .5em)" <> [] /\
  Forall (fun c => isCalcChar c = true) (lit "calc(1px + .5em)").
Proof.
  apply valid_token_alphabet. by vm_compute.
Defined.

(** X5: whatever the backward validator accepts the forward validator
    accepts, and on a token without a dot the two agree. *)
Theorem bwd_validator_is_stricter (s : str) :
  (Bwd.isValidNonNegativeSourceSizeValue s = true ->
   isValidNonNegativeSourceSizeValue s = true) /\
  (~ In "." s ->
   Bwd.isValidNonNegativeSourceSizeValue s = isValidNonNegativeSourceSizeValue s).
Proof.
  split.
  - unfold Bwd.isValidNonNegativeSourceSizeValue, isValidNonNegativeSourceSizeValue.
    destruct (_ && _); [done |].
    destruct (regex_test Bwd.regexCssCalc s) eqn:Hb; simpl.
    + intros _. apply ValidatorFacts.bwd_calc_pattern_spec in Hb.
      assert (regex_test regexCssCalc s = true) as ->; [|done].
      apply ValidatorFacts.calc_pattern_spec.
      destruct Hb as (prefix & body & ? & ? & ? & Hb). exists prefix, body.
      repeat split; try done. eapply Forall_impl; [exact Hb |].
      intros c Hc. simpl in Hc. by apply andb_true_iff in Hc as [Hc _].
    + destruct (regex_test regexCssCalc s); [done |]. by destruct (_ || _).
  - intros Hdot. symmetry. by apply Agreement.validators_agree_without_dot.
Qed.

Lemma bwd_validator_is_stricter_witness :
  isValidNonNegativeSourceSizeValue (lit "calc(1px + 2px)") = true.
Proof.
  apply (proj1 (bwd_validator_is_stricter (lit "calc(1px + 2px)"))).
  by vm_compute.
Defined.

Module MinusFacts.
Import ValidatorFacts ParseFloatFacts.

(** Reading a number whose digits are followed by something other than a
    dot. *)
Lemma readUnsigned_no_dot (neg : bool) (s ds1 r : str) (c : ascii) :
  startsWith (lit "Infinity") s = false ->
  takeDigits s = (ds1, c :: r) -> c <> "." ->
  readUnsigned neg s =
  match ds1 with
  | [] => NaN
  | _ => Finite neg (digitsValue ds1) (readExponent (c :: r))
  end.
Proof.
  intros Hinf Htake Hc. unfold readUnsigned. rewrite Hinf, Htake.
  destruct c as [[] [] [] [] [] [] [] []]; try reflexivity. done.
Qed.

Lemma takeDigits_letter (c : ascii) (t : str) :
  isLetter c = true -> takeDigits (c :: t) = ([], c :: t).
Proof.
  intros Hc. apply isDigit_not_letter in Hc as [Hd _]. simpl. by rewrite Hd.
Qed.

(** A unit is never read as an exponent. *)
Lemma readExponent_letters (c d : ascii) (t : str) :
  isLetter d = true -> readExponent (c :: d :: t) = 0%Z.
Proof.
  intros Hd. unfold readExponent. destruct (_ || _); [|done].
  destruct d as [[] [] [] [] [] [] [] []]; try discriminate Hd; reflexivity.
Qed.

Lemma parseFloat_minus_digits_unit (ds u : str) :
  isDigits ds -> ds <> [] -> isUnit u ->
  parseFloat ("-" :: ds ++ u) = Finite true (digitsValue ds) 0.
Proof.
  intros Hds Hne Hu. apply unit_letters in Hu as [Hu Hlen].
  destruct u as [|c [|d t]]; simpl in Hlen; try lia.
  inversion Hu as [|?? Hc Hu']; subst. inversion Hu' as [|?? Hd _]; subst.
  change (parseFloat ("-" :: ds ++ c :: d :: t))
    with (readUnsigned true (ds ++ c :: d :: t)).
  rewrite (readUnsigned_no_dot true _ ds (d :: t) c).
  - destruct ds; [done |]. by rewrite readExponent_letters.
  - destruct ds as [|d0 ds]; [done |]. inversion Hds; subst.
    by apply startsWith_digit.
  - rewrite takeDigits_app, takeDigits_letter by done. simpl.
    by rewrite app_nil_r.
  - by apply isDigit_not_letter in Hc as (_ & ? & _).
Qed.

Lemma minus_not_calc (t : str) : regex_test regexCssCalc ("-" :: t) = false.
Proof.
  destruct (regex_test regexCssCalc ("-" :: t)) eqn:H; [|done].
  apply calc_pattern_spec, calcShape_head in H as (c & t' & [= <- _] & Hc).
  discriminate Hc.
Qed.

Lemma str_eqb_length (a b : str) :
  length a <> length b -> str_eqb a b = false.
Proof.
  intros Hlen. unfold str_eqb. apply bool_decide_eq_false. by intros ->.
Qed.

End MinusFacts.

(** X3: a token made of a minus sign, digits and a unit, with no exponent,
    is accepted exactly when its digits are all zeros: ["-0px"] is a valid
    size, ["-1px"] is not. *)
Theorem minus_length_token_valid_iff_zero (ds u : str) :
  isDigits ds -> ds <> [] -> isUnit u ->
  isValidNonNegativeSourceSizeValue ("-" :: ds ++ u) = (digitsValue ds =? 0)%Z.
Proof.
  intros Hds Hne Hu.
  assert (Hshape : lengthShape ("-" :: ds ++ u)).
  { exists ("-" :: ds), [], u. split; [done |].
    split; [|split; [by left | done]].
    left. exists ["-"], ds. split; [done |]. split; [by right; right | done]. }
  apply length_pattern_spec in Hshape.
  pose proof (ValidatorFacts.unit_letters u Hu) as [_ Hlen].
  unfold isValidNonNegativeSourceSizeValue.
  rewrite Hshape, MinusFacts.parseFloat_minus_digits_unit by done.
  rewrite MinusFacts.minus_not_calc.
  rewrite !MinusFacts.str_eqb_length
    by (simpl; rewrite length_app; destruct ds; [done | simpl; lia]).
  unfold ge0, roundsToZero. simpl.
  by destruct (digitsValue ds =? 0)%Z.
Qed.

Lemma minus_length_token_valid_iff_zero_witness :
  isValidNonNegativeSourceSizeValue (lit "-00vmin") = true /\
  isValidNonNegativeSourceSizeValue (lit "-10vmin") = false.
Proof.
  split.
  - apply (minus_length_token_valid_iff_zero (lit "00") (lit "vmin"));
      [by repeat constructor | done | unfold isUnit; vm_compute; tauto].
  - apply (minus_length_token_valid_iff_zero (lit "10") (lit "vmin"));
      [by repeat constructor | done | unfold isUnit; vm_compute; tauto].
Defined.

(** * Further properties of the backward revision *)

Module BwdFacts.
Import Bwd.

(** The loop of [trimTrailingSpace] stops at the end of the part that does
    not end in white space. *)
Lemma trimTrailingEnd_spec (s : str) (n : nat) :
  (n <= length s)%nat ->
  let k := trimTrailingEnd s n in
  (k <= n)%nat /\
  Forall (fun c => isSpace c = true) (drop k (take n s)) /\
  spaceRead (last (take k s)) = false.
Proof.
  induction n as [|j IH]; intros Hn; [by repeat split |].
  simpl. destruct (s !! j) as [c|] eqn:Hc.
  2: { apply lookup_ge_None in Hc. lia. }
  simpl. destruct (isSpace c) eqn:Hsp.
  - destruct IH as (Hk & Hall & Hlast); [lia |]. repeat split; [lia | | done].
    rewrite (take_S_r _ _ _ Hc), drop_app_le by (rewrite length_take; lia).
    apply Forall_app. split; [done | by repeat constructor].
  - repeat split; [lia | |].
    + rewrite drop_ge; [constructor | rewrite length_take; lia].
    + by rewrite (take_S_r _ _ _ Hc), last_snoc.
Qed.

(** The loop of [trimLeadingSpace] stops at the first character that is
    not white space. *)
Lemma trimLeadingStart_spec (s : str) (k : nat) : forall i : nat,
  let j := trimLeadingStart s k i in
  (i <= j <= i + k)%nat /\
  Forall (fun c => isSpace c = true) (take (j - i) (drop i s)) /\
  ((j < i + k)%nat -> spaceRead (s !! j) = false).
Proof.
  induction k as [|k IH]; intros i; simpl.
  - rewrite Nat.sub_diag. repeat split; [lia | lia | constructor | lia].
  - destruct (spaceRead (s !! i)) eqn:Hsp.
    + destruct (IH (S i)) as ((H1 & H2) & Hall & Hstop).
      repeat split; [lia | lia | | intros; apply Hstop; lia].
      destruct (s !! i) as [c|] eqn:Hc; [|done]. simpl in Hsp.
      replace (trimLeadingStart s k (S i) - i)%nat
        with (S (trimLeadingStart s k (S i) - S i)) by lia.
      rewrite (drop_S _ _ _ Hc). simpl. by constructor.
    + rewrite Nat.sub_diag. repeat split; [lia | lia | constructor | done].
Qed.

Lemma split_not_nil (s : str) : split s <> [].
Proof. destruct s as [|c s]; [done |]. simpl. destruct (c =? ","); [done |]. by destruct (split s). Qed.

Lemma join_comma_cons (p : str) (ps : list str) :
  ps <> [] -> join_comma (p :: ps) = p ++ "," :: join_comma ps.
Proof. by destruct ps. Qed.

Lemma join_split (s : str) : join_comma (split s) = s.
Proof.
  induction s as [|c s IH]; [done |].
  simpl. destruct (c =? ",") eqn:Hc.
  - apply Ascii.eqb_eq in Hc as ->.
    rewrite join_comma_cons by apply split_not_nil. by rewrite IH.
  - destruct (split s) as [|p ps] eqn:Hs; [by apply split_not_nil in Hs |].
    destruct ps; simpl in *; by rewrite <- IH.
Qed.

Lemma split_pieces (s : str) :
  Forall (Forall (fun c => c <> ",")) (split s) /\
  length (split s) = S (length (List.filter (fun c => c =? ",") s)).
Proof.
  induction s as [|c s IH]; [by repeat constructor |].
  destruct IH as [IH2 IH3].
  simpl. destruct (c =? ",") eqn:Hc.
  - split; [by constructor | simpl; by rewrite IH3].
  - apply Ascii.eqb_neq in Hc.
    destruct (split s) as [|p ps] eqn:Hs; [by apply split_not_nil in Hs |].
    inversion IH2; subst. split; [|done].
    constructor; [by constructor | done].
Qed.

(** The backward scan of the last word of a string. *)
Lemma scanBack_word (pre w : str) (k : nat) :
  Forall (fun c => isSpace c = false /\ c <> "(" /\ c <> ")") w ->
  (k <= length w)%nat ->
  scanBack (pre ++ w) (length pre + k) (drop k w) 0 =
  scanBack (pre ++ w) (length pre) w 0.
Proof.
  intros Hw. induction k as [|k IH]; intros Hk.
  - by rewrite Nat.add_0_r, drop_0.
  - rewrite Nat.add_succ_r. simpl.
    destruct (w !! k) as [c|] eqn:Hc.
    2: { apply lookup_ge_None in Hc. lia. }
    rewrite lookup_app_r by lia.
    replace (length pre + k - length pre)%nat with k by lia. rewrite Hc.
    rewrite Forall_lookup in Hw. destruct (Hw _ _ Hc) as (Hsp & Ho & Hcl).
    rewrite Hsp. apply Ascii.eqb_neq in Ho, Hcl. rewrite Ho, Hcl.
    rewrite <- (drop_S _ _ _ Hc). apply IH. lia.
Qed.

Lemma scanBack_length (s : str) (n : nat) : forall (component : str) (d : Z),
  (length (scanBack s n component d) <= n + length component)%nat.
Proof.
  induction n as [|p IH]; intros component d; simpl; [lia |].
  destruct (s !! p) as [c|]; [|lia].
  assert (Hcons : forall x d',
    (length (scanBack s p (x :: component) d') <= S (p + length component))%nat).
  { intros x d'. specialize (IH (x :: component) d'). simpl in IH. lia. }
  destruct (isSpace c).
  - destruct (_ || _); [specialize (IH component d); lia |].
    destruct (_ && _); [lia | apply Hcons].
  - destruct (c =? ")"); [apply Hcons |]. destruct (c =? "("); apply Hcons.
Qed.

Lemma scanBack_spaces (s : str) (n : nat) : forall (component : str) (d : Z),
  Forall (fun c => isSpace c = true -> c = " ") component ->
  Forall (fun c => isSpace c = true -> c = " ") (scanBack s n component d).
Proof.
  induction n as [|p IH]; intros component d Hc; simpl; [done |].
  destruct (s !! p) as [c|]; [|done].
  destruct (isSpace c) eqn:Hsp.
  - destruct (_ || _); [by apply IH |].
    destruct (_ && _); [done |]. apply IH. by constructor.
  - assert (Hcons : Forall (fun c => isSpace c = true -> c = " ") (c :: component)).
    { constructor; [|done]. by rewrite Hsp. }
    destruct (c =? ")"); [by apply IH |]. destruct (c =? "("); by apply IH.
Qed.

(** Value and log of the loop over the pieces. *)
Lemma forEach_outcome (h : host) (all : list str) (pieces : list str) :
  forall log : list str,
    exists v log',
      forEach h all log pieces = (VString v, log') /\
      (v = lit "100vw" \/ isValidNonNegativeSourceSizeValue v = true) /\
      (log' = log \/
       (console h = true /\ log' = log ++ [parseErrorMessage (join_comma all)])).
Proof.
  induction pieces as [|p rest IH]; intros log; simpl.
  { exists (lit "100vw"), log. auto. }
  destruct (truthy (trimTrailingSpace p)); simpl; [|apply IH].
  destruct (isValidNonNegativeSourceSizeValue _) eqn:Hv; [|apply IH].
  destruct (truthy (trimTrailingSpace _)); simpl.
  - destruct (matchMedia h _); simpl; [|apply IH].
    eexists _, _. split; [done |]. auto.
  - eexists _, _. split; [done |]. split; [by right |].
    destruct (length rest =? 0)%nat; simpl; [by left |].
    destruct (console h); [by right | by left].
Qed.

End BwdFacts.

(** X6: [trimTrailingSpace] removes a run of white space from the end and
    nothing else: the input is the result followed by white-space
    characters only, and the result does not end in white space. *)
Theorem trimTrailingSpace_spec (s : str) :
  exists ws,
    s = Bwd.trimTrailingSpace s ++ ws /\
    Forall (fun c => isSpace c = true) ws /\
    spaceRead (last (Bwd.trimTrailingSpace s)) = false.
Proof.
  destruct (BwdFacts.trimTrailingEnd_spec s (length s)) as (Hk & Hall & Hlast);
    [done |].
  exists (drop (Bwd.trimTrailingEnd s (length s)) s).
  unfold Bwd.trimTrailingSpace. split; [by rewrite take_drop |].
  split; [|done]. by rewrite firstn_all in Hall.
Qed.

(** X7: [trimLeadingSpace] removes a run of white space from the start and
    nothing else: the input is white-space characters followed by the
    result, and the result does not start with white space. *)
Theorem trimLeadingSpace_spec (s : str) :
  exists ws,
    s = ws ++ Bwd.trimLeadingSpace s /\
    Forall (fun c => isSpace c = true) ws /\
    spaceRead (head (Bwd.trimLeadingSpace s)) = false.
Proof.
  destruct (BwdFacts.trimLeadingStart_spec s (length s) 0)
    as ((_ & Hj) & Hall & Hstop).
  exists (take (Bwd.trimLeadingStart s (length s) 0) s).
  unfold Bwd.trimLeadingSpace. split; [by rewrite take_drop |].
  rewrite Nat.sub_0_r, drop_0 in Hall. split; [done |].
  rewrite head_lookup, lookup_drop, Nat.add_0_r.
  destruct (decide (Bwd.trimLeadingStart s (length s) 0 < length s)%nat)
    as [Hlt|Hge]; [by apply Hstop |].
  by rewrite (proj2 (lookup_ge_None _ _)) by lia.
Qed.

(** X8: splitting on commas loses nothing: joining the pieces with commas
    gives the input back (so the array printed in the parse-error message
    reads as the attribute), no piece holds a comma, and there is one
    piece more than there are commas. *)
Theorem split_join_round_trip (s : str) :
  Bwd.join_comma (Bwd.split s) = s /\
  Forall (Forall (fun c => c <> ",")) (Bwd.split s) /\
  length (Bwd.split s) = S (length (List.filter (fun c => c =? ",") s)).
Proof.
  split; [apply BwdFacts.join_split | apply BwdFacts.split_pieces].
Qed.

(** X9: on a string that ends with a word without white space or
    parentheses, preceded by white space or by nothing,
    [getLastComponentValue] returns that word. *)
Theorem last_component_is_last_word (pre w : str) :
  w <> [] ->
  Forall (fun c => isSpace c = false /\ c <> "(" /\ c <> ")") w ->
  pre = [] \/ spaceRead (last pre) = true ->
  Bwd.getLastComponentValue (pre ++ w) = w.
Proof.
  intros Hne Hw Hpre. unfold Bwd.getLastComponentValue.
  rewrite length_app.
  pose proof (BwdFacts.scanBack_word pre w (length w) Hw (Nat.le_refl _)) as H.
  rewrite drop_all in H. rewrite H.
  destruct Hpre as [-> | Hsp]; [done |].
  destruct (last pre) as [c|] eqn:Hlast; [|done]. simpl in Hsp.
  apply last_Some in Hlast as [pre' ->].
  rewrite length_app. simpl. rewrite Nat.add_1_r. simpl.
  rewrite <- app_assoc. simpl.
  rewrite (list_lookup_middle pre' (w) c (length pre')) by done.
  rewrite Hsp.
  destruct w as [|c0 w0]; [done |].
  replace (pre' ++ c :: c0 :: w0) with ((pre' ++ [c]) ++ c0 :: w0)
    by (by rewrite <- app_assoc).
  rewrite (list_lookup_middle (pre' ++ [c]) w0 c0 (length pre' + 1))
    by (rewrite length_app; simpl; lia).
  inversion Hw as [|?? (Hc0 & _) _]; subst. simpl. rewrite Hc0. simpl.
  rewrite length_app. simpl.
  replace (length pre' =? length (pre' ++ [c]) + S (length w0) - 1)%nat with false;
    [done |].
  symmetry. apply Nat.eqb_neq. rewrite length_app. simpl. lia.
Qed.

Lemma last_component_is_last_word_witness :
  Bwd.getLastComponentValue (lit "(min-width:0)  1px") = lit "1px".
Proof.
  apply (last_component_is_last_word (lit "(min-width:0)  ") (lit "1px")).
  - done.
  - by repeat constructor.
  - by right.
Defined.

(** X10: the component [getLastComponentValue] returns is never longer
    than its input, so the [substring] that removes it never gets a
    negative end; and the only white space it holds is plain spaces. *)
Theorem last_component_bounds (s : str) :
  (length (Bwd.getLastComponentValue s) <= length s)%nat /\
  Forall (fun c => isSpace c = true -> c = " ") (Bwd.getLastComponentValue s).
Proof.
  unfold Bwd.getLastComponentValue. split.
  - pose proof (BwdFacts.scanBack_length s (length s) [] 0) as H.
    simpl in H. lia.
  - by apply BwdFacts.scanBack_spaces.
Qed.

(** X11: on every host and every string the backward revision returns a
    string, never [undefined]: the default ["100vw"] or a token its
    validator accepts. *)
Theorem bwd_result_valid_or_default (h : host) (s : str) :
  exists v log,
    Bwd.parseSizes h (VString s) = Returned (VString v) log /\
    (v = lit "100vw" \/ Bwd.isValidNonNegativeSourceSizeValue v = true).
Proof.
  destruct (BwdFacts.forEach_outcome h (Bwd.split s) (Bwd.split s) [])
    as (v & log & Heq & Hv & _).
  exists v, log. unfold Bwd.parseSizes. by rewrite Heq.
Qed.

(** X12: the backward revision writes to the console at most once per
    call, and only on a host that has one: the log is empty or the single
    message ["Parse error: "] followed by the attribute. *)
Theorem bwd_logs_at_most_once (h : host) (s : str) :
  exists v log,
    Bwd.parseSizes h (VString s) = Returned v log /\
    (log = [] \/ (console h = true /\ log = [parseErrorMessage s])).
Proof.
  destruct (BwdFacts.forEach_outcome h (Bwd.split s) (Bwd.split s) [])
    as (v & log & Heq & _ & Hlog).
  exists (VString v), log. unfold Bwd.parseSizes. rewrite Heq.
  split; [done |]. destruct Hlog as [-> | [Hc ->]]; [by left | right].
  split; [done |]. simpl.
  by rewrite BwdFacts.join_split.
Qed.

(** * Further properties of the tokenizer *)

Module FwdBufFacts.
Import Fwd FwdFacts FwdBuf.

Section Buffers.

Variable P : str -> Prop.
Hypothesis P_nil : P [].

Lemma bufInv_init : bufInv P init.
Proof. by split. Qed.

Lemma bufInv_pushComponent st : bufInv P st -> bufInv P (pushComponent st).
Proof.
  intros [H1 H2 H3]. unfold pushComponent.
  destruct (truthy (component st)); [|by split].
  split; simpl; try done. apply Forall_app. split; [done | by constructor].
Qed.

Lemma bufInv_pushComponentArray st :
  bufInv P st -> bufInv P (pushComponentArray st).
Proof.
  intros [H1 H2 H3]. unfold pushComponentArray.
  destruct (componentArray st !! 0%nat); [|by split].
  destruct (truthy _); [|by split].
  split; simpl; try done. apply Forall_app. split; [done | by constructor].
Qed.

Lemma bufInv_same st st' :
  component st' = component st -> componentArray st' = componentArray st ->
  listArray st' = listArray st -> bufInv P st -> bufInv P st'.
Proof. intros E1 E2 E3 [H1 H2 H3]. split; by rewrite ?E1, ?E2, ?E3. Qed.

Lemma bufInv_append c st :
  P (component st ++ [c]) -> bufInv P st -> bufInv P (append c st).
Proof. intros Hc [H1 H2 H3]. by split. Qed.

(** One turn keeps the buffers in [P] when the two kinds of character the
    loop appends keep the current token in [P]. *)
Lemma bufInv_step s st st' :
  bufInv P st ->
  (forall c,
     s !! pos st = Some c -> inComment st = false -> isSpace c = true ->
     spaceRead (charBefore s (pos st)) = false ->
     truthy (component st) = true -> parenDepth st <> 0%Z ->
     P (component st ++ [" "])) ->
  (forall c,
     s !! pos st = Some c -> inComment st = false -> isSpace c = false ->
     c <> "," -> P (component st ++ [c])) ->
  step s st = inl st' -> bufInv P st'.
Proof.
  intros Hinv Hspace Hchar. unfold step.
  destruct (s !! pos st) as [c|]; [|done].
  specialize (Hspace c eq_refl). specialize (Hchar c eq_refl).
  destruct (inComment st).
  { destruct (_ && _); intros [= <-].
    - apply bufInv_pushComponent. by apply (bufInv_same st).
    - by apply (bufInv_same st). }
  specialize (Hspace eq_refl). specialize (Hchar eq_refl).
  destruct (isSpace c) eqn:Hsp.
  { destruct (_ || _) eqn:Hor; [intros [= <-]; by apply (bufInv_same st) |].
    apply orb_false_iff in Hor as [Hb Ht]. apply negb_false_iff in Ht.
    destruct (_ =? _)%Z eqn:Hd; intros [= <-].
    - apply (bufInv_same (pushComponent st)); try done.
      by apply bufInv_pushComponent.
    - apply (bufInv_same (append " " st)); try done.
      apply bufInv_append; [|done]. apply Hspace; try done.
      by apply Z.eqb_neq in Hd. }
  specialize (Hchar eq_refl).
  destruct (c =? "(") eqn:H1.
  { intros [= <-]. apply Ascii.eqb_eq in H1 as ->.
    apply (bufInv_same (append "(" st)); try done.
    apply bufInv_append; [by apply Hchar | done]. }
  destruct (c =? ")") eqn:H2.
  { intros [= <-]. apply Ascii.eqb_eq in H2 as ->.
    apply (bufInv_same (append ")" st)); try done.
    apply bufInv_append; [by apply Hchar | done]. }
  destruct (c =? ",") eqn:H3.
  { intros [= <-].
    apply (bufInv_same (pushComponentArray (pushComponent st))); try done.
    by apply bufInv_pushComponentArray, bufInv_pushComponent. }
  apply Ascii.eqb_neq in H3.
  destruct (_ && _); intros [= <-].
  - by apply (bufInv_same st).
  - apply (bufInv_same (append c st)); try done.
    apply bufInv_append; [by apply Hchar | done].
Qed.

Lemma bufInv_finish st :
  bufInv P st ->
  Forall (Forall P) (listArray (pushComponentArray (pushComponent st))).
Proof.
  intros H. by apply bufInv_pushComponent, bufInv_pushComponentArray in H as [H _ _].
Qed.

End Buffers.

Lemma noDoubleSpace_snoc (t : str) (c : ascii) :
  noDoubleSpace (t ++ [c]) =
  noDoubleSpace t && negb (is_char (last t) " " && (c =? " ")).
Proof.
  induction t as [|a t IH]; [simpl; by destruct (c =? " ") |].
  destruct t as [|b t].
  - simpl. by destruct (a =? " "), (c =? " ").
  - change (noDoubleSpace ((a :: b :: t) ++ [c]))
      with (negb ((a =? " ") && (b =? " ")) && noDoubleSpace ((b :: t) ++ [c])).
    rewrite IH. rewrite last_cons_cons.
    change (noDoubleSpace (a :: b :: t))
      with (negb ((a =? " ") && (b =? " ")) && noDoubleSpace (b :: t)).
    by rewrite andb_assoc.
Qed.

Lemma charBefore_next (s : str) (p : nat) : charBefore s (p + 1) = s !! p.
Proof. by rewrite Nat.add_1_r. Qed.

Lemma isSpace_space_char (c : ascii) : (c =? " ") = true -> isSpace c = true.
Proof. intros H. apply Ascii.eqb_eq in H as ->. done. Qed.

Lemma component_pushComponent st :
  component (pushComponent st) = [].
Proof.
  unfold pushComponent. destruct (component st) eqn:H; simpl; [by rewrite H | done].
Qed.

Lemma component_pushComponentArray st :
  component (pushComponentArray st) = component st.
Proof.
  unfold pushComponentArray. destruct (_ !! _); [|done]. by destruct (truthy _).
Qed.

Lemma spaceJustRead_step s st st' :
  spaceJustRead s st -> step s st = inl st' -> spaceJustRead s st'.
Proof.
  intros Hinv. unfold step, spaceJustRead.
  destruct (s !! pos st) as [c|] eqn:Hc; [|done].
  destruct (inComment st) eqn:Hin.
  { destruct (_ && _); intros [= <-].
    - by rewrite component_pushComponent.
    - simpl. by rewrite Hin. }
  destruct (isSpace c) eqn:Hsp.
  { destruct (_ || _); [intros [= <-] _ _; simpl; by rewrite charBefore_next, Hc |].
    destruct (_ =? _)%Z; intros [= <-].
    - simpl. by rewrite component_pushComponent.
    - intros _ _. simpl. by rewrite charBefore_next, Hc. }
  assert (Hlast : forall t : str, is_char (last (t ++ [c])) " " = false).
  { intros t. rewrite last_snoc. simpl.
    destruct (c =? " ") eqn:Heq; [|done].
    apply isSpace_space_char in Heq. congruence. }
  destruct (c =? "("); [intros [= <-]; simpl; by rewrite Hlast |].
  destruct (c =? ")"); [intros [= <-]; simpl; by rewrite Hlast |].
  destruct (c =? ",").
  { intros [= <-]. simpl.
    by rewrite component_pushComponentArray, component_pushComponent. }
  destruct (_ && _); intros [= <-]; simpl; [done | by rewrite Hlast].
Qed.

End FwdBufFacts.

(** X13: white space inside a token is normalised: for every input, each
    token of the output holds no white-space character other than the
    plain space, and never two spaces in a row. *)
Theorem token_spaces_normalised (s : str) :
  exists groups,
    Fwd.parseComponentValues s = Some groups /\
    Forall (Forall spacesNormalised) groups.
Proof.
  destruct (FwdFacts.run_invariant s
    (fun st => FwdBuf.bufInv spacesNormalised st /\ FwdBuf.spaceJustRead s st)
    (fun r => Forall (Forall spacesNormalised) r)) with (st := Fwd.init)
    as (groups & Hrun & H); [| | | by exists groups].
  - intros st st' [Hbuf Hsp] Hstep.
    split; [|by eapply FwdBufFacts.spaceJustRead_step].
    assert (Hnil : spacesNormalised []) by (split; [constructor | done]).
    apply (FwdBufFacts.bufInv_step spacesNormalised Hnil s st st' Hbuf);
      [| | done].
    + intros c _ Hin _ Hb _ _. destruct Hbuf as [_ _ [Hf Hd]]. split.
      * apply Forall_app. split; [done | by repeat constructor].
      * rewrite FwdBufFacts.noDoubleSpace_snoc, Hd. simpl.
        destruct (is_char (last (Fwd.component st)) " ") eqn:Hl; [|done].
        rewrite (Hsp Hin Hl) in Hb. done.
    + intros c _ _ Hc _. destruct Hbuf as [_ _ [Hf Hd]]. split.
      * apply Forall_app. split; [done |]. constructor; [|done].
        by rewrite Hc.
      * rewrite FwdBufFacts.noDoubleSpace_snoc, Hd. simpl.
        destruct (c =? " ") eqn:Heq; [|by rewrite andb_false_r].
        apply FwdBufFacts.isSpace_space_char in Heq. congruence.
  - intros st r [Hbuf _] Hret.
    apply FwdFacts.step_returns in Hret as [_ ->].
    by apply FwdBufFacts.bufInv_finish.
  - split; [apply FwdBufFacts.bufInv_init; split; [constructor | done] | done].
Qed.

Module FwdDepth.
Import Fwd FwdFacts FwdBuf.

Lemma parenDepth_pushComponent st :
  parenDepth (pushComponent st) = parenDepth st.
Proof. unfold pushComponent. by destruct (truthy _). Qed.

Lemma parenDepth_pushComponentArray st :
  parenDepth (pushComponentArray st) = parenDepth st.
Proof.
  unfold pushComponentArray. destruct (_ !! _); [|done]. by destruct (truthy _).
Qed.

Lemma inComment_pushComponent st :
  inComment (pushComponent st) = inComment st.
Proof. unfold pushComponent. by destruct (truthy _). Qed.

Lemma inComment_pushComponentArray st :
  inComment (pushComponentArray st) = inComment st.
Proof.
  unfold pushComponentArray. destruct (_ !! _); [|done]. by destruct (truthy _).
Qed.

(** Without parentheses in the input the depth stays at zero. *)
Lemma depth_step s st st' :
  noParens s -> parenDepth st = 0%Z -> step s st = inl st' ->
  parenDepth st' = 0%Z.
Proof.
  intros Hs Hd. unfold step.
  destruct (s !! pos st) as [c|] eqn:Hc; [|done].
  unfold noParens in Hs. rewrite Forall_lookup in Hs.
  destruct (Hs _ _ Hc) as [Ho Hcl]. apply Ascii.eqb_neq in Ho, Hcl.
  rewrite Ho, Hcl.
  repeat match goal with
         | |- context [if ?b then _ else _] => destruct b
         end; intros [= <-]; simpl;
    by rewrite ?parenDepth_pushComponentArray, ?parenDepth_pushComponent.
Qed.

End FwdDepth.

(** X14: when the input has no parenthesis, no token of the output holds a
    white-space character: white space only separates tokens. *)
Theorem no_parens_no_space_in_tokens (s : str) :
  noParens s ->
  exists groups,
    Fwd.parseComponentValues s = Some groups /\
    Forall (Forall (Forall (fun c => isSpace c = false))) groups.
Proof.
  intros Hs.
  destruct (FwdFacts.run_invariant s
    (fun st => FwdBuf.bufInv (Forall (fun c => isSpace c = false)) st /\
               Fwd.parenDepth st = 0%Z)
    (fun r => Forall (Forall (Forall (fun c => isSpace c = false))) r))
    with (st := Fwd.init) as (groups & Hrun & H); [| | | by exists groups].
  - intros st st' [Hbuf Hd] Hstep.
    split; [|by eapply FwdDepth.depth_step].
    apply (FwdBufFacts.bufInv_step _ (Forall_nil_2 _) s st st' Hbuf);
      [done | | done].
    intros c _ _ Hc _. destruct Hbuf as [_ _ Hf].
    apply Forall_app. split; [done | by constructor].
  - intros st r [Hbuf _] Hret.
    apply FwdFacts.step_returns in Hret as [_ ->].
    by apply FwdBufFacts.bufInv_finish; [constructor |].
  - split; [by apply FwdBufFacts.bufInv_init; constructor | done].
Qed.

Lemma no_parens_no_space_in_tokens_witness :
  exists groups,
    Fwd.parseComponentValues (lit "print  100vw, 1px") = Some groups /\
    Forall (Forall (Forall (fun c => isSpace c = false))) groups.
Proof.
  apply no_parens_no_space_in_tokens. by repeat constructor.
Defined.


Module FwdFrame.
Import Fwd FwdFacts FwdBuf.

Section Shift.

Variables (k : nat) (groups : list (list str)).

Lemma shift_pushComponent st :
  pushComponent (shift k groups st) = shift k groups (pushComponent st).
Proof. unfold pushComponent, shift. simpl. by destruct (truthy _). Qed.

Lemma shift_pushComponentArray st :
  pushComponentArray (shift k groups st) = shift k groups (pushComponentArray st).
Proof.
  unfold pushComponentArray, shift. simpl.
  destruct (_ !! _); [|done]. destruct (truthy _); [|done].
  simpl. by rewrite app_assoc.
Qed.

Lemma shift_advance n st :
  advance n (shift k groups st) = shift k groups (advance n st).
Proof. unfold advance, shift. simpl. f_equal. lia. Qed.

Lemma shift_setInComment b st :
  setInComment b (shift k groups st) = shift k groups (setInComment b st).
Proof. done. Qed.

Lemma shift_addDepth d st :
  addDepth d (shift k groups st) = shift k groups (addDepth d st).
Proof. done. Qed.

Lemma shift_append c st :
  append c (shift k groups st) = shift k groups (append c st).
Proof. done. Qed.

Variables (pre s2 : str).
Hypothesis pre_length : k = length pre.

Lemma lookup_shift (p : nat) : (pre ++ s2) !! (k + p)%nat = s2 !! p.
Proof.
  rewrite lookup_app_r by lia. f_equal. lia.
Qed.

(** A turn on the longer string, from the shifted state, is the turn on
    the shorter one. *)
Lemma step_shift st :
  (pos st = 0%nat -> component st = []) ->
  step (pre ++ s2) (shift k groups st) =
  match step s2 st with
  | inl st' => inl (shift k groups st')
  | inr r => inr (groups ++ r)
  end.
Proof.
  intros Hstart. unfold step at 1.
  change (pos (shift k groups st)) with (k + pos st)%nat.
  change (inComment (shift k groups st)) with (inComment st).
  change (component (shift k groups st)) with (component st).
  change (parenDepth (shift k groups st)) with (parenDepth st).
  rewrite lookup_shift.
  replace (k + pos st + 1)%nat with (k + (pos st + 1))%nat by lia.
  rewrite lookup_shift.
  assert (Hbefore :
    spaceRead (charBefore (pre ++ s2) (k + pos st)) || negb (truthy (component st)) =
    spaceRead (charBefore s2 (pos st)) || negb (truthy (component st))).
  { destruct (pos st) as [|q] eqn:Hq.
    - rewrite Hstart by done. simpl. by rewrite !orb_true_r.
    - rewrite Nat.add_succ_r. simpl. by rewrite lookup_shift. }
  rewrite Hbefore. unfold step.
  destruct (s2 !! pos st) as [c|].
  2: { by rewrite shift_pushComponent, shift_pushComponentArray. }
  repeat match goal with
         | |- context [if ?b then _ else _] => destruct b
         end;
    repeat first [ rewrite shift_setInComment | rewrite shift_addDepth
                 | rewrite shift_append | rewrite shift_advance
                 | rewrite shift_pushComponent | rewrite shift_pushComponentArray ];
    reflexivity.
Qed.

Lemma loop_shift (fuel : nat) : forall st,
  (pos st = 0%nat -> component st = []) ->
  loop fuel (pre ++ s2) (shift k groups st) =
  option_map (app groups) (loop fuel s2 st).
Proof.
  induction fuel as [|fuel IH]; intros st Hstart; [done |].
  simpl. rewrite step_shift by done.
  destruct (step s2 st) as [st'|r] eqn:Hs; [|done].
  apply IH. intros Hp. apply step_advances in Hs. lia.
Qed.

Lemma run_shift st :
  (pos st = 0%nat -> component st = []) ->
  run (pre ++ s2) (shift k groups st) = option_map (app groups) (run s2 st).
Proof.
  intros Hstart. unfold run.
  replace (length (pre ++ s2) - pos (shift k groups st))%nat
    with (length s2 - pos st)%nat
    by (rewrite length_app; simpl; lia).
  by apply loop_shift.
Qed.

End Shift.

(** Leading white space is passed over with empty buffers. *)
Lemma skip_leading (ws : str) : forall pre rest : str,
  Forall (fun c => isSpace c = true) ws ->
  run (pre ++ ws ++ rest) (mkState [] [] [] 0 (length pre) false) =
  run (pre ++ ws ++ rest) (mkState [] [] [] 0 (length pre + length ws) false).
Proof.
  induction ws as [|c ws IH]; intros pre rest Hws.
  - simpl. by rewrite Nat.add_0_r.
  - inversion Hws as [|?? Hc Hws']; subst.
    etrans; [apply (run_step _ _ (mkState [] [] [] 0 (length pre + 1) false))|].
    + unfold step. simpl.
      rewrite (list_lookup_middle pre (ws ++ rest) c (length pre)) by done.
      rewrite Hc. by rewrite orb_true_r.
    + replace (pre ++ (c :: ws) ++ rest) with ((pre ++ [c]) ++ ws ++ rest)
        by (by rewrite <- app_assoc).
      pose proof (IH (pre ++ [c]) rest Hws') as H.
      rewrite length_app in H. simpl in H. rewrite H.
      do 2 f_equal. simpl. lia.
Qed.

Section Prefix.

Variables (s1 s2 : str).
Hypothesis s1_noParens : noParens s1.
Hypothesis s1_noOpen : hasOpen s1 = false.

(** Before the comma, the scan of [s1 ++ "," :: s2] is the scan of [s1]. *)
Lemma prefix_step st :
  (pos st < length s1)%nat -> inComment st = false ->
  step (s1 ++ "," :: s2) st = step s1 st /\
  exists st',
    step s1 st = inl st' /\ pos st' = (pos st + 1)%nat /\ inComment st' = false.
Proof.
  intros Hp Hin.
  assert (Hcur : (s1 ++ "," :: s2) !! pos st = s1 !! pos st)
    by (by apply lookup_app_l).
  assert (Hnext : is_char ((s1 ++ "," :: s2) !! (pos st + 1)%nat) "*" =
                  is_char (s1 !! (pos st + 1)%nat) "*").
  { destruct (decide (pos st + 1 < length s1)%nat) as [Hlt|Hge].
    - by rewrite lookup_app_l.
    - replace (pos st + 1)%nat with (length s1) by lia.
      rewrite list_lookup_middle by done.
      by rewrite (proj2 (lookup_ge_None s1 (length s1))). }
  assert (Hprev : charBefore (s1 ++ "," :: s2) (pos st) = charBefore s1 (pos st)).
  { destruct (pos st) as [|q] eqn:Hq; [done |]. simpl.
    apply lookup_app_l. lia. }
  destruct (s1 !! pos st) as [c|] eqn:Hc.
  2: { apply lookup_ge_None in Hc. lia. }
  assert (Hslash : (c =? "/") && is_char (s1 !! (pos st + 1)%nat) "*" = false).
  { destruct (c =? "/") eqn:Heq; [|done]. apply Ascii.eqb_eq in Heq as ->.
    simpl. by apply Agreement.hasOpen_lookup. }
  split.
  - unfold step. rewrite Hcur, Hc, Hin, Hprev, Hnext. reflexivity.
  - unfold step. rewrite Hc, Hin, Hslash.
    repeat match goal with
           | |- context [if ?b then _ else _] => destruct b
           end;
      eexists; (split; [reflexivity |]); simpl;
      by rewrite ?FwdInv.pos_pushComponentArray, ?FwdInv.pos_pushComponent,
        ?FwdDepth.inComment_pushComponentArray, ?FwdDepth.inComment_pushComponent.
Qed.

Lemma prefix_run (n : nat) : forall st,
  (pos st + n = length s1)%nat -> inComment st = false ->
  FwdSpec.wf st -> parenDepth st = 0%Z ->
  exists stE,
    pos stE = length s1 /\ inComment stE = false /\ FwdSpec.wf stE /\
    parenDepth stE = 0%Z /\
    run (s1 ++ "," :: s2) st = run (s1 ++ "," :: s2) stE /\
    run s1 st = run s1 stE.
Proof.
  induction n as [|n IH]; intros st Hp Hin Hwf Hd.
  - exists st. split; [lia |]. by repeat (split; [done |]).
  - destruct (prefix_step st) as (Heq & st' & Hs & Hp' & Hin'); [lia | done |].
    destruct (IH st') as (stE & ? & ? & ? & ? & Hr & Hr1).
    + lia.
    + done.
    + by eapply FwdInv.wf_step.
    + by eapply FwdDepth.depth_step.
    + exists stE. do 4 (split; [done |]). split.
      * rewrite <- Hr. apply run_step. by rewrite Heq.
      * rewrite <- Hr1. by apply run_step.
Qed.

End Prefix.

End FwdFrame.

(** X16: a comma cuts the work of the tokenizer in two: when the part
    before the comma has no parenthesis and opens no comment, the groups of
    [s1 ++ "," ++ s2] are the groups of [s1] followed by the groups of
    [s2]; with [s2] empty, a trailing comma changes nothing. *)
Theorem comma_splits_tokenization (s1 s2 : str) :
  noParens s1 -> hasOpen s1 = false ->
  exists g1 g2,
    Fwd.parseComponentValues s1 = Some g1 /\
    Fwd.parseComponentValues s2 = Some g2 /\
    Fwd.parseComponentValues (s1 ++ "," :: s2) = Some (g1 ++ g2).
Proof.
  intros Hnp Hno.
  destruct (FwdFrame.prefix_run s1 s2 Hnp Hno (length s1) Fwd.init)
    as (stE & Hpos & Hin & Hwf & Hd & Hr & Hr1);
    [done | done | apply FwdInv.wf_init | done |].
  destruct (FwdFacts.parseComponentValues_total s2) as [g2 Hg2].
  exists (finish stE), g2. unfold Fwd.parseComponentValues.
  split; [|split; [done |]].
  - rewrite Hr1. apply FwdFacts.run_return. rewrite Hpos.
    by apply lookup_ge_None.
  - rewrite Hr.
    pose proof (FwdTokens.flush_spec stE Hwf) as (E1 & E2 & _ & E4 & E5 & E6).
    etrans; [apply (FwdFacts.run_step _ _
      (FwdBuf.shift (length s1 + 1) (finish stE) Fwd.init))|].
    + unfold Fwd.step. rewrite Hpos, list_lookup_middle, Hin by done. simpl.
      f_equal. unfold finish, FwdBuf.shift, Fwd.advance.
      destruct (Fwd.pushComponentArray (Fwd.pushComponent stE)); simpl in *.
      by rewrite E1, E2, E4, E5, E6, Hd, Hin, Hpos, app_nil_r, Nat.add_0_r.
    + replace (s1 ++ "," :: s2) with ((s1 ++ [","]) ++ s2)
        by (by rewrite <- app_assoc).
      rewrite (FwdFrame.run_shift (length s1 + 1) (finish stE) (s1 ++ [","]) s2)
        by (by rewrite ?length_app).
      unfold Fwd.parseComponentValues in Hg2. by rewrite Hg2.
Qed.

Lemma comma_splits_tokenization_witness :
  exists g1 g2,
    Fwd.parseComponentValues (lit "print 100vw") = Some g1 /\
    Fwd.parseComponentValues (lit " (min-width:0) 1px") = Some g2 /\
    Fwd.parseComponentValues (lit "print 100vw, (min-width:0) 1px") =
    Some (g1 ++ g2).
Proof.
  apply (comma_splits_tokenization (lit "print 100vw") (lit " (min-width:0) 1px")).
  - by repeat constructor.
  - done.
Defined.

(** X17: white space at the start of the input is ignored: the groups of
    [ws ++ s], for [ws] made of white-space characters, are the groups of
    [s]. *)
Theorem leading_space_ignored (ws s : str) :
  Forall (fun c => isSpace c = true) ws ->
  Fwd.parseComponentValues (ws ++ s) = Fwd.parseComponentValues s.
Proof.
  intros Hws. unfold Fwd.parseComponentValues.
  pose proof (FwdFrame.skip_leading ws [] s Hws) as H. simpl in H.
  etrans; [exact H |].
  pose proof (FwdFrame.run_shift (length ws) [] ws s eq_refl Fwd.init
                (fun _ => eq_refl)) as H'.
  unfold FwdBuf.shift in H'. simpl in H'. rewrite Nat.add_0_r in H'.
  rewrite H'. by destruct (Fwd.run s Fwd.init).
Qed.

Lemma leading_space_ignored_witness :
  Fwd.parseComponentValues (lit "   calc(5px + 5px)") =
  Fwd.parseComponentValues (lit "calc(5px + 5px)").
Proof.
  apply (leading_space_ignored (lit "   ") (lit "calc(5px + 5px)")).
  by repeat constructor.
Defined.

(** * Further properties of the selection loop and of whole calls *)

Module FwdSelectFacts.
Import Fwd.

(** What the loop adds to the log. *)
Lemma forEach_log (h : host) (strValue : str) (groups : list (list str)) :
  forall (size : value) (log : list str),
    exists added,
      snd (forEach h strValue size log groups) = log ++ added /\
      Forall (fun m => m = parseErrorMessage strValue) added /\
      (console h = false -> added = []) /\
      (length added <= length groups)%nat.
Proof.
  induction groups as [|g rest IH]; intros size log.
  { exists []. simpl. by rewrite app_nil_r. }
  assert (Hrest : forall size' : value,
    exists added,
      snd (forEach h strValue size' log rest) = log ++ added /\
      Forall (fun m => m = parseErrorMessage strValue) added /\
      (console h = false -> added = []) /\
      (length added <= length (g :: rest))%nat).
  { intros size'. destruct (IH size' log) as (added & ? & ? & ? & ?).
    exists added. repeat split; try done. simpl. lia. }
  assert (Hnone : exists added,
      log = log ++ added /\
      Forall (fun m => m = parseErrorMessage strValue) added /\
      (console h = false -> added = []) /\
      (length added <= length (g :: rest))%nat).
  { exists []. rewrite app_nil_r. repeat split; try done. simpl. lia. }
  assert (Hstep3 : forall (size' : value) (u : list str),
    exists added,
      snd (if (length u =? 0)%nat
           then (size',
                 if negb (length rest =? 0)%nat && console h
                 then log ++ [parseErrorMessage strValue] else log)
           else if negb (matchMedia h (join_space u))
                then forEach h strValue size' log rest
                else (size', log)) = log ++ added /\
      Forall (fun m => m = parseErrorMessage strValue) added /\
      (console h = false -> added = []) /\
      (length added <= length (g :: rest))%nat).
  { intros size' u. destruct (length u =? 0)%nat.
    - simpl. destruct (negb _ && console h) eqn:Hb; [|done].
      apply andb_true_iff in Hb as [_ Hc].
      exists [parseErrorMessage strValue]. repeat split.
      + by repeat constructor.
      + intros Hc'. congruence.
      + simpl. lia.
    - destruct (negb _); [apply Hrest | done]. }
  simpl. destruct (validLast (last g)); [apply Hstep3 |].
  destruct (console h) eqn:Hc; [|apply Hstep3].
  destruct (IH size (log ++ [parseErrorMessage strValue]))
    as (added & Heq & Hall & _ & Hlen).
  exists (parseErrorMessage strValue :: added). repeat split.
  - rewrite Heq. by rewrite <- app_assoc.
  - by constructor.
  - done.
  - simpl. lia.
Qed.

(** With a console the groups whose last token is not a valid size, and
    the [size] and log the loop starts with, have no part in the value. *)
Lemma forEach_filter (h : host) (strValue : str) (groups : list (list str)) :
  console h = true ->
  forall (size size' : value) (log log' : list str),
    fst (forEach h strValue size log groups) =
    fst (forEach h strValue size' log'
           (List.filter (fun g => validLast (last g)) groups)).
Proof.
  intros Hc. induction groups as [|g rest IH]; intros size size' log log'; [done |].
  simpl. destruct (validLast (last g)) eqn:Hv.
  - simpl. rewrite Hv.
    destruct (length (removelast g) =? 0)%nat; [done |].
    destruct (matchMedia h _); simpl; [done | apply IH].
  - rewrite Hc. apply IH.
Qed.

Lemma last_snoc_list (media : list str) (tok : str) :
  last (media ++ [tok]) = Some tok /\ removelast (media ++ [tok]) = media.
Proof. split; [apply last_snoc | apply removelast_last]. Qed.

End FwdSelectFacts.

(** X18: on a host with a console, the forward revision returns the
    default ["100vw"] or the last token of one of the groups of its input,
    a token its validator accepts. *)
Theorem fwd_result_valid_with_console (h : host) (s : str) :
  console h = true ->
  exists groups v log,
    Fwd.parseComponentValues s = Some groups /\
    Fwd.parseSizes h (VString s) = Returned v log /\
    (v = VString (lit "100vw") \/
     exists g tok,
       In g groups /\ last g = Some tok /\
       isValidNonNegativeSourceSizeValue tok = true /\ v = VString tok).
Proof. apply FwdCalls.parseSizes_result_with_console. Qed.

Lemma fwd_result_valid_with_console_witness :
  exists groups v log,
    Fwd.parseComponentValues (lit "print 1px, foo, 50vw") = Some groups /\
    Fwd.parseSizes (mkHost true (fun _ => false))
                   (VString (lit "print 1px, foo, 50vw")) = Returned v log /\
    (v = VString (lit "100vw") \/
     exists g tok,
       In g groups /\ last g = Some tok /\
       isValidNonNegativeSourceSizeValue tok = true /\ v = VString tok).
Proof.
  apply (fwd_result_valid_with_console (mkHost true (fun _ => false))).
  reflexivity.
Defined.

(** X19: every line the forward revision writes to the console is
    ["Parse error: "] followed by the attribute; it writes at most one line
    per group, and none on a host without a console. *)
Theorem fwd_log_messages (h : host) (s : str) :
  exists groups v log,
    Fwd.parseComponentValues s = Some groups /\
    Fwd.parseSizes h (VString s) = Returned v log /\
    Forall (fun m => m = parseErrorMessage s) log /\
    (length log <= length groups)%nat /\
    (console h = false -> log = []).
Proof.
  destruct (FwdFacts.parseComponentValues_total s) as [groups Hg].
  destruct (FwdSelectFacts.forEach_log h s groups VUndefined [])
    as (added & Heq & Hall & Hnone & Hlen).
  unfold Fwd.parseSizes. rewrite Hg.
  destruct (Fwd.forEach h s VUndefined [] groups) as [v log].
  simpl in Heq. subst log. by exists groups, v, added.
Qed.



(** X22: on a host with a console, the groups whose last token is not a
    valid size have no part in the value returned: dropping them all from
    the list gives the same value, whatever [size] and log the loop starts
    with. *)
Theorem invalid_groups_ignored_with_console (h : host) (strValue : str)
    (groups : list (list str)) (size size' : value) (log log' : list str) :
  console h = true ->
  fst (Fwd.forEach h strValue size log groups) =
  fst (Fwd.forEach h strValue size' log'
         (List.filter (fun g => Fwd.validLast (last g)) groups)).
Proof. intros Hc. by apply FwdSelectFacts.forEach_filter. Qed.

Lemma invalid_groups_ignored_with_console_witness :
  fst (Fwd.forEach (mkHost true (fun _ => true)) (lit "all, foo bar, 1px")
         VUndefined [] [[lit "all"]; [lit "foo"; lit "bar"]; [lit "1px"]]) =
  fst (Fwd.forEach (mkHost true (fun _ => true)) (lit "all, foo bar, 1px")
         (VString (lit "9px")) [lit "x"] [[lit "1px"]]).
Proof.
  apply (invalid_groups_ignored_with_console (mkHost true (fun _ => true))
           (lit "all, foo bar, 1px")
           [[lit "all"]; [lit "foo"; lit "bar"]; [lit "1px"]]).
  reflexivity.
Defined.

(** X23: on a single component value that the two validators treat alike,
    the two revisions return the same value, provided the host has a
    console or the token is valid. *)
Theorem revisions_agree_on_single_component (h : host) (s : str) :
  singleToken s ->
  isValidNonNegativeSourceSizeValue s = Bwd.isValidNonNegativeSourceSizeValue s ->
  console h = true \/ isValidNonNegativeSourceSizeValue s = true ->
  returnedValue (Fwd.parseSizes h (VString s)) =
  returnedValue (Bwd.parseSizes h (VString s)).
Proof. apply Agreement.revisions_agree_on_single_token. Qed.

Lemma revisions_agree_on_single_component_witness :
  returnedValue (Fwd.parseSizes legacyHost (VString (lit "calc(1px+2px)"))) =
  returnedValue (Bwd.parseSizes legacyHost (VString (lit "calc(1px+2px)"))).
Proof.
  apply revisions_agree_on_single_component.
  - split; [by repeat constructor | done].
  - by vm_compute.
  - right. by vm_compute.
Defined.

(** X24: the forward revision passes the tests of the groups "No media
    condition", "calc() function" and "Disallowed css-length units" on
    every host that has a console, and those of "CSS style comments" too
    when the host matches neither ["5"] nor ["-"] as a media query. *)
Theorem fwd_passes_tests (h : host) :
  console h = true ->
  matchMedia h (lit "5") = false -> matchMedia h (lit "-") = false ->
  forallb (runTest (Fwd.parseSizes h))
          (testsNoMediaCondition ++ testsCalc ++ testsDisallowedUnits ++
           testsComments) = true.
Proof.
  destruct h as [c f]. cbn [console matchMedia]. intros -> H5 Hm.
  vm_compute in H5, Hm |- *. by rewrite H5, Hm.
Qed.

Lemma fwd_passes_tests_witness :
  forallb (runTest (Fwd.parseSizes (mkHost true (fun _ => false))))
          (testsNoMediaCondition ++ testsCalc ++ testsDisallowedUnits ++
           testsComments) = true.
Proof.
  apply (fwd_passes_tests (mkHost true (fun _ => false))); reflexivity.
Defined.

(** X25: the backward revision passes the tests of the groups "No media
    condition" and "Disallowed css-length units" on every host; of the five
    tests of "calc() function" it passes the first three and fails the two
    that have a dot. *)
Theorem bwd_passes_tests (h : host) :
  forallb (runTest (Bwd.parseSizes h))
          (testsNoMediaCondition ++ testsDisallowedUnits) = true /\
  map (runTest (Bwd.parseSizes h)) testsCalc = [true; true; true; false; false].
Proof. destruct h as [c f]. split; by vm_compute. Qed.

(** * Component values kept whole, and one-candidate attributes *)

Module FwdKept.
Import Fwd FwdFacts.

Lemma is_char_head_app (m rest : str) (x : ascii) :
  is_char (head (m ++ rest)) x =
  match m with
  | [] => is_char (head rest) x
  | _ :: _ => is_char (head m) x
  end.
Proof. by destruct m. Qed.

(** A kept component that ends in a space leaves the depth away from
    zero. *)
Lemma kept_last_space (m : str) : forall (d d' : Z) (b : bool),
  keptDepth d b m = Some d' -> spaceRead (last m) = true -> d' <> 0%Z.
Proof.
  induction m as [|c m IH]; intros d d' b Hk Hl; [done |].
  destruct m as [|c' m].
  - simpl in Hl, Hk. rewrite Hl in Hk.
    destruct (_ && _) eqn:Hb; [|done]. injection Hk as <-.
    apply andb_true_iff in Hb as [_ Hd]. apply negb_true_iff in Hd.
    by apply Z.eqb_neq.
  - rewrite last_cons_cons in Hl. remember (c' :: m) as m0. simpl in Hk.
    destruct (isSpace c).
    + destruct (_ && _); [by eapply IH | done].
    + destruct (c =? "("); [by eapply IH |].
      destruct (c =? ")"); [by eapply IH |].
      destruct (c =? ","); [done | by eapply IH].
Qed.

(** The characters of a kept component are appended one by one. *)
Lemma scan_kept (rest m : str) : forall (pre acc : str) (d d' : Z) (b : bool) st,
  pos st = length pre -> component st = acc -> inComment st = false ->
  parenDepth st = d ->
  keptDepth d b m = Some d' -> hasOpen m = false ->
  is_char (head rest) "*" = false ->
  b = spaceRead (charBefore (pre ++ m ++ rest) (pos st)) || negb (truthy acc) ->
  run (pre ++ m ++ rest) st =
  run (pre ++ m ++ rest)
      (mkState (acc ++ m) (componentArray st) (listArray st) d'
               (length pre + length m) false).
Proof.
  induction m as [|c m IH]; intros pre acc d d' b st Hpos Hacc Hin Hd Hk Ho Hr Hb.
  - simpl in Hk. injection Hk as <-. f_equal.
    destruct st; simpl in *. subst. by rewrite app_nil_r, Nat.add_0_r.
  - simpl in Ho. apply orb_false_iff in Ho as [Hslash Ho].
    assert (Hcur : (pre ++ (c :: m) ++ rest) !! pos st = Some c).
    { rewrite Hpos. by apply list_lookup_middle. }
    assert (Hnext : is_char ((pre ++ (c :: m) ++ rest) !! (pos st + 1)%nat) "*" =
                    is_char (head (m ++ rest)) "*").
    { rewrite Hpos. simpl. by rewrite FwdComments.lookup_second. }
    assert (Hopen : (c =? "/") && is_char (head (m ++ rest)) "*" = false).
    { rewrite is_char_head_app. destruct m; [|done].
      rewrite Hr. by rewrite andb_false_r. }
    assert (Hstep : exists dn,
      step (pre ++ (c :: m) ++ rest) st =
        inl (mkState (acc ++ [c]) (componentArray st) (listArray st) dn
                     (pos st + 1) false) /\
      keptDepth dn (isSpace c) m = Some d').
    { unfold step. rewrite Hcur, Hin, Hnext, Hacc, Hd. simpl in Hk.
      destruct (isSpace c) eqn:Hsp.
      - destruct (_ && _) eqn:Hcond; [|done].
        apply andb_true_iff in Hcond as [Hcond Hdz].
        apply andb_true_iff in Hcond as [Hc Hbf].
        apply Ascii.eqb_eq in Hc as ->. apply negb_true_iff in Hbf, Hdz.
        rewrite <- Hb, Hbf, Hdz. exists d. split; [|done].
        unfold advance, append. simpl. by rewrite ?Hacc, ?Hin, ?Hd.
      - destruct (c =? "(").
        { exists (d + 1)%Z. split; [|done].
          unfold advance, append, addDepth. simpl. by rewrite ?Hacc, ?Hin, ?Hd. }
        destruct (c =? ")").
        { exists (d + -1)%Z. split; [|done].
          unfold advance, append, addDepth. simpl. by rewrite ?Hacc, ?Hin, ?Hd. }
        destruct (c =? ","); [done |]. rewrite Hopen.
        exists d. split; [|done].
        unfold advance, append. simpl. by rewrite ?Hacc, ?Hin, ?Hd. }
    destruct Hstep as (dn & Hstep & Hk').
    etrans; [by apply (run_step _ _ _ Hstep) |].
    replace (pre ++ (c :: m) ++ rest) with ((pre ++ [c]) ++ m ++ rest)
      by (by rewrite <- app_assoc).
    rewrite (IH (pre ++ [c]) (acc ++ [c]) dn d' (isSpace c)); simpl.
    + do 2 f_equal; [by rewrite <- app_assoc | rewrite length_app; simpl; lia].
    + rewrite length_app. simpl. lia.
    + done.
    + done.
    + done.
    + done.
    + done.
    + done.
    + rewrite FwdBufFacts.charBefore_next.
      replace ((pre ++ [c]) ++ m ++ rest) with (pre ++ (c :: m) ++ rest)
        by (by rewrite <- app_assoc).
      rewrite Hcur. simpl. destruct acc; simpl; by rewrite orb_false_r.
Qed.

(** A component value in normal form, alone, is one group of one token. *)
Lemma whole_component_alone (s : str) (d : Z) :
  wholeComponent s d -> parseComponentValues s = Some [[s]].
Proof.
  intros (Hne & Ho & Hk). unfold parseComponentValues.
  pose proof (scan_kept [] s [] [] 0 d true init eq_refl eq_refl eq_refl eq_refl
                Hk Ho eq_refl eq_refl) as H.
  simpl in H. rewrite app_nil_r in H. rewrite H.
  rewrite run_return by (simpl; by apply lookup_ge_None).
  unfold pushComponentArray, pushComponent. simpl.
  by destruct s.
Qed.

(** Two component values in normal form, the first closed at depth zero,
    with one white-space character between them, are one group of two
    tokens. *)
Lemma two_components (m tok : str) (w : ascii) (d : Z) :
  wholeComponent m 0 -> wholeComponent tok d -> isSpace w = true ->
  parseComponentValues (m ++ w :: tok) = Some [[m; tok]].
Proof.
  intros (Hm & Hom & Hkm) (Ht & Hot & Hkt) Hw. unfold parseComponentValues.
  assert (Hnotstar : is_char (Some w) "*" = false).
  { simpl. destruct (w =? "*") eqn:Heq; [|done].
    apply Ascii.eqb_eq in Heq as ->. done. }
  pose proof (scan_kept (w :: tok) m [] [] 0 0 true init eq_refl eq_refl eq_refl
                eq_refl Hkm Hom Hnotstar eq_refl) as H.
  simpl in H. rewrite H. clear H.
  assert (Hlast : spaceRead (last m) = false).
  { destruct (spaceRead (last m)) eqn:Hl; [|done].
    by apply (kept_last_space m _ _ _ Hkm) in Hl. }
  etrans; [apply (run_step _ _ (mkState [] [m] [] 0 (length m + 1) false))|].
  { unfold step. cbn [pos inComment component parenDepth].
    rewrite list_lookup_middle by done. rewrite Hw.
    assert (charBefore (m ++ w :: tok) (length m) = last m) as ->.
    { destruct m as [|c0 m0] using rev_ind; [done |].
      rewrite length_app, last_snoc. simpl. rewrite Nat.add_1_r. simpl.
      rewrite <- app_assoc. cbn [app]. by rewrite list_lookup_middle. }
    rewrite Hlast. destruct m; [done |]. reflexivity. }
  replace (m ++ w :: tok) with ((m ++ [w]) ++ tok ++ [])
    by (by rewrite app_nil_r, <- app_assoc).
  pose proof (scan_kept [] tok (m ++ [w]) [] 0 d true
                (mkState [] [m] [] 0 (length m + 1) false)) as H.
  simpl in H. rewrite H; try done.
  - rewrite run_return.
    + unfold pushComponentArray, pushComponent. simpl.
      destruct tok; [done |]. simpl. by destruct m.
    + simpl. apply lookup_ge_None. rewrite !length_app. simpl. lia.
  - by rewrite length_app.
  - rewrite FwdBufFacts.charBefore_next.
    rewrite <- app_assoc. simpl. rewrite list_lookup_middle by done.
    simpl. by rewrite Hw.
Qed.

End FwdKept.

(** X15: a component value in normal form (not empty; no comma and no
    comment opener; white space only as single plain spaces at a paren
    depth other than zero), alone in the attribute, is tokenized as one
    group holding that one token, character for character. *)
Theorem whole_component_kept (s : str) (d : Z) :
  wholeComponent s d -> Fwd.parseComponentValues s = Some [[s]].
Proof. apply FwdKept.whole_component_alone. Qed.

Lemma whole_component_kept_witness :
  Fwd.parseComponentValues (lit "calc((5px + 5px)*2)") =
  Some [[lit "calc((5px + 5px)*2)"]].
Proof.
  apply (whole_component_kept (lit "calc((5px + 5px)*2)") 0).
  by repeat split.
Defined.

(** X20: such a component value, when it is a valid size and alone in the
    attribute, is returned as it is by the forward revision, on every host,
    and nothing is logged. *)
Theorem lone_valid_size_returned (h : host) (s : str) (d : Z) :
  wholeComponent s d -> isValidNonNegativeSourceSizeValue s = true ->
  Fwd.parseSizes h (VString s) = Returned (VString s) [].
Proof.
  intros Hs Hv. unfold Fwd.parseSizes.
  rewrite (FwdKept.whole_component_alone s d Hs).
  cbn [Fwd.forEach last Fwd.validLast Fwd.readValue]. rewrite Hv. by cbn.
Qed.

Lemma lone_valid_size_returned_witness :
  Fwd.parseSizes legacyHost (VString (lit "calc(200px * 1.4)")) =
  Returned (VString (lit "calc(200px * 1.4)")) [].
Proof.
  apply (lone_valid_size_returned legacyHost (lit "calc(200px * 1.4)") 0).
  - by repeat split.
  - by vm_compute.
Defined.

(** X21: an attribute made of one media condition and one size, two
    component values in normal form separated by one white-space character,
    the condition closed at depth zero, is tokenized as one group of
    exactly these two tokens. *)
Theorem condition_and_size_tokenized (m tok : str) (w : ascii) (d : Z) :
  wholeComponent m 0 -> wholeComponent tok d -> isSpace w = true ->
  Fwd.parseComponentValues (m ++ w :: tok) = Some [[m; tok]].
Proof. apply FwdKept.two_components. Qed.

Lemma condition_and_size_tokenized_witness :
  Fwd.parseComponentValues (lit "(min-width: 5px) 30vw") =
  Some [[lit "(min-width: 5px)"; lit "30vw"]].
Proof.
  apply (condition_and_size_tokenized (lit "(min-width: 5px)") (lit "30vw") " " 0).
  - by repeat split.
  - by repeat split.
  - done.
Defined.

(** X26: for such a one-candidate attribute whose size is valid, the
    forward revision asks the host about the media condition exactly as it
    is written, and returns the size when it matches and ["100vw"] when it
    does not, on every host and with nothing logged. *)
Theorem one_candidate_selected (h : host) (m tok : str) (w : ascii) (d : Z) :
  wholeComponent m 0 -> wholeComponent tok d -> isSpace w = true ->
  isValidNonNegativeSourceSizeValue tok = true ->
  Fwd.parseSizes h (VString (m ++ w :: tok)) =
  Returned (VString (if matchMedia h m then tok else lit "100vw")) [].
Proof.
  intros Hm Ht Hw Hv. unfold Fwd.parseSizes.
  rewrite (FwdKept.two_components m tok w d Hm Ht Hw).
  cbn [Fwd.forEach last Fwd.validLast Fwd.readValue]. rewrite Hv.
  cbn [removelast length Nat.eqb join_space].
  by destruct (matchMedia h m).
Qed.

Lemma one_candidate_selected_witness :
  Fwd.parseSizes legacyHost (VString (lit "(min-width:0) calc(1px)")) =
  Returned (VString (lit "calc(1px)")) [].
Proof.
  apply (one_candidate_selected legacyHost (lit "(min-width:0)") (lit "calc(1px)")
           " " 0).
  - by repeat split.
  - by repeat split.
  - done.
  - by vm_compute.
Defined.

(** * Where the tokens come from *)

Module FwdPosFacts.
Import Fwd FwdFacts FwdPos.

(** ** Slices and tokens *)

Lemma slice_snoc (s : str) (p q : nat) (c : ascii) :
  (p <= q)%nat -> s !! q = Some c -> slice p (S q) s = slice p q s ++ [c].
Proof.
  intros Hpq Hc. unfold slice.
  replace (S q - p)%nat with (S (q - p)) by lia.
  apply take_S_r. rewrite lookup_drop.
  by replace (p + (q - p))%nat with q by lia.
Qed.

Lemma slice_last (s : str) (p q : nat) (c : ascii) :
  (p <= q)%nat -> s !! q = Some c -> last (slice p (S q) s) = Some c.
Proof. intros Hpq Hc. by rewrite (slice_snoc s p q c), last_snoc. Qed.

Lemma slice_empty (s : str) (p : nat) : slice p p s = [].
Proof. unfold slice. by rewrite Nat.sub_diag. Qed.

Lemma collapse_snoc (t : str) : forall (b : bool) (c : ascii),
  collapse b (t ++ [c]) =
  collapse b t ++
  (if isSpace c
   then if match last t with Some x => isSpace x | None => b end
        then [] else [" "]
   else [c]).
Proof.
  induction t as [|x t IH]; intros b c.
  - simpl. by destruct (isSpace c), b.
  - rewrite last_cons. simpl.
    destruct (isSpace x) eqn:Hx.
    + destruct b; rewrite IH; destruct (last t); simpl; by rewrite ?Hx.
    + rewrite IH. destruct (last t); simpl; by rewrite ?Hx.
Qed.

Lemma tokenOf_first (s : str) (q : nat) (c : ascii) :
  s !! q = Some c -> isSpace c = false -> tokenOf s (q, S q) = [c].
Proof.
  intros Hc Hsp. unfold tokenOf. simpl.
  rewrite (slice_snoc s q q c), slice_empty by done. simpl. by rewrite Hsp.
Qed.

Lemma tokenOf_keep (s : str) (p q : nat) (c : ascii) :
  (p <= q)%nat -> s !! q = Some c -> isSpace c = false ->
  tokenOf s (p, S q) = tokenOf s (p, q) ++ [c].
Proof.
  intros Hpq Hc Hsp. unfold tokenOf. simpl.
  rewrite (slice_snoc s p q c), collapse_snoc by done. by rewrite Hsp.
Qed.

Lemma tokenOf_space (s : str) (p q : nat) (c : ascii) :
  (p < q)%nat -> s !! q = Some c -> isSpace c = true ->
  tokenOf s (p, S q) =
  tokenOf s (p, q) ++ (if spaceRead (charBefore s q) then [] else [" "]).
Proof.
  intros Hpq Hc Hsp. unfold tokenOf. simpl.
  rewrite (slice_snoc s p q c), collapse_snoc by (done || lia). rewrite Hsp.
  destruct q as [|q']; [lia |]. simpl.
  destruct (s !! q') as [x|] eqn:Hx.
  - by rewrite (slice_last s p q' x) by (done || lia).
  - apply lookup_ge_None in Hx. apply lookup_lt_Some in Hc. lia.
Qed.

Lemma collapse_nonempty (b : bool) (t : str) (c : ascii) :
  isSpace c = false -> collapse b (c :: t) <> [].
Proof. intros Hc. simpl. by rewrite Hc. Qed.

Lemma tokenOf_nonempty (s : str) (p q : nat) :
  (p < q)%nat -> (q <= length s)%nat -> tokenOf s (p, q) <> [].
Proof.
  intros Hpq Hq. unfold tokenOf, slice. simpl.
  destruct (drop p s) as [|x r] eqn:Hd.
  - apply (f_equal length) in Hd. rewrite length_drop in Hd. simpl in Hd. lia.
  - destruct (q - p)%nat as [|n] eqn:Hn; [lia |]. simpl.
    destruct (isSpace x); done.
Qed.

(** ** Chains of intervals *)

Lemma chain_le (l : list (nat * nat)) : forall lo hi,
  chain lo l hi -> (lo <= hi)%nat.
Proof.
  induction l as [|iv l IH]; intros lo hi; simpl; [done |].
  intros (H1 & H2 & H3). apply IH in H3. lia.
Qed.

Lemma chain_weaken (l : list (nat * nat)) : forall lo hi hi',
  chain lo l hi -> (hi <= hi')%nat -> chain lo l hi'.
Proof.
  induction l as [|iv l IH]; intros lo hi hi'; simpl; [lia |].
  intros (H1 & H2 & H3) Hle. repeat split; try done. by eapply IH.
Qed.

Lemma chain_snoc (l : list (nat * nat)) : forall lo p q,
  chain lo l p -> (p < q)%nat -> chain lo (l ++ [(p, q)]) q.
Proof.
  induction l as [|iv l IH]; intros lo p q; simpl; [lia |].
  intros (H1 & H2 & H3) Hlt. repeat split; try done. by apply IH.
Qed.

Lemma chain_grow (l : list (nat * nat)) : forall lo p q q' hi hi',
  chain lo (l ++ [(p, q)]) hi -> (q <= q')%nat -> (q' <= hi')%nat ->
  chain lo (l ++ [(p, q')]) hi'.
Proof.
  induction l as [|iv l IH]; intros lo p q q' hi hi'; simpl; [lia |].
  intros (H1 & H2 & H3) Hq Hhi. repeat split; try done. by eapply IH.
Qed.

Lemma chain_In (l : list (nat * nat)) : forall lo hi iv,
  chain lo l hi -> In iv l -> (lo <= fst iv /\ fst iv < snd iv /\ snd iv <= hi)%nat.
Proof.
  induction l as [|x l IH]; intros lo hi iv; simpl; [done |].
  intros (H1 & H2 & H3) [->|Hin].
  - apply chain_le in H3. lia.
  - destruct (IH _ _ _ H3 Hin). lia.
Qed.

(** ** The comment mask *)

Lemma drop_cons_inv {A} (l : list A) (n : nat) (x : A) (r : list A) :
  drop n l = x :: r -> l !! n = Some x /\ drop (S n) l = r.
Proof.
  intros H. split.
  - rewrite <- (Nat.add_0_r n), <- lookup_drop. by rewrite H.
  - replace (S n) with (n + 1)%nat by lia. rewrite <- drop_drop. by rewrite H.
Qed.

Lemma head_drop_next (s : str) (p : nat) : head (drop (S p) s) = s !! (p + 1)%nat.
Proof.
  rewrite head_lookup, lookup_drop. f_equal. lia.
Qed.

(** What the mask says at the index of a scan, in each of the four cases
    the loop distinguishes. *)
Lemma mask_at (s : str) (p : nat) (inC : bool) (c : ascii) :
  drop p (commentMask false s) = commentMask inC (drop p s) ->
  s !! p = Some c ->
  let M := commentMask false s in
  if inC then
    if (c =? "*") && is_char (s !! (p + 1)%nat) "/"
    then M !! p = Some true /\ M !! (p + 1)%nat = Some true /\
         drop (p + 2) M = commentMask false (drop (p + 2) s)
    else M !! p = Some true /\
         drop (p + 1) M = commentMask true (drop (p + 1) s)
  else
    if (c =? "/") && is_char (s !! (p + 1)%nat) "*"
    then M !! p = Some true /\ M !! (p + 1)%nat = Some true /\
         drop (p + 2) M = commentMask true (drop (p + 2) s)
    else M !! p = Some false /\
         drop (p + 1) M = commentMask false (drop (p + 1) s).
Proof.
  intros Hm Hc M. fold M in Hm.
  rewrite (drop_S _ _ _ Hc) in Hm.
  rewrite <- head_drop_next.
  replace (p + 1)%nat with (S p) by lia.
  replace (p + 2)%nat with (S (S p)) by lia.
  destruct (drop (S p) s) as [|d r] eqn:Hd.
  - assert (Hdd : drop (S (S p)) s = []).
    { replace (S (S p)) with (S p + 1)%nat by lia. by rewrite <- drop_drop, Hd. }
    simpl in *. rewrite ?andb_false_r.
    apply drop_cons_inv in Hm as [H1 H2]. by destruct inC.
  - assert (Hdd : drop (S (S p)) s = r).
    { replace (S (S p)) with (S p + 1)%nat by lia. by rewrite <- drop_drop, Hd. }
    cbn [head is_char]. cbn [commentMask] in Hm.
    destruct inC.
    + destruct ((c =? "*") && (d =? "/")).
      * apply drop_cons_inv in Hm as [H1 Hm].
        apply drop_cons_inv in Hm as [H2 Hm]. by rewrite Hdd.
      * by apply drop_cons_inv in Hm as [H1 Hm].
    + destruct ((c =? "/") && (d =? "*")).
      * apply drop_cons_inv in Hm as [H1 Hm].
        apply drop_cons_inv in Hm as [H2 Hm]. by rewrite Hdd.
      * by apply drop_cons_inv in Hm as [H1 Hm].
Qed.

(** ** The intervals of a state *)

Lemma intervals_pushed o : intervals (pushed o) = intervals o.
Proof. unfold intervals, opened, pushed. simpl. by rewrite app_nil_r. Qed.

Lemma opened_pushed o : opened (pushed o) = opened o.
Proof. unfold opened, pushed. simpl. by rewrite app_nil_r. Qed.

Lemma placed_ext s o o' p :
  closed o' = closed o -> opened o' = opened o -> placed s o p -> placed s o' p.
Proof.
  intros E1 E2 [H1 H2 H3 H4 H5 H6 H7 H8 H9]. unfold intervals in *.
  split; unfold intervals; by rewrite ?E1, ?E2.
Qed.

Lemma placed_pushed s o p : placed s o p -> placed s (pushed o) p.
Proof. apply placed_ext; [done | apply opened_pushed]. Qed.

(** Moving on over characters that are kept in no token and are no comma
    outside a comment. *)
Lemma placed_skip s o p p' :
  placed s o p -> (p <= p')%nat -> (p' <= length s)%nat ->
  (forall k, (p <= k < p')%nat -> ~ commaAt s k) ->
  (forall k c, (p <= k < p')%nat -> s !! k = Some c -> isSpace c = false ->
     c <> "," -> ~ outsideComment s k) ->
  placed s o p'.
Proof.
  intros [H1 H2 H3 H4 H5 H6 H7 H8 H9] Hle Hb Hcomma Hkept. split; try done.
  - by eapply chain_weaken.
  - intros a k Ha Hk. destruct (decide (k < p)%nat).
    + apply (H6 a k); [done | lia].
    + apply Hcomma. lia.
  - intros g Hg. destruct (H8 g Hg) as (k & ? & ? & ? & ?).
    exists k. split; [done |]. split; [lia | by split].
  - intros k c Hk Hc Hsp Hco Hout. destruct (decide (k < p)%nat).
    + by eapply H9.
    + exfalso. eapply Hkept; try done. lia.
Qed.

(** Keeping the character at the index of the scan. *)
Lemma placed_extended s o p c :
  placed s o p -> s !! p = Some c -> c <> "," -> outsideComment s p ->
  (forall iv, current o = Some iv -> snd iv = p) ->
  placed s (extended p o) (S p).
Proof.
  intros [H1 H2 H3 H4 H5 H6 H7 H8 H9] Hc Hcomma Hout Hcur.
  assert (Hlt := lookup_lt_Some _ _ _ Hc).
  assert (Hnot : ~ commaAt s p).
  { intros [Hp _]. rewrite Hc in Hp. by injection Hp. }
  unfold intervals, opened, extended in *.
  destruct (current o) as [[p0 q]|] eqn:Hco; simpl in *.
  - specialize (Hcur _ eq_refl). simpl in Hcur. subst q.
    rewrite !app_assoc in *.
    apply Forall_app in H3 as [H3 H3'].
    apply Forall_cons in H3' as [H3' _]. simpl in H3'.
    assert (Hp0 : (p0 < p)%nat).
    { destruct (chain_In _ _ _ (p0, p) H2); [|simpl in *; lia].
      apply in_or_app. right. by left. }
    split; unfold intervals, opened; simpl; rewrite ?app_assoc; try done.
    + eapply chain_grow; [done | lia | lia].
    + apply Forall_app. split; [done |]. constructor; [|done]. simpl.
      intros k Hk. destruct (decide (k < p)%nat); [apply H3'; lia |].
      by replace k with p by lia.
    + intros a k Ha Hk. destruct (decide (k < p)%nat) as [Hkp|Hkp].
      * apply in_app_or in Ha as [Ha|[<-|[]]].
        -- apply (H6 a k); [apply in_or_app; by left | lia].
        -- apply (H6 (p0, p) k); [apply in_or_app; right; by left | simpl in *; lia].
      * by replace k with p by lia.
    + intros g Hg. destruct (H8 g Hg) as (k & Hk1 & Hk2 & Hk3 & Hk4).
      exists k. split; [done |]. split; [lia |]. split; [done |].
      intros b Hb. apply in_app_or in Hb as [Hb|[<-|[]]].
      * apply Hk4. apply in_or_app. by left.
      * apply (Hk4 (p0, p)). apply in_or_app. right. by left.
    + intros k c' Hk Hc' Hsp Hco' Hout'.
      destruct (decide (k < p)%nat) as [Hkp|Hkp].
      * destruct (H9 k c' Hkp Hc' Hsp Hco' Hout') as (iv & Hiv & Hin).
        apply in_app_or in Hiv as [Hiv|[<-|[]]].
        -- exists iv. split; [apply in_or_app; by left | done].
        -- exists (p0, S p). split; [apply in_or_app; right; by left |].
           simpl in *. lia.
      * exists (p0, S p). split; [apply in_or_app; right; by left |].
        simpl. lia.
  - rewrite !app_nil_r in *. split; unfold intervals, opened; simpl; try done.
    + rewrite app_assoc. apply chain_snoc; [done | lia].
    + rewrite app_assoc. apply Forall_app. split; [done |].
      constructor; [|done]. simpl. intros k Hk. by replace k with p by lia.
    + intros a k Ha Hk. destruct (decide (k < p)%nat) as [Hkp|Hkp].
      * apply in_app_or in Ha as [Ha|[<-|[]]].
        -- apply (H6 a k); [done | lia].
        -- simpl in *. lia.
      * by replace k with p by lia.
    + intros g Hg. destruct (H8 g Hg) as (k & Hk1 & Hk2 & Hk3 & Hk4).
      exists k. split; [done |]. split; [lia |]. split; [done |].
      intros b Hb. apply in_app_or in Hb as [Hb|[<-|[]]]; [by apply Hk4 |].
      simpl. lia.
    + intros k c' Hk Hc' Hsp Hco' Hout'.
      destruct (decide (k < p)%nat) as [Hkp|Hkp].
      * destruct (H9 k c' Hkp Hc' Hsp Hco' Hout') as (iv & Hiv & Hin).
        exists iv. split; [|done]. rewrite app_assoc. apply in_or_app. by left.
      * exists (p, S p). split; [|simpl; lia].
        apply in_or_app. right. apply in_or_app. right. by left.
Qed.

Lemma separated_snoc s (L : list (list (nat * nat))) (g' : list (nat * nat)) :
  separated s L ->
  (forall g, last L = Some g -> commaBetween s g g') ->
  separated s (L ++ [g']).
Proof.
  induction L as [|g L IH]; [done |].
  intros Hs Hl. destruct L as [|g2 L].
  - simpl. split; [by apply Hl | done].
  - destruct Hs as [Hs1 Hs2].
    change (commaBetween s g g2 /\ separated s ((g2 :: L) ++ [g'])).
    split; [done |]. apply IH; [done |].
    intros g0 Hg0. apply Hl. by rewrite last_cons_cons.
Qed.

(** What closing the group being read gives. *)
Lemma placed_closing s o p :
  placed s o p ->
  let ivs := closed o ++ groupOf (opened o) in
  concat ivs = intervals o /\ Forall (fun g => g <> []) ivs /\
  Forall (sameGroup s) ivs /\ separated s ivs.
Proof.
  intros [H1 H2 H3 H4 H5 H6 H7 H8 H9]. unfold intervals in *.
  destruct (opened o) as [|a l] eqn:Ho; simpl.
  - by rewrite !app_nil_r.
  - rewrite concat_app. simpl. rewrite app_nil_r.
    split; [done |]. split; [|split].
    + apply Forall_app. split; [done | by constructor].
    + apply Forall_app. split; [done |]. constructor; [|done].
      intros x y k Hx Hy Hk. apply (H6 x k); [done |].
      destruct (chain_In _ _ _ y H2); [apply in_or_app; by right | lia].
    + apply separated_snoc; [done |].
      intros g Hg. destruct (H8 g Hg) as (k & ? & ? & ? & ?). by exists k.
Qed.

(** Closing the group being read at a comma. *)
Lemma placed_flushed s o p :
  placed s o p -> commaAt s p -> placed s (flushed o) (S p).
Proof.
  intros Hpl Hcomma.
  destruct (placed_closing s o p Hpl) as (E & G1 & G2 & G3).
  destruct Hpl as [H1 H2 H3 H4 H5 H6 H7 H8 H9].
  assert (Hlt := lookup_lt_Some _ _ _ (proj1 Hcomma)).
  split; unfold intervals, opened, flushed; simpl; rewrite ?app_nil_r, ?E;
    try done.
  - eapply chain_weaken; [done | lia].
  - intros g Hg. destruct (opened o) as [|a l] eqn:Ho; simpl in Hg.
    + rewrite app_nil_r in Hg. destruct (H8 g Hg) as (k & ? & ? & ? & ?).
      exists k. split; [done |]. split; [lia | by split].
    + rewrite last_snoc in Hg. injection Hg as <-.
      exists p. split; [done |]. split; [lia |]. split; [|done].
      intros b Hb. destruct (chain_In _ _ _ b H2); [|lia].
      unfold intervals. rewrite Ho. apply in_or_app. by right.
  - intros k c Hk Hc Hsp Hco Hout.
    destruct (decide (k < p)%nat) as [Hkp|Hkp]; [by eapply H9 |].
    replace k with p in * by lia. destruct Hcomma as [Hp _].
    rewrite Hc in Hp. by injection Hp.
Qed.

Lemma placed_init s : placed s (mkOrigin [] [] None) 0.
Proof.
  split; unfold intervals, opened; simpl; try done; try lia.
Qed.

(** ** The buffers of a state *)

Lemma rep_ext s o st st' :
  component st' = component st -> componentArray st' = componentArray st ->
  listArray st' = listArray st -> rep s o st -> rep s o st'.
Proof. intros E1 E2 E3 [H1 H2 H3]. split; by rewrite ?E1, ?E2, ?E3. Qed.

Lemma rep_pushComponent s o st :
  rep s o st -> (forall iv, current o = Some iv -> tokenOf s iv <> []) ->
  rep s (pushed o) (pushComponent st).
Proof.
  intros [H1 H2 H3] Hne. unfold pushComponent, pushed, opened.
  destruct (current o) as [iv|] eqn:Hc; simpl.
  - specialize (Hne iv eq_refl). rewrite H3.
    destruct (tokenOf s iv) eqn:Ht; [done |]. simpl.
    split; simpl; [done | | done].
    by rewrite H2, map_app, <- Ht.
  - rewrite H3. simpl. split; simpl; by rewrite ?app_nil_r, ?Hc.
Qed.

Lemma rep_pushComponentArray s o st :
  rep s o st -> current o = None ->
  (forall iv, In iv (pending o) -> tokenOf s iv <> []) ->
  rep s (flushed o) (pushComponentArray st).
Proof.
  intros [H1 H2 H3] Hc Hne. unfold pushComponentArray, flushed, opened.
  rewrite Hc in *. simpl. rewrite app_nil_r, H2.
  destruct (pending o) as [|iv l] eqn:Hp; simpl.
  - split; simpl; by rewrite ?app_nil_r, ?Hp.
  - destruct (tokenOf s iv) eqn:Ht; [exfalso; apply (Hne iv); [by left | done] |].
    simpl. split; simpl; [| done | done].
    rewrite H1, map_app. simpl. by rewrite Ht.
Qed.

Lemma rep_append s o st p c :
  rep s o st ->
  component st ++ [c] =
    tokenOf s (match current o with Some iv => fst iv | None => p end, S p) ->
  rep s (extended p o) (append c st).
Proof. intros [H1 H2 H3] Hc. by split. Qed.

End FwdPosFacts.

Module FwdPosStep.
Import Fwd FwdFacts FwdPos FwdPosFacts.

Lemma placed_tokens s o p iv :
  placed s o p -> In iv (intervals o) -> tokenOf s iv <> [].
Proof.
  intros Hpl Hin.
  destruct (chain_In _ _ _ iv (pl_chain _ _ _ Hpl) Hin) as (? & ? & ?).
  pose proof (pl_bound _ _ _ Hpl). destruct iv as [a b].
  apply tokenOf_nonempty; simpl in *; lia.
Qed.

Lemma space_char_facts (c : ascii) :
  isSpace c = true -> c <> "," /\ (c =? "/") = false.
Proof.
  unfold isSpace. rewrite !orb_true_iff.
  intros [[[[H|H]|H]|H]|H]; apply Ascii.eqb_eq in H; by subst.
Qed.

Lemma mask_plain (s : str) (p : nat) (c : ascii) :
  drop p (commentMask false s) = commentMask false (drop p s) ->
  s !! p = Some c ->
  (c =? "/") && is_char (s !! (p + 1)%nat) "*" = false ->
  outsideComment s p /\
  drop (p + 1) (commentMask false s) = commentMask false (drop (p + 1) s).
Proof.
  intros Hm Hc Hno. pose proof (mask_at s p false c Hm Hc) as H.
  simpl in H. by rewrite Hno in H.
Qed.

(** The token being read is flushed, where the scan is. *)
Lemma tracked_pushComponent s o st :
  rep s o st -> placed s o (pos st) -> sync s o st ->
  rep s (pushed o) (pushComponent st) /\
  placed s (pushed o) (pos st) /\
  current (pushed o) = None.
Proof.
  intros Hrep Hpl Hsync. split; [|split; [by apply placed_pushed | done]].
  apply rep_pushComponent; [done |].
  intros iv Hiv. apply (placed_tokens s o (pos st)); [done |].
  unfold intervals, opened. rewrite Hiv.
  apply in_or_app. right. apply in_or_app. right. by left.
Qed.

(** A character that is kept is added to the token being read. *)
Lemma tracked_keep s o st st' c c' :
  rep s o st -> placed s o (pos st) -> sync s o st ->
  inComment st = false -> s !! pos st = Some c ->
  (c =? "/") && is_char (s !! (pos st + 1)%nat) "*" = false ->
  c <> "," ->
  (if isSpace c
   then c' = " " /\ truthy (component st) = true /\
        spaceRead (charBefore s (pos st)) = false
   else c' = c) ->
  component st' = component st ++ [c'] ->
  componentArray st' = componentArray st -> listArray st' = listArray st ->
  pos st' = (pos st + 1)%nat -> inComment st' = false ->
  tracked s st'.
Proof.
  intros Hrep Hpl [Hcur Hmask] Hin Hc Hno Hcomma Hkind E1 E2 E3 E4 E5.
  rewrite Hin in Hmask.
  destruct (mask_plain s (pos st) c Hmask Hc Hno) as [Hout Hmask'].
  exists (extended (pos st) o). split; [|split].
  - apply (rep_ext s _ (append c' st)); [done | done | done |].
    apply rep_append; [done |].
    destruct Hrep as [_ _ H3].
    destruct (current o) as [[p0 q]|] eqn:Hco.
    + pose proof (Hcur _ eq_refl Hin) as Hq. simpl in Hq. subst q.
      assert (Hp0 : (p0 < pos st)%nat).
      { destruct (chain_In _ _ _ (p0, pos st) (pl_chain _ _ _ Hpl));
          [|simpl in *; lia].
        unfold intervals, opened. rewrite Hco.
        apply in_or_app. right. apply in_or_app. right. by left. }
      rewrite H3. simpl. destruct (isSpace c) eqn:Hsp.
      * destruct Hkind as (-> & _ & Hprev).
        by rewrite (tokenOf_space s p0 (pos st) c), Hprev.
      * subst c'. rewrite (tokenOf_keep s p0 (pos st) c); [done | lia | done | done].
    + rewrite H3. simpl. destruct (isSpace c) eqn:Hsp.
      * destruct Hkind as (_ & Ht & _). by rewrite H3 in Ht.
      * subst c'. by rewrite (tokenOf_first s (pos st) c).
  - rewrite E4, Nat.add_1_r. apply (placed_extended s o (pos st) c); try done.
    intros iv Hiv. by apply Hcur.
  - split.
    + intros iv Hiv _. injection Hiv as <-. simpl. lia.
    + by rewrite E4, E5.
Qed.

(** A character that is dropped outside a comment: white space while no
    token is being read. *)
Lemma tracked_drop_space s o st st' c :
  rep s o st -> placed s o (pos st) -> sync s o st ->
  inComment st = false -> s !! pos st = Some c -> isSpace c = true ->
  current o = None ->
  component st' = component st ->
  componentArray st' = componentArray st -> listArray st' = listArray st ->
  pos st' = (pos st + 1)%nat -> inComment st' = false ->
  tracked s st'.
Proof.
  intros Hrep Hpl [Hcur Hmask] Hin Hc Hsp Hco E1 E2 E3 E4 E5.
  rewrite Hin in Hmask.
  destruct (space_char_facts c Hsp) as [Hcomma Hslash].
  destruct (mask_plain s (pos st) c Hmask Hc) as [Hout Hmask'];
    [by rewrite Hslash |].
  assert (Hlt := lookup_lt_Some _ _ _ Hc).
  exists o. split; [by apply (rep_ext s o st) |]. split.
  - rewrite E4. apply (placed_skip s o (pos st)); [done | lia | lia | |].
    + intros k Hk [Hk' _]. replace k with (pos st) in Hk' by lia.
      rewrite Hc in Hk'. by injection Hk'.
    + intros k c0 Hk Hc0 Hsp0. replace k with (pos st) in Hc0 by lia.
      rewrite Hc in Hc0. injection Hc0 as <-. congruence.
  - split; [by rewrite Hco | by rewrite E4, E5].
Qed.

(** Characters of a comment are passed over. *)
Lemma tracked_comment s o st st' (n : nat) :
  rep s o st -> placed s o (pos st) -> sync s o st ->
  (pos st + n <= length s)%nat ->
  (forall k, (pos st <= k < pos st + n)%nat ->
     commentMask false s !! k = Some true) ->
  drop (pos st + n) (commentMask false s) =
    commentMask (inComment st') (drop (pos st + n) s) ->
  (inComment st' = false -> current o = None) ->
  component st' = component st ->
  componentArray st' = componentArray st -> listArray st' = listArray st ->
  pos st' = (pos st + n)%nat ->
  tracked s st'.
Proof.
  intros Hrep Hpl [Hcur Hmask] Hlen Hin Hmask' Hco E1 E2 E3 E4.
  assert (Hno : forall k, (pos st <= k < pos st + n)%nat -> ~ outsideComment s k).
  { intros k Hk Hout. unfold outsideComment in Hout. by rewrite (Hin k Hk) in Hout. }
  exists o. split; [by apply (rep_ext s o st) |]. split.
  - rewrite E4. apply (placed_skip s o (pos st)); [done | lia | lia | |].
    + intros k Hk [_ Hout]. by apply (Hno k).
    + intros k c0 Hk _ _ _. by apply Hno.
  - split; [|by rewrite E4].
    intros iv Hiv Hin'. by rewrite (Hco Hin') in Hiv.
Qed.

Lemma tracked_step s st st' :
  tracked s st -> step s st = inl st' -> tracked s st'.
Proof.
  intros (o & Hrep & Hpl & Hsync). unfold step.
  destruct (s !! pos st) as [c|] eqn:Hc; [|done].
  assert (Hlt := lookup_lt_Some _ _ _ Hc).
  pose proof (mask_at s (pos st) (inComment st) c (sync_mask _ _ _ Hsync) Hc) as Hm.
  cbv zeta in Hm.
  destruct (inComment st) eqn:Hin.
  { destruct ((c =? "*") && is_char (s !! (pos st + 1)%nat) "/") eqn:Hclose;
      intros [= <-].
    - destruct Hm as (M1 & M2 & M3).
      assert (Hlen : (pos st + 2 <= length s)%nat).
      { apply andb_true_iff in Hclose as [_ Hn].
        destruct (s !! (pos st + 1)%nat) eqn:Hn'; [|done].
        apply lookup_lt_Some in Hn'. lia. }
      destruct (tracked_pushComponent s o st Hrep Hpl Hsync) as (R & P & C).
      apply (tracked_comment s (pushed o) (pushComponent st) _ 2).
      + done.
      + by rewrite FwdInv.pos_pushComponent.
      + destruct Hsync as [Hcur Hmask]. split.
        * by rewrite C.
        * by rewrite FwdInv.pos_pushComponent, FwdDepth.inComment_pushComponent.
      + by rewrite FwdInv.pos_pushComponent.
      + rewrite FwdInv.pos_pushComponent. intros k Hk.
        destruct (decide (k = pos st)) as [->|]; [done |].
        by replace k with (pos st + 1)%nat by lia.
      + rewrite FwdInv.pos_pushComponent. unfold pushComponent.
        by destruct (truthy _).
      + done.
      + unfold pushComponent, advance, setInComment. simpl. by destruct (truthy _).
      + unfold pushComponent, advance, setInComment. simpl. by destruct (truthy _).
      + unfold pushComponent, advance, setInComment. simpl. by destruct (truthy _).
      + unfold pushComponent, advance, setInComment. simpl. by destruct (truthy _).
    - destruct Hm as (M1 & M2).
      apply (tracked_comment s o st _ 1); try done; try lia.
      all: try (intros k Hk; by replace k with (pos st) by lia).
      all: simpl; by rewrite Hin. }
  destruct (isSpace c) eqn:Hsp.
  { destruct (space_char_facts c Hsp) as [Hcomma Hslash].
    destruct (spaceRead (charBefore s (pos st)) || negb (truthy (component st)))
      eqn:Hor.
    - intros [= <-]. destruct (current o) as [[p0 q]|] eqn:Hco.
      + (* white space after white space, inside a token *)
        pose proof (sync_current _ _ _ Hsync _ Hco Hin) as Hq.
        simpl in Hq. subst q.
        assert (Hin0 : In (p0, pos st) (intervals o)).
        { unfold intervals, opened. rewrite Hco.
          apply in_or_app. right. apply in_or_app. right. by left. }
        assert (Hp0 : (p0 < pos st)%nat).
        { destruct (chain_In _ _ _ _ (pl_chain _ _ _ Hpl) Hin0). simpl in *. lia. }
        assert (Hprev : spaceRead (charBefore s (pos st)) = true).
        { apply orb_true_iff in Hor as [|Ht]; [done |].
          apply negb_true_iff in Ht.
          rewrite (rep_component _ _ _ Hrep), Hco in Ht.
          pose proof (placed_tokens s o _ _ Hpl Hin0).
          by destruct (tokenOf s (p0, pos st)). }
        destruct Hsync as [Hcur Hmask]. rewrite Hin in Hmask.
        destruct (mask_plain s (pos st) c Hmask Hc) as [Hout Hmask'];
          [by rewrite Hslash |].
        exists (extended (pos st) o). split; [|split].
        * destruct Hrep as [H1 H2 H3]. split; simpl; try done.
          rewrite H3, Hco. simpl.
          by rewrite (tokenOf_space s p0 (pos st) c), Hprev, app_nil_r.
        * simpl. rewrite Nat.add_1_r.
          apply (placed_extended s o (pos st) c); try done.
          intros iv Hiv. by apply Hcur.
        * split; simpl; [|by rewrite Hin].
          intros iv Hiv _. injection Hiv as <-. simpl. lia.
      + by apply (tracked_drop_space s o st _ c).
    - apply orb_false_iff in Hor as [Hprev Ht]. apply negb_false_iff in Ht.
      destruct (parenDepth st =? 0)%Z; intros [= <-].
      + (* white space at depth zero ends the token *)
        destruct (tracked_pushComponent s o st Hrep Hpl Hsync) as (R & P & C).
        apply (tracked_drop_space s (pushed o) (pushComponent st) _ c);
          rewrite ?FwdInv.pos_pushComponent, ?FwdDepth.inComment_pushComponent;
          try done.
        * destruct Hsync as [Hcur Hmask]. split; [by rewrite C |].
          by rewrite FwdInv.pos_pushComponent, FwdDepth.inComment_pushComponent.
        * simpl. by rewrite FwdInv.pos_pushComponent.
        * simpl. by rewrite FwdDepth.inComment_pushComponent.
      + apply (tracked_keep s o st _ c " "); try done.
        * by rewrite Hslash.
        * by rewrite Hsp. }
  destruct (c =? "(") eqn:H1.
  { intros [= <-]. apply Ascii.eqb_eq in H1 as ->.
    apply (tracked_keep s o st _ "(" "("); by try done. }
  destruct (c =? ")") eqn:H2.
  { intros [= <-]. apply Ascii.eqb_eq in H2 as ->.
    apply (tracked_keep s o st _ ")" ")"); by try done. }
  destruct (c =? ",") eqn:H3.
  { intros [= <-]. apply Ascii.eqb_eq in H3 as ->.
    destruct (tracked_pushComponent s o st Hrep Hpl Hsync) as (R & P & C).
    destruct Hsync as [Hcur Hmask]. rewrite Hin in Hmask.
    destruct (mask_plain s (pos st) "," Hmask Hc) as [Hout Hmask']; [done |].
    exists (flushed (pushed o)). split; [|split].
    - apply (rep_ext s _ (pushComponentArray (pushComponent st))); try done.
      apply rep_pushComponentArray; [done | done |].
      intros iv Hiv. apply (placed_tokens s (pushed o) (pos st)); [done |].
      unfold intervals, opened. apply in_or_app. right. apply in_or_app. by left.
    - simpl. rewrite FwdInv.pos_pushComponentArray, FwdInv.pos_pushComponent.
      rewrite Nat.add_1_r. by apply placed_flushed.
    - split; [done |]. simpl.
      rewrite FwdInv.pos_pushComponentArray, FwdInv.pos_pushComponent,
        FwdDepth.inComment_pushComponentArray, FwdDepth.inComment_pushComponent.
      by rewrite Hin. }
  apply Ascii.eqb_neq in H3.
  destruct ((c =? "/") && is_char (s !! (pos st + 1)%nat) "*") eqn:Hopen;
    intros [= <-].
  - destruct Hm as (M1 & M2 & M3).
    assert (Hlen : (pos st + 2 <= length s)%nat).
    { apply andb_true_iff in Hopen as [_ Hn].
      destruct (s !! (pos st + 1)%nat) eqn:Hn'; [|done].
      apply lookup_lt_Some in Hn'. lia. }
    apply (tracked_comment s o st _ 2); try done.
    intros k Hk. destruct (decide (k = pos st)) as [->|]; [done |].
    by replace k with (pos st + 1)%nat by lia.
  - apply (tracked_keep s o st _ c c); try done. by rewrite Hsp.
Qed.

End FwdPosStep.

Module FwdPosOut.
Import Fwd FwdFacts FwdPos FwdPosFacts FwdPosStep.

Lemma tracked_init s : tracked s init.
Proof.
  exists (mkOrigin [] [] None). split; [by split |].
  split; [apply placed_init | by split].
Qed.

(** What the scan returns is read from intervals of the input that are in
    the order of the output, with the groups parted by commas. *)
Lemma tracked_return s st r :
  tracked s st -> step s st = inr r ->
  exists ivs : list (list (nat * nat)),
    r = map (map (tokenOf s)) ivs /\
    Forall (fun g => g <> []) ivs /\
    chain 0 (concat ivs) (length s) /\
    Forall (fun iv => forall k, (fst iv <= k < snd iv)%nat -> outsideComment s k)
           (concat ivs) /\
    Forall (sameGroup s) ivs /\
    separated s ivs /\
    (forall k c,
       s !! k = Some c -> isSpace c = false -> c <> "," -> outsideComment s k ->
       exists iv, In iv (concat ivs) /\ (fst iv <= k < snd iv)%nat).
Proof.
  intros (o & Hrep & Hpl & Hsync) Hret.
  apply step_returns in Hret as [Hend ->]. apply lookup_ge_None in Hend.
  destruct (tracked_pushComponent s o st Hrep Hpl Hsync) as (R & P & C).
  assert (F : rep s (flushed (pushed o)) (pushComponentArray (pushComponent st))).
  { apply rep_pushComponentArray; [done | done |].
    intros iv Hiv. apply (placed_tokens s (pushed o) (pos st)); [done |].
    unfold intervals, opened. apply in_or_app. right. apply in_or_app. by left. }
  destruct (placed_closing s (pushed o) (pos st) P) as (E & G1 & G2 & G3).
  destruct P as [P1 P2 P3 _ _ _ _ _ P9].
  assert (Hpos : pos st = length s) by lia. rewrite Hpos in *.
  exists (closed (pushed o) ++ groupOf (opened (pushed o))).
  split; [by destruct F |]. rewrite E. repeat split; try done.
  intros k c Hk. apply P9; [by apply lookup_lt_Some in Hk | done].
Qed.

Lemma output_placed (s : str) :
  exists ivs : list (list (nat * nat)),
    parseComponentValues s = Some (map (map (tokenOf s)) ivs) /\
    Forall (fun g => g <> []) ivs /\
    chain 0 (concat ivs) (length s) /\
    Forall (fun iv => forall k, (fst iv <= k < snd iv)%nat -> outsideComment s k)
           (concat ivs) /\
    Forall (sameGroup s) ivs /\
    separated s ivs /\
    (forall k c,
       s !! k = Some c -> isSpace c = false -> c <> "," -> outsideComment s k ->
       exists iv, In iv (concat ivs) /\ (fst iv <= k < snd iv)%nat).
Proof.
  destruct (run_invariant s (tracked s)
    (fun r => exists ivs : list (list (nat * nat)),
       r = map (map (tokenOf s)) ivs /\
       Forall (fun g => g <> []) ivs /\
       chain 0 (concat ivs) (length s) /\
       Forall (fun iv => forall k, (fst iv <= k < snd iv)%nat -> outsideComment s k)
              (concat ivs) /\
       Forall (sameGroup s) ivs /\
       separated s ivs /\
       (forall k c,
          s !! k = Some c -> isSpace c = false -> c <> "," -> outsideComment s k ->
          exists iv, In iv (concat ivs) /\ (fst iv <= k < snd iv)%nat)))
    with (st := init) as (r & Hrun & ivs & -> & H).
  - apply tracked_step.
  - apply tracked_return.
  - apply tracked_init.
  - by exists ivs.
Qed.

(** ** A comma outside a comment splits the output *)

Lemma step_bound s st st' : step s st = inl st' -> (pos st' <= length s)%nat.
Proof.
  unfold step. destruct (s !! pos st) as [c|] eqn:Hc; [|done].
  apply lookup_lt_Some in Hc.
  destruct (s !! (pos st + 1)%nat) as [d|] eqn:Hd.
  - apply lookup_lt_Some in Hd.
    repeat match goal with
           | |- context [if ?b then _ else _] => destruct b
           end; intros [= <-]; simpl;
      rewrite ?FwdInv.pos_pushComponentArray, ?FwdInv.pos_pushComponent;
      simpl; lia.
  - simpl. rewrite !andb_false_r.
    repeat match goal with
           | |- context [if ?b then _ else _] => destruct b
           end; intros [= <-]; simpl;
      rewrite ?FwdInv.pos_pushComponentArray, ?FwdInv.pos_pushComponent;
      simpl; lia.
Qed.

Section Prefix.

Variables (s1 s2 : str).

(** Before the comma, the scan of [s1 ++ "," :: s2] is the scan of [s1]. *)
Lemma prefix_step_any st :
  (pos st < length s1)%nat ->
  step (s1 ++ "," :: s2) st = step s1 st /\
  exists st', step s1 st = inl st'.
Proof.
  intros Hp.
  assert (Hcur : (s1 ++ "," :: s2) !! pos st = s1 !! pos st)
    by (by apply lookup_app_l).
  assert (Hnext : forall x, x <> "," ->
    is_char ((s1 ++ "," :: s2) !! (pos st + 1)%nat) x =
    is_char (s1 !! (pos st + 1)%nat) x).
  { intros x Hx. destruct (decide (pos st + 1 < length s1)%nat) as [Hlt|Hge].
    - by rewrite lookup_app_l.
    - replace (pos st + 1)%nat with (length s1) by lia.
      rewrite list_lookup_middle by done.
      rewrite (proj2 (lookup_ge_None s1 (length s1))) by done.
      unfold is_char. apply Ascii.eqb_neq. congruence. }
  assert (Hprev : charBefore (s1 ++ "," :: s2) (pos st) = charBefore s1 (pos st)).
  { destruct (pos st) as [|q] eqn:Hq; [done |]. simpl.
    apply lookup_app_l. lia. }
  split.
  - unfold step. by rewrite Hcur, Hprev, !Hnext.
  - destruct (step s1 st) as [st'|r] eqn:Hs; [by exists st' |].
    apply step_returns in Hs as [Hend _]. apply lookup_ge_None in Hend. lia.
Qed.

Lemma prefix_scan (n : nat) : forall st,
  (length s1 - pos st <= n)%nat -> (pos st <= length s1)%nat ->
  FwdSpec.wf st -> tracked (s1 ++ "," :: s2) st -> reachable s1 st ->
  exists stE,
    pos stE = length s1 /\ FwdSpec.wf stE /\ tracked (s1 ++ "," :: s2) stE /\
    reachable s1 stE /\
    (noParens s1 -> parenDepth st = 0%Z -> parenDepth stE = 0%Z) /\
    run (s1 ++ "," :: s2) st = run (s1 ++ "," :: s2) stE /\
    run s1 st = run s1 stE.
Proof.
  induction n as [|n IH]; intros st Hn Hp Hwf Htr Hre.
  - exists st. split; [lia |]. by repeat (split; [done |]).
  - destruct (decide (pos st = length s1)) as [Heq|Hne].
    { exists st. by repeat (split; [done |]). }
    destruct (prefix_step_any st) as (Heq & st' & Hs); [lia |].
    pose proof (step_advances _ _ _ Hs) as [_ Hadv].
    pose proof (step_bound _ _ _ Hs) as Hb.
    destruct (IH st') as (stE & ? & ? & ? & ? & Hd & Hr & Hr1).
    + lia.
    + done.
    + by eapply FwdInv.wf_step.
    + eapply tracked_step; [done |]. by rewrite Heq.
    + by eapply reach_step.
    + exists stE. do 4 (split; [done |]). split; [|split].
      * intros Hnp Hd0. apply Hd; [done |]. by eapply FwdDepth.depth_step.
      * rewrite <- Hr. apply run_step. by rewrite Heq.
      * rewrite <- Hr1. by apply run_step.
Qed.

End Prefix.

Lemma mask_head_comma (inC : bool) (s2 : str) :
  commentMask inC ("," :: s2) !! 0%nat = Some inC.
Proof. destruct s2 as [|d r]; [done |]. by destruct inC. Qed.

(** The groups of [s1 ++ "," :: s2], when the comma is not part of a
    comment, are the groups of [s1] followed by the groups of [s2], read
    from the paren depth at which the scan of [s1] ends. *)
Lemma comma_splits_output (s1 s2 : str) :
  outsideComment (s1 ++ "," :: s2) (length s1) ->
  exists (stE : state) (g1 g2 : list (list str)),
    reachable s1 stE /\ pos stE = length s1 /\
    parseComponentValues s1 = Some g1 /\
    run s2 (startAt (parenDepth stE)) = Some g2 /\
    parseComponentValues (s1 ++ "," :: s2) = Some (g1 ++ g2) /\
    (noParens s1 -> parenDepth stE = 0%Z).
Proof.
  intros Hout.
  destruct (prefix_scan s1 s2 (length s1) init)
    as (stE & Hpos & Hwf & Htr & Hre & Hd & Hr & Hr1);
    [simpl; lia | simpl; lia | apply FwdInv.wf_init | apply tracked_init
    | apply reach_init |].
  assert (Hin : inComment stE = false).
  { destruct Htr as (o & _ & _ & [_ Hm]). rewrite Hpos in Hm.
    rewrite drop_app_length in Hm.
    unfold outsideComment in Hout.
    rewrite <- (Nat.add_0_r (length s1)), <- lookup_drop, Hm in Hout.
    rewrite mask_head_comma in Hout. by injection Hout. }
  destruct (run_total s2 (startAt (parenDepth stE))) as [g2 Hg2].
  exists stE, (finish stE), g2. unfold parseComponentValues.
  do 2 (split; [done |]).
  split; [|split; [done |]; split; [|by intros Hnp; apply Hd]].
  - rewrite Hr1. apply run_return. rewrite Hpos. by apply lookup_ge_None.
  - rewrite Hr.
    pose proof (FwdTokens.flush_spec stE Hwf) as (E1 & E2 & _ & E4 & E5 & E6).
    etrans; [apply (run_step _ _
      (FwdBuf.shift (length s1 + 1) (finish stE) (startAt (parenDepth stE))))|].
    + unfold step. rewrite Hpos, list_lookup_middle, Hin by done. simpl.
      f_equal. unfold finish, FwdBuf.shift, advance, startAt.
      destruct (pushComponentArray (pushComponent stE)); simpl in *.
      by rewrite E1, E2, E4, E5, E6, Hin, Hpos, app_nil_r, Nat.add_0_r.
    + replace (s1 ++ "," :: s2) with ((s1 ++ [","]) ++ s2)
        by (by rewrite <- app_assoc).
      rewrite (FwdFrame.run_shift (length s1 + 1) (finish stE) (s1 ++ [","]) s2)
        by (by rewrite ?length_app).
      by rewrite Hg2.
Qed.

(** The intervals of a small input, with a comment that holds a comma and
    one that is never closed. *)
Example intervals_of_an_input :
  let s := lit "(a  b,c) /* , */ d , e/*" in
  parseComponentValues s =
    Some (map (map (tokenOf s)) [[(0, 5)]; [(6, 8); (17, 18)]; [(21, 22)]]%nat) /\
  map (map (tokenOf s)) [[(0, 5)]; [(6, 8); (17, 18)]; [(21, 22)]]%nat =
    [[lit "(a b"]; [lit "c)"; lit "d"]; [lit "e"]] /\
  commentMask false s =
    [false; false; false; false; false; false; false; false; false;
     true; true; true; true; true; true; true;
     false; false; false; false; false; false; true; true].
Proof. by vm_compute. Qed.

End FwdPosOut.

(** C9: for every input the tokenizer returns groups none of which is
    empty, whose tokens are neither empty nor made of white space only and
    hold no comma. Each token is read from an interval of the input, with
    each run of white space made one plain space; the intervals are not
    empty, lie outside the comments, and come in the input in the order in
    which their tokens come in the output, each ending before the next
    starts: groups and tokens are in their order of appearance. Commas
    decide the groups, at any paren depth: no comma outside a comment lies
    within a group (between the start of one of its tokens and the end of
    another or of the same), and one lies between each group and the next.
    No character is lost but white space, commas and comments. And a comma
    outside a comment cuts the output in two: the groups of
    [s1 ++ "," :: s2] are the groups of [s1] followed by the groups of
    [s2], read from the paren depth at which the scan of [s1] ends, which
    is zero when [s1] has no parenthesis. *)
Theorem tokenizer_output_invariants :
  (forall s : str,
     exists (groups : list (list str)) (ivs : list (list (nat * nat))),
       Fwd.parseComponentValues s = Some groups /\
       Forall (fun g => g <> []) groups /\
       Forall (Forall (fun t => t <> [] /\ forallb isSpace t = false /\
                                ~ In "," t)) groups /\
       groups = map (map (tokenOf s)) ivs /\
       chain 0 (concat ivs) (length s) /\
       Forall (fun iv => forall k, (fst iv <= k < snd iv)%nat ->
                                   outsideComment s k) (concat ivs) /\
       Forall (sameGroup s) ivs /\
       separated s ivs /\
       (forall k c,
          s !! k = Some c -> isSpace c = false -> c <> "," ->
          outsideComment s k ->
          exists iv, In iv (concat ivs) /\ (fst iv <= k < snd iv)%nat)) /\
  (forall s1 s2 : str,
     outsideComment (s1 ++ "," :: s2) (length s1) ->
     exists (stE : Fwd.state) (g1 g2 : list (list str)),
       reachable s1 stE /\ Fwd.pos stE = length s1 /\
       Fwd.parseComponentValues s1 = Some g1 /\
       Fwd.run s2 (startAt (Fwd.parenDepth stE)) = Some g2 /\
       Fwd.parseComponentValues (s1 ++ "," :: s2) = Some (g1 ++ g2) /\
       (noParens s1 -> Fwd.parenDepth stE = 0%Z)).
Proof.
  split; [|apply FwdPosOut.comma_splits_output].
  intros s.
  destruct (FwdTokens.output_invariants s) as (groups & Hrun & H1 & H2 & _).
  destruct (FwdPosOut.output_placed s) as (ivs & Hrun' & _ & H).
  exists groups, ivs. do 3 (split; [done |]).
  split; [|done]. rewrite Hrun in Hrun'. by injection Hrun'.
Qed.

Lemma tokenizer_output_invariants_witness :
  exists (stE : Fwd.state) (g1 g2 : list (list str)),
    reachable (lit "(a /*,*/ b") stE /\ Fwd.pos stE = 10%nat /\
    Fwd.parseComponentValues (lit "(a /*,*/ b") = Some g1 /\
    Fwd.run (lit " c) d , e") (startAt (Fwd.parenDepth stE)) = Some g2 /\
    Fwd.parseComponentValues (lit "(a /*,*/ b" ++ "," :: lit " c) d , e") =
      Some (g1 ++ g2) /\
    (noParens (lit "(a /*,*/ b") -> Fwd.parenDepth stE = 0%Z).
Proof.
  apply (proj2 tokenizer_output_invariants (lit "(a /*,*/ b") (lit " c) d , e")).
  reflexivity.
Defined.
